(** * revelryengine/gltf: the root record, its gates, the dereferencer
      contract, load orchestration, the binary container and the
      decompression worker, as a shallow embedding.

    Sources embedded here:
    - [lib/gltf.js]: [ensureSupport], the [GLTF] constructor, its static
      [referenceFields], the static and the instance [load];
    - [lib/extensions.js] in its two forms: the [Map]-like registry the root
      record consults ([has], [values], [set]) and the class
      [GLTFExtensionsSet] ([add], [getFactory], [isSupported]);
    - [lib/mesh.js]: [Mesh] and its [load];
    - [lib/values.js]: the [Values] record and its [load];
    - [lib/extensions/KHR_draco_mesh_compression.js]: the worker body and
      [KHRDracoMeshCompressionPrimitive.load].

    [lib/gltf-property.js] (the base record with [dereference], [load],
    [loadOnce]), [lib/utils/worker-helper.js] and the leaf records are not
    among the sources at hand; what is needed from them is taken from the
    specification and marked as such. *)

From Stdlib Require Import ZArith QArith List String Ascii Lia Bool.
From stdpp Require Import gmap strings list fin_maps.

Local Open Scope Z_scope.
Local Open Scope string_scope.
Local Open Scope list_scope.

(* ===================================================================== *)
(** ** JavaScript values the code relies on *)
(* ===================================================================== *)

Module JS.

(** What a [throw] carries. [Error message] is [new Error(message)]: the
    two gates of [ensureSupport] throw plain [Error]s told apart by their
    message. The other constructors are the built-in error classes the
    engine itself raises. *)
Inductive exn : Type :=
| Error (message : string)
| TypeError
| RangeError
| SyntaxError
| ReferenceError.

(** Outcome of synchronous code: a value or a throw. *)
Inductive completion (A : Type) : Type :=
| Normal (a : A)
| Throw (e : exn).
Arguments Normal {A} a.
Arguments Throw {A} e.

Definition bind {A B} (c : completion A) (k : A -> completion B) : completion B :=
  match c with
  | Normal a => k a
  | Throw e => Throw e
  end.

Definition is_Normal {A} (c : completion A) : bool :=
  match c with Normal _ => true | Throw _ => false end.

(** [xs.map(f)] where [f] may throw: left to right, the first throw wins. *)
Fixpoint mapM {A B} (f : A -> completion B) (xs : list A) : completion (list B) :=
  match xs with
  | [] => Normal []
  | x :: xs' =>
      bind (f x) (fun y => bind (mapM f xs') (fun ys => Normal (y :: ys)))
  end.

(** A JavaScript number: IEEE doubles are rationals, two infinities and
    NaN (the sign of zero plays no role in the comparisons used). *)
Inductive number : Type :=
| NaN
| Infinity (negative : bool)
| Finite (q : Q).

(** [x !== k] for an integer literal [k]. *)
Definition strict_ne (x : number) (k : Z) : bool :=
  match x with
  | Finite q => negb (Qeq_bool q (inject_Z k))
  | _ => true
  end.

(** [x > 0] where [x] may be [undefined] ([None]): [undefined] converts to
    NaN and every comparison with NaN is false. *)
Definition gt_zero (x : option number) : bool :=
  match x with
  | Some (Finite q) => negb (Qle_bool q 0)
  | Some (Infinity negative) => negb negative
  | Some NaN | None => false
  end.

(** [s.split(sep)] for a one-character separator: never empty. *)
Fixpoint split (sep : ascii) (s : string) : list string :=
  match s with
  | EmptyString => [EmptyString]
  | String c s' =>
      if Ascii.eqb c sep then EmptyString :: split sep s'
      else match split sep s' with
           | h :: t => String c h :: t
           | [] => [String c EmptyString]
           end
  end.

(** Truthiness of an optional string: [undefined] and [""] are falsy. *)
Definition truthy (s : option string) : bool :=
  match s with
  | Some s => negb (String.eqb s "")
  | None => false
  end.

(** [a || b] on optional strings. *)
Definition or_else (a b : option string) : option string :=
  if truthy a then a else b.

(** [Number(s)] on a string of decimal digits; the empty string is 0.
    Used to instantiate the conversion at concrete inputs: the gate itself
    is stated for any conversion function. *)
Definition digit_value (c : ascii) : option Z :=
  let n := Z.of_nat (nat_of_ascii c) in
  if ((48 <=? n) && (n <=? 57))%Z then Some (n - 48) else None.

Fixpoint decimal (acc : Z) (s : string) : option Z :=
  match s with
  | EmptyString => Some acc
  | String c s' =>
      match digit_value c with
      | Some d => decimal (10 * acc + d) s'
      | None => None
      end
  end.

Definition Number_decimal (s : string) : number :=
  match decimal 0 s with
  | Some z => Finite (inject_Z z)
  | None => NaN
  end.

End JS.
Import JS.

(* ===================================================================== *)
(** ** Promises on a logical clock *)
(* ===================================================================== *)

Module Async.

(** The fate of a promise: it never settles, or it settles at some instant
    of a logical clock, fulfilled with a value or rejected with a reason. *)
Inductive promise (A : Type) : Type :=
| Pending
| Fulfilled (at_ : nat) (v : A)
| Rejected (at_ : nat) (e : exn).
Arguments Pending {A}.
Arguments Fulfilled {A} at_ v.
Arguments Rejected {A} at_ e.

(** The earliest rejection of a list of promises; of two rejections at the
    same instant the one listed first. *)
Fixpoint first_rejection {A} (ps : list (promise A)) : option (nat * exn) :=
  match ps with
  | [] => None
  | p :: ps' =>
      match p, first_rejection ps' with
      | Rejected t e, Some (t', e') =>
          if (t <=? t')%nat then Some (t, e) else Some (t', e')
      | Rejected t e, None => Some (t, e)
      | _, r => r
      end
  end.

(** The values of a list of promises all fulfilled, with the instant the
    last of them settles (not before [now]). *)
Fixpoint all_fulfilled {A} (now : nat) (ps : list (promise A)) : option (nat * list A) :=
  match ps with
  | [] => Some (now, [])
  | Fulfilled t v :: ps' =>
      match all_fulfilled now ps' with
      | Some (t', vs) => Some (Nat.max t t', v :: vs)
      | None => None
      end
  | _ :: _ => None
  end.

(** A promise as a caller meets it at [now]: a rejection that came before
    is met at the call. *)
Definition seen_at {A} (now : nat) (p : promise A) : promise A :=
  match p with
  | Rejected t e => Rejected (Nat.max now t) e
  | _ => p
  end.

(** [Promise.all(ps)] called at [now]: rejected as soon as it meets a
    rejected element, with that reason (of several met at the call, the one
    listed first); fulfilled once every element is; pending otherwise. *)
Definition Promise_all {A} (now : nat) (ps : list (promise A)) : promise (list A) :=
  match first_rejection (map (seen_at now) ps) with
  | Some (t, e) => Rejected t e
  | None =>
      match all_fulfilled now ps with
      | Some (t, vs) => Fulfilled t vs
      | None => Pending
      end
  end.

End Async.
Import Async.

(* ===================================================================== *)
(** ** The extension registry *)
(* ===================================================================== *)

Module Extensions.

Section Registry.
(** What the registry stores and returns: a record class given to [add], or
    a value an object inherits. The registry never looks inside one. *)
Context {factory : Type}.
(** What [Object.prototype] holds under a name ([toString], [constructor],
    ...), if anything: the objects of [#schemas] are object literals and
    inherit it. Nothing is assumed of it. *)
Variable Object_prototype : string -> option factory.

(** [GLTFExtensionsSet]: the private fields [#supportedExtensions] (a [Set])
    and [#schemas] (an object of objects, keyed by property kind and then by
    extension name), each object by its own properties. A property kind is
    one of the names of record classes the type
    [ExtendablePropertyNames] lists, none of which [Object.prototype] has;
    the name of an extension is any string but ["__proto__"], which an
    assignment does not store. *)
Record GLTFExtensionsSet : Type := {
  supportedExtensions : gset string;
  schemas : gmap string (gmap string factory);
}.

(** [new GLTFExtensionsSet()]. *)
Definition empty : GLTFExtensionsSet :=
  {| supportedExtensions := ∅; schemas := ∅ |}.

(** One turn of the loop of [add]:
    [this.#schemas[property] ??= {}; this.#schemas[property][name] = factory]. *)
Definition add_entry (name : string)
    (sch : gmap string (gmap string factory)) (entry : string * factory)
    : gmap string (gmap string factory) :=
  let '(property, f) := entry in
  let inner := default ∅ (sch !! property) in
  <[property := <[name := f]> inner]> sch.

(** [add(name, config)]; [schema] is [Object.entries(config.schema)]. *)
Definition add (name : string) (schema : list (string * factory))
    (t : GLTFExtensionsSet) : GLTFExtensionsSet :=
  {| supportedExtensions := {[name]} ∪ supportedExtensions t;
     schemas := fold_left (add_entry name) schema (schemas t) |}.

(** [getFactory(property, name)]: [this.#schemas[property]?.[name]]. The
    object of a kind answers for a name with its own property, or else with
    what it inherits under that name. *)
Definition getFactory (property name : string) (t : GLTFExtensionsSet)
    : option factory :=
  match schemas t !! property with
  | Some inner =>
      match inner !! name with
      | Some f => Some f
      | None => Object_prototype name
      end
  | None => None
  end.

(** [isSupported(name)]. *)
Definition isSupported (name : string) (t : GLTFExtensionsSet) : bool :=
  bool_decide (name ∈ supportedExtensions t).

End Registry.
Arguments GLTFExtensionsSet factory : clear implicits.

(** The registry as [lib/gltf.js] and the extension modules use it: a
    [Map] from extension name to its configuration, filled with [set],
    queried with [has], enumerated with [values] in insertion order. Of a
    configuration the root record uses the optional [load] hook only: what
    becomes of the promise it returns when it is called at a given instant. *)
Record config : Type := { load : option (nat -> promise unit) }.

Fixpoint Map_has (ext : string) (extensions : list (string * config)) : bool :=
  match extensions with
  | [] => false
  | (k, _) :: rest => String.eqb k ext || Map_has ext rest
  end.

End Extensions.

(* ===================================================================== *)
(** ** Records, reference fields and the dereferencer *)
(* ===================================================================== *)

Module Graph.

(** A reference field descriptor, [{ name, type, collection }]: [type] is
    ['sub'] (the field holds a sub-record or an array of them) or
    ['collection'] (the field holds an index into [root[collection]]). *)
Inductive refType : Type :=
| sub
| collection (target : string).

Record referenceField : Type := {
  name : string;
  type : refType;
}.

(** What a property of a record holds. [reference c i] is the object
    [root[c][i]] itself: a field holding it holds that element by identity,
    not a copy. [record_ r] is an object the holder owns. An [integer] is a
    Number with an integer value; every other primitive is [other]. *)
#[local] Unset Elimination Schemes.
Inductive value : Type :=
| undefined
| integer (z : Z)
| text (s : string)
| other
| array (vs : list value)
| record_ (r : record)
| reference (c : string) (i : nat)
with record : Type :=
| Rec (referenceFields : list referenceField) (fields : list (string * value)).
#[local] Set Elimination Schemes.

Definition referenceFields (r : record) : list referenceField :=
  match r with Rec rfs _ => rfs end.

Definition fields (r : record) : list (string * value) :=
  match r with Rec _ fs => fs end.

(** [r[key]]: the first binding, [undefined] when absent. *)
Fixpoint lookup_field (key : string) (fs : list (string * value)) : value :=
  match fs with
  | [] => undefined
  | (k, v) :: fs' => if String.eqb k key then v else lookup_field key fs'
  end.

Definition get (r : record) (key : string) : value :=
  lookup_field key (fields r).

(** [root[collection].length]; an absent collection has no element. *)
Definition collection_size (root : record) (c : string) : nat :=
  match get root c with
  | array vs => length vs
  | _ => 0%nat
  end.

(** The descriptor declared for a field name, if any. *)
Fixpoint declared (rfs : list referenceField) (key : string) : option refType :=
  match rfs with
  | [] => None
  | rf :: rfs' => if String.eqb (name rf) key then Some (type rf) else declared rfs' key
  end.

(** Modelled from the spec: the treatment of one index by [dereference] of
    [lib/gltf-property.js], which is not among the sources. Section 4.1: for
    a single-index field, "if the field's value is an integer, replace it
    with [collection[index]]; fails with [ReferenceError] if index is out of
    bounds"; a field that already holds an object reference is skipped. *)
Definition dereference_element (root : record) (c : string) (v : value) : completion value :=
  match v with
  | integer i =>
      if ((0 <=? i) && (i <? Z.of_nat (collection_size root c)))%Z
      then Normal (reference c (Z.to_nat i))
      else Throw ReferenceError
  | _ => Normal v
  end.

(** Modelled from the spec: a field declared over a collection. Section
    4.1: a single index as above; an array of indices: "map each element the
    same way; preserves order; empty/undefined arrays resolve to nothing
    (the field becomes absent, not an empty array)". *)
Definition dereference_index (root : record) (c : string) (v : value) : completion value :=
  match v with
  | array [] => Normal undefined
  | array vs =>
      bind (mapM (dereference_element root c) vs) (fun vs' => Normal (array vs'))
  | _ => dereference_element root c v
  end.

(** Modelled from the spec: the pass over one record (section 4.1). Every
    declared reference field is treated according to its kind: a field over
    a collection by [dereference_index]; an embedded sub-record or array of
    sub-records by recursion into it ([into]). Fields are visited in the
    order the record stores them; undeclared fields are left alone. The pass
    rewrites the record in place: the result is the record after the pass. *)
Section Pass.
Variable recurse : record -> completion record.
Variable root : record.
Variable rfs : list referenceField.

(** Modelled from the spec: recursion into an embedded sub-record. *)
Definition into (v : value) : completion value :=
  match v with
  | record_ r => bind (recurse r) (fun r' => Normal (record_ r'))
  | _ => Normal v
  end.

(** Modelled from the spec: one declared or undeclared field. *)
Definition field_pass (k : string) (v : value) : completion value :=
  match declared rfs k with
  | Some (collection c) => dereference_index root c v
  | Some sub =>
      match v with
      | record_ r => into v
      | array vs => bind (mapM into vs) (fun vs' => Normal (array vs'))
      | _ => Normal v
      end
  | None => Normal v
  end.

(** Modelled from the spec: all the fields of a record, in order. *)
Definition pass (fs : list (string * value)) : completion (list (string * value)) :=
  mapM (fun kv => bind (field_pass kv.1 kv.2) (fun v' => Normal (kv.1, v'))) fs.

End Pass.

(** Modelled from the spec: [dereference(root)] of [lib/gltf-property.js],
    on a record and, through its declared sub-records, on all it owns. *)
Fixpoint dereference (root : record) (r : record) {struct r} : completion record :=
  match r with
  | Rec rfs fs =>
      bind (pass (dereference root) root rfs fs) (fun fs' => Normal (Rec rfs fs'))
  end.

(** The elements of [root[collection]], and the object a resolved
    reference denotes. *)
Definition elements (root : record) (c : string) : list value :=
  match get root c with
  | array vs => vs
  | _ => []
  end.

Definition target (root : record) (v : value) : option value :=
  match v with
  | reference c i => nth_error (elements root c) i
  | _ => None
  end.

End Graph.
Import Graph.

(* ===================================================================== *)
(** ** Two records of the schema: [Mesh] and [Values] *)
(* ===================================================================== *)

Module Mesh.

(** The [mesh] typedef: [primitives] and the optional [weights]. *)
Record mesh : Type := {
  primitives : option (list record);
  weights : value;
}.

(** [Mesh.referenceFields]. *)
Definition Mesh_referenceFields : list referenceField :=
  [ {| name := "primitives"; type := sub |} ].

(** [new Mesh(mesh)]: [primitives.map(primitive => new Primitive(primitive))]
    with the default [primitives = []], and [weights] as given. [Primitive]
    is a leaf record here: a primitive of the document is given as the
    record its constructor builds. *)
Definition new_Mesh (m : mesh) : record :=
  Rec Mesh_referenceFields
      [ ("primitives", array (map record_ (default [] (primitives m))));
        ("weights", weights m) ].

End Mesh.

Module Values.




End Values.

(* ===================================================================== *)
(** ** The root record: [lib/gltf.js] *)
(* ===================================================================== *)

Module Root.

(** [SUPPORTED_VERSION = { major: 2, minor: 0 }]; the comparison of the
    minor part with [SUPPORTED_VERSION.minor] is [gt_zero]. *)
Definition SUPPORTED_VERSION_major : Z := 2.

(** The schema document as its typedef declares it. Optional members are
    options; the records of a collection are given as the leaf constructors
    store them (see [new_leaf]). *)
Record asset : Type := {
  version : option string;
  minVersion : option string;
  generator : option string;
}.

Record glTF : Type := {
  extensionsUsed : option (list string);
  extensionsRequired : option (list string);
  accessors : option (list record);
  animations : option (list record);
  asset_ : option asset;
  buffers : option (list record);
  bufferViews : option (list record);
  cameras : option (list record);
  images : option (list record);
  materials : option (list record);
  meshes : option (list Mesh.mesh);
  nodes : option (list record);
  samplers : option (list record);
  scene : option Z;
  scenes : option (list record);
  skins : option (list record);
  textures : option (list record);
}.

(** The default argument of the constructor. *)
Definition default_glTF : glTF := {|
  extensionsUsed := None; extensionsRequired := None;
  accessors := None; animations := None;
  asset_ := Some {| version := Some "2.0"; minVersion := None;
                    generator := Some "Revelry Runtime Generation" |};
  buffers := None; bufferViews := None; cameras := None; images := None;
  materials := None; meshes := None; nodes := None; samplers := None;
  scene := None; scenes := None; skins := None; textures := None;
|}.

Definition UnsupportedVersionError (v : string) : exn :=
  Error ("Unsupported glTF version " ++ v).

Definition UnsupportedExtensionError (ext : string) : exn :=
  Error ("Unsupported glTF extension " ++ ext).

Section Gate.
(** [Number]: the conversion of a string to a number, as the engine
    provides it. *)
Variable Number : string -> number.
(** The registry the module imports. *)
Variable extensions : list (string * Extensions.config).

(** The first half of [ensureSupport]:
    [[
    const [major, minor] = (minVersion || version).split('.').map(v => Number(v));
    if ((major !== SUPPORTED_VERSION.major) || (minVersion && (minor > SUPPORTED_VERSION.minor))) {
        throw new Error(`Unsupported glTF version ${minVersion || version}`);
    }
    ]]
    With neither string at hand, [.split] is called on [undefined]. *)
Definition major_minor (v : string) : number * option number :=
  let parts := map Number (split "." v) in
  (hd NaN parts, nth_error parts 1).

Definition version_gate (a : asset) : completion unit :=
  match or_else (minVersion a) (version a) with
  | None => Throw TypeError
  | Some v =>
      let '(major, minor) := major_minor v in
      if strict_ne major SUPPORTED_VERSION_major
         || (truthy (minVersion a) && gt_zero minor)
      then Throw (UnsupportedVersionError v)
      else Normal tt
  end.

(** The second half:
    [[
    for(const ext of extensionsRequired) {
        if(!extensions.has(ext)) {
            throw new Error(`Unsupported glTF extension ${ext}`);
        }
    }
    ]] *)
Fixpoint extension_gate (extensionsRequired : list string) : completion unit :=
  match extensionsRequired with
  | [] => Normal tt
  | ext :: rest =>
      if Extensions.Map_has ext extensions then extension_gate rest
      else Throw (UnsupportedExtensionError ext)
  end.

(** [ensureSupport({ asset: { version, minVersion } = {}, extensionsRequired = [] } = {})]. *)
Definition ensureSupport (g : glTF) : completion unit :=
  let a := default {| version := None; minVersion := None; generator := None |} (asset_ g) in
  bind (version_gate a) (fun _ =>
  extension_gate (default [] (extensionsRequired g))).

End Gate.

(** *** Construction *)

(** Modelled from the spec: the constructors of the leaf records ([Asset],
    [Buffer], [BufferView], [Accessor], ..., [Primitive]), which are not
    among the sources. Section 1: their "construction is straightforward
    field copying with no algorithmic content". A leaf record of the
    document is therefore given as the record its constructor builds, with
    the reference fields its class declares. *)
Definition new_leaf (r : record) : record := r.

Definition opt_text (s : option string) : value :=
  match s with Some s => text s | None => undefined end.

(** Modelled from the spec: [new Asset(asset)] of [lib/asset.js], which is
    not among the sources; field copying (section 1). *)
Definition new_Asset (a : asset) : record :=
  Rec [] [("version", opt_text (version a));
          ("minVersion", opt_text (minVersion a));
          ("generator", opt_text (generator a))].

(** Modelled from the spec: the size a [Buffer] is declared with (section 3:
    "declared at construction with size"); a buffer that declares no
    integer size has size 0. *)
Definition byteLength_of (r : record) : Z :=
  match get r "byteLength" with
  | integer n => n
  | _ => 0
  end.

(** Modelled from the spec: the byte region a [Buffer] owns, the private
    [#arrayBuffer] that [getArrayBuffer()] returns; [lib/buffer.js] is not
    among the sources. Section 3: "declared at construction with size and
    optional URI, byte region populated exactly once during load". *)
Definition new_ArrayBuffer (r : record) : list Byte.byte :=
  repeat Byte.x00 (Z.to_nat (byteLength_of r)).

(** [GLTF.referenceFields]. *)
Definition GLTF_referenceFields : list referenceField :=
  [ {| name := "asset";       type := sub |};
    {| name := "buffers";     type := sub |};
    {| name := "bufferViews"; type := sub |};
    {| name := "accessors";   type := sub |};
    {| name := "images";      type := sub |};
    {| name := "textures";    type := sub |};
    {| name := "materials";   type := sub |};
    {| name := "skins";       type := sub |};
    {| name := "meshes";      type := sub |};
    {| name := "nodes";       type := sub |};
    {| name := "scenes";      type := sub |};
    {| name := "animations";  type := sub |};
    {| name := "scene";       type := collection "scenes" |} ].

(** [xs.map(xObj => new X(xObj))] with the default [xs = []]. *)
Definition construct_all (xs : option (list record)) : list value :=
  map (fun x => record_ (new_leaf x)) (default [] xs).

(** [this.scenes[scene]]: the element itself when [scene] is an index of
    the array, [undefined] otherwise (also when [scene] is absent). *)
Definition element (c : string) (size : nat) (i : option Z) : value :=
  match i with
  | Some i =>
      if ((0 <=? i) && (i <? Z.of_nat size))%Z then reference c (Z.to_nat i)
      else undefined
  | None => undefined
  end.

(** A constructed root: its own properties, the non-enumerable [$uri], and
    the byte regions of its buffers, in the order of [buffers]. *)
Record GLTF : Type := {
  this : record;
  uri_ : string;
  arrayBuffers : list (list Byte.byte);
}.

Section Constructor.
Variable Number : string -> number.
Variable extensions : list (string * Extensions.config).

(** The properties the constructor assigns, in its order. The properties
    the base constructor stores ([extensions], [extras]) play no role in
    what follows and are left out. *)
Definition assigned (g : glTF) (a : asset) : list (string * value) :=
  let scenes_ := construct_all (scenes g) in
  [ ("asset", record_ (new_Asset a));
    ("extensionsUsed", array (map text (default [] (extensionsUsed g))));
    ("extensionsRequired", array (map text (default [] (extensionsRequired g))));
    ("buffers", array (construct_all (buffers g)));
    ("bufferViews", array (construct_all (bufferViews g)));
    ("accessors", array (construct_all (accessors g)));
    ("images", array (construct_all (images g)));
    ("samplers", array (construct_all (samplers g)));
    ("textures", array (construct_all (textures g)));
    ("materials", array (construct_all (materials g)));
    ("skins", array (construct_all (skins g)));
    ("cameras", array (construct_all (cameras g)));
    ("meshes", array (map (fun m => record_ (Mesh.new_Mesh m)) (default [] (meshes g))));
    ("nodes", array (construct_all (nodes g)));
    ("scenes", array scenes_);
    ("scene", element "scenes" (length scenes_) (scene g));
    ("animations", array (construct_all (animations g))) ].

(** [new GLTF(glTF, uri)]:
    [ensureSupport(glTF); super(glTF); ... ; this.dereference(this)]. *)
Definition GLTF_new (arg : option glTF) (uri : string) : completion GLTF :=
  let g := default default_glTF arg in
  bind (ensureSupport Number extensions g) (fun _ =>
  match asset_ g with
  | None => Throw TypeError
  | Some a =>
      let self := Rec GLTF_referenceFields (assigned g a) in
      bind (dereference self self) (fun self' =>
      Normal {| this := self'; uri_ := uri;
                arrayBuffers := map new_ArrayBuffer (default [] (buffers g)) |})
  end).

End Constructor.

End Root.

(* ===================================================================== *)
(** ** Load orchestration *)
(* ===================================================================== *)

Module Load.

(** A record of the graph, named by its path from the root:
    [[("meshes", 2)]] is [root.meshes[2]], and
    [[("meshes", 2); ("primitives", 0)]] its first primitive. *)
Abbreviation key := (list (string * nat)).

(** What the orchestration keeps: for each record the promise its
    [loadOnce] memoized, and the journal of the [load] bodies that were
    entered, each with the instant of the call. *)
Record state : Type := {
  memo : gmap key (promise unit);
  started : list (nat * key);
}.

Definition initial : state := {| memo := ∅; started := [] |}.

Definition log (now : nat) (k : key) (s : state) : state :=
  {| memo := memo s; started := started s ++ [(now, k)] |}.

Definition memoize (k : key) (p : promise unit) (s : state) : state :=
  {| memo := <[k := p]> (memo s); started := started s |}.

(** A call of an async function at an instant: the promise it returns and
    the state its body leaves. The body is run at the call, its parts after
    an [await] included, each at the instant it resumes. The bodies embedded
    here call [loadOnce] before their first [await], or, in the root, with
    nothing else running: memo entries are made in the order of the calls. *)
Definition async (A : Type) : Type := state -> nat -> state * promise A.

(** [await p] followed by the rest of the body. The rest runs when [p] is
    fulfilled; a rejection of [p] rejects the caller; a promise that never
    settles leaves the caller pending. *)
Definition await {A B} (p : promise A) (rest : A -> async B) : async B :=
  fun s now =>
    match p with
    | Pending => (s, Pending)
    | Rejected t e => (s, Rejected (Nat.max now t) e)
    | Fulfilled t v => rest v s (Nat.max now t)
    end.

(** [xs.map(x => f(x))] for async calls: all made at the same instant, in
    order, none awaited. *)
Fixpoint call_all {A} (calls : list (async A)) (s : state) (now : nat)
    : state * list (promise A) :=
  match calls with
  | [] => (s, [])
  | c :: calls' =>
      let '(s1, p) := c s now in
      let '(s2, ps) := call_all calls' s1 now in
      (s2, p :: ps)
  end.

(** How many times the [load] body of a record was entered. *)
Definition times_started (k : key) (s : state) : nat :=
  length (filter (fun e => e.2 = k) (started s)).

(** The journal and the memo agree on a record: it has a memoized promise
    exactly when its [load] body was entered, and then once. *)
Definition entered_once (k : key) (s : state) : Prop :=
  times_started k s = match memo s !! k with Some _ => 1%nat | None => 0%nat end.

Definition consistent (s : state) : Prop :=
  forall k, entered_once k s.

Section Orchestration.
(** What becomes of the own [load] of a leaf record (a fetch, a decode)
    when it is entered at a given instant. *)
Variable fate : key -> nat -> promise unit.
(** What becomes of [super.load(abortCtl)], the [load] of the base class
    ([lib/gltf-property.js], not among the sources; section 4.3 calls it a
    no-op extension point). Nothing is assumed of it. *)
Variable GLTFProperty_load : nat -> promise unit.
Variable extensions : list (string * Extensions.config).

(** The [load] of a leaf record: entered, it takes its course. *)
Definition leaf_load (k : key) : async unit :=
  fun s now => (log now k s, fate k now).

(** Modelled from the spec: [loadOnce] of [lib/gltf-property.js].
    Section 4.3: "a Record memoizes the in-flight/completed load outcome; a
    second caller receives the same outcome without re-triggering any fetch
    or decode". *)
Definition loadOnce (load : key -> async unit) (self : key) : async unit :=
  fun s now =>
    match memo s !! self with
    | Some p => (s, p)
    | None =>
        let '(s', p) := load self s now in
        (memoize self p s', p)
    end.

(** [Mesh.load]:
    [return await Promise.all(this.primitives.map(primitive => primitive.load()))]. *)
Definition primitive_keys (self : key) (n : nat) : list key :=
  map (fun j => self ++ [("primitives", j)]) (seq 0 n).

Definition Mesh_load (n : nat) (self : key) : async (list unit) :=
  fun s now =>
    let '(s1, ps) := call_all (map leaf_load (primitive_keys self n)) (log now self s) now in
    await (Promise_all now ps) (fun vs s' t => (s', Fulfilled t vs)) s1 now.

(** [Values.load]:
    [[
    await bufferView.buffer.loadOnce(signal);
    this.#arrayBuffer = bufferView.buffer.getArrayBuffer();
    await super.load(signal);
    ]]
    [buffer] is the record [this.bufferView.buffer]; the private
    [#arrayBuffer] is not observed by anything here and is left out. *)
Definition Values_load (buffer : key) (self : key) : async unit :=
  fun s now =>
    let '(s1, p) := loadOnce leaf_load buffer (log now self s) now in
    await p (fun _ s' t =>
      await (GLTFProperty_load t) (fun _ s'' t' => (s'', Fulfilled t' tt)) s' t) s1 now.

(** The [load] of the records of the root's collections: a mesh loads its
    primitives, any other record is a leaf. [primitives_of g i] is
    [g.meshes[i].primitives.length]. *)
Definition primitives_of (g : Root.GLTF) (i : nat) : nat :=
  match nth i (match get (Root.this g) "meshes" with array vs => vs | _ => [] end) undefined with
  | record_ m => collection_size m "primitives"
  | _ => 0%nat
  end.

(** The index of a record of [root.meshes], from its key. *)
Definition mesh_index (k : key) : option nat :=
  match k with
  | [(c, i)] => if String.eqb c "meshes" then Some i else None
  | _ => None
  end.

(** A promise taken for its settling only, not for its value. *)
Definition forget {A} (p : promise A) : promise unit :=
  match p with
  | Pending => Pending
  | Fulfilled t _ => Fulfilled t tt
  | Rejected t e => Rejected t e
  end.

(** [item.load(abortCtl)] for a record of the root's collections. *)
Definition item_load (g : Root.GLTF) (k : key) : async unit :=
  match mesh_index k with
  | Some i =>
      fun s now =>
        let '(s', p) := Mesh_load (primitives_of g i) k s now in (s', forget p)
  | None => leaf_load k
  end.

(** The promise [item_load] returns: it depends on the instant of the
    call, not on what was loaded before. *)
Definition item_fate (g : Root.GLTF) (k : key) (now : nat) : promise unit :=
  match mesh_index k with
  | Some i =>
      forget (Promise_all now (map (fun pk => fate pk now)
                                   (primitive_keys k (primitives_of g i))))
  | None => fate k now
  end.

(** The promise a call of [loadOnce] on a record of the root's collections
    returns at [now] in state [s]: the memoized one, or that of a fresh
    [load]. *)
Definition child (g : Root.GLTF) (s : state) (now : nat) (k : key) : promise unit :=
  default (item_fate g k now) (memo s !! k).

(** From [s] to [s'] by calls of [loadOnce] at [now]: a memo entry is kept,
    or it is new, and then the [load] body was entered at [now]. *)
Definition advanced (g : Root.GLTF) (now : nat) (s s' : state) : Prop :=
  (forall k, memo s' !! k = memo s !! k
             \/ (memo s !! k = None /\ memo s' !! k = Some (item_fate g k now)
                 /\ In (now, k) (started s')))
  /\ (forall e, In e (started s) -> In e (started s')).

(** Calls of [loadOnce] one after the other, each at its own instant. *)
Fixpoint loadOnce_each (load : key -> async unit) (calls : list (key * nat))
    (s : state) : state * list (promise unit) :=
  match calls with
  | [] => (s, [])
  | (k, now) :: rest =>
      let '(s1, p) := loadOnce load k s now in
      let '(s2, ps) := loadOnce_each load rest s1 in
      (s2, p :: ps)
  end.

(** The list [collections] of [GLTF.load]. *)
Definition collections : list string :=
  [ "buffers"; "bufferViews"; "accessors"; "images"; "textures";
    "materials"; "skins"; "meshes"; "nodes"; "scenes"; "animations" ].

(** [this[collection]], as keys. *)
Definition items (g : Root.GLTF) (c : string) : list key :=
  map (fun i => [(c, i)]) (seq 0 (collection_size (Root.this g) c)).

(** [ext.load?.(abortCtl)] for each value of the registry. *)
Definition extension_loads (now : nat) : list (promise unit) :=
  map (fun e => match Extensions.load e.2 with
                | Some hook => hook now
                | None => Fulfilled now tt
                end) extensions.

(** [Promise.all(this[collection].map(item => item.loadOnce(abortCtl)))]. *)
Definition load_collection (g : Root.GLTF) (c : string) : async (list unit) :=
  fun s now =>
    let '(s', ps) := call_all (map (loadOnce (item_load g)) (items g c)) s now in
    (s', Promise_all now ps).

(** The instance method [load]:
    [[
    await Promise.all([...extensions.values()].map(ext => ext.load?.(abortCtl)));
    await Promise.all(collections.map(collection =>
        Promise.all(this[collection].map(item => item.loadOnce(abortCtl)))));
    await super.load(abortCtl);
    return this;
    ]] *)
Definition GLTF_load (g : Root.GLTF) : async Root.GLTF :=
  fun s now =>
    await (Promise_all now (extension_loads now)) (fun _ s1 t1 =>
      let '(s2, ps) := call_all (map (load_collection g) collections) s1 t1 in
      await (Promise_all t1 ps) (fun _ s3 t2 =>
        await (GLTFProperty_load t2) (fun _ s4 t3 => (s4, Fulfilled t3 g)) s3 t2) s2 t1) s now.

End Orchestration.

End Load.

(* ===================================================================== *)
(** ** The binary container: the static [load] of [lib/gltf.js] *)
(* ===================================================================== *)

Module Container.

Definition MAGIC_NUMBER_BINARY_FORMAT : Z := 0x46546C67.

Definition byte_to_Z (b : Byte.byte) : Z := Z.of_N (Byte.to_N b).

Definition byte_of_Z (z : Z) : Byte.byte :=
  match Byte.of_N (Z.to_N (z mod 256)) with
  | Some b => b
  | None => Byte.x00
  end.

(** Element [i] of a [Uint32Array] laid over a buffer from offset 0, on a
    little-endian host. *)
Definition u32_at (buffer : list Byte.byte) (i : nat) : Z :=
  let b k := byte_to_Z (nth (4 * i + k) buffer Byte.x00) in
  b 0%nat + 2 ^ 8 * b 1%nat + 2 ^ 16 * b 2%nat + 2 ^ 24 * b 3%nat.

(** [new Uint32Array(buffer, 0, 4)]: a [RangeError] when the buffer has
    fewer than 16 bytes. *)
Definition header (buffer : list Byte.byte) : completion (list Z) :=
  if (length buffer <? 16)%nat then Throw RangeError
  else Normal (map (u32_at buffer) [0; 1; 2; 3]%nat).

(** [new DataView(buffer, offset, length)] and
    [new Uint8Array(buffer, offset, length)] for numbers [offset] and
    [length], as the bytes they show: a [RangeError] when either is negative
    or the view does not fit the buffer. *)
Definition view (buffer : list Byte.byte) (offset len : Z) : completion (list Byte.byte) :=
  if ((0 <=? offset) && (0 <=? len) && (offset + len <=? Z.of_nat (length buffer)))%Z
  then Normal (firstn (Z.to_nat len) (skipn (Z.to_nat offset) buffer))
  else Throw RangeError.

(** [new Uint8Array(target).set(source)]: the source overwrites the start
    of the target; a [RangeError] when it is longer than the target. *)
Definition set_bytes (target source : list Byte.byte) : completion (list Byte.byte) :=
  if (length source <=? length target)%nat
  then Normal (source ++ skipn (length source) target)
  else Throw RangeError.

Section StaticLoad.
(** [ToIndex]: the conversion to a length of a value of a parsed document
    that is neither [undefined] nor an integer (a string, [null], a
    fraction, ...), as the engine provides it; [None] is its [RangeError]. *)
Variable ToIndex : value -> option Z.
(** [JSON.parse(new TextDecoder().decode(bytes))], and [response.json()] on
    the bytes of a response: the document, or a [SyntaxError]. *)
Variable JSON_parse : list Byte.byte -> completion Root.glTF.
Variable Number : string -> number.
Variable extensions : list (string * Extensions.config).

(** [new Uint8Array(buffer, offset, byteLength)] for the [byteLength] a
    buffer of the document holds: without one the view runs to the end of
    the buffer. *)
Definition payload (buffer : list Byte.byte) (offset : Z) (byteLength : value)
    : completion (list Byte.byte) :=
  match byteLength with
  | undefined =>
      if ((0 <=? offset) && (offset <=? Z.of_nat (length buffer)))%Z
      then Normal (skipn (Z.to_nat offset) buffer)
      else Throw RangeError
  | integer n => view buffer offset n
  | v =>
      match ToIndex v with
      | Some n => view buffer offset n
      | None => Throw RangeError
      end
  end.

(** The body of the static [load] between the two awaits on the response
    and the final [gltf.load(abortCtl)]:
    [[
    const header = new Uint32Array(buffer, 0, 4);
    if (header[0] === MAGIC_NUMBER_BINARY_FORMAT) {
        const jsonLength = header[3];
        const json = JSON.parse(decoder.decode(new DataView(buffer, 5 * 4, jsonLength)));
        gltf = new this(json, uri);
        new Uint8Array(gltf.buffers[0].getArrayBuffer())
          .set(new Uint8Array(buffer, 7 * 4 + jsonLength, gltf.buffers[0].byteLength));
    } else {
        gltf = new this(await response.json(), uri);
    }
    ]] *)
Definition construct (uri : string) (buffer : list Byte.byte) : completion Root.GLTF :=
  bind (header buffer) (fun h =>
  if (nth 0 h 0 =? MAGIC_NUMBER_BINARY_FORMAT)%Z then
    let jsonLength := nth 3 h 0 in
    bind (view buffer (5 * 4) jsonLength) (fun chunk =>
    bind (JSON_parse chunk) (fun json =>
    bind (Root.GLTF_new Number extensions (Some json) uri) (fun gltf =>
    match get (Root.this gltf) "buffers", Root.arrayBuffers gltf with
    | array (record_ buffer0 :: _), region :: regions =>
        bind (payload buffer (7 * 4 + jsonLength) (get buffer0 "byteLength")) (fun source =>
        bind (set_bytes region source) (fun region' =>
        Normal {| Root.this := Root.this gltf; Root.uri_ := Root.uri_ gltf;
                  Root.arrayBuffers := region' :: regions |}))
    | _, _ => Throw TypeError
    end)))
  else
    bind (JSON_parse buffer) (fun json =>
    Root.GLTF_new Number extensions (Some json) uri)).

(** [static async load(uri, abortCtl)]: [fetch uri] is what becomes of
    [fetch(uri, abortCtl)] followed by [arrayBuffer()]; a throw of the body
    rejects the promise; otherwise the call ends in [gltf.load(abortCtl)]. *)
Variable fetch : string -> nat -> promise (list Byte.byte).
Variable fate : Load.key -> nat -> promise unit.
Variable GLTFProperty_load : nat -> promise unit.

Definition load (uri : string) : Load.async Root.GLTF :=
  fun s now =>
    Load.await (fetch uri now) (fun buffer s' t =>
      match construct uri buffer with
      | Throw e => (s', Rejected t e)
      | Normal gltf => Load.GLTF_load fate GLTFProperty_load extensions gltf s' t
      end) s now.

End StaticLoad.

(** Modelled from the spec: a [u32] of the container, little-endian. *)
Definition u32 (n : Z) : list Byte.byte :=
  [ byte_of_Z n; byte_of_Z (n / 2 ^ 8); byte_of_Z (n / 2 ^ 16); byte_of_Z (n / 2 ^ 24) ].

(** Modelled from the spec: the chunk types. Section 6: "chunkType
    0x4E4F534A = JSON, 0x004E4942 = BIN". *)
Definition CHUNK_JSON : Z := 0x4E4F534A.
Definition CHUNK_BIN : Z := 0x004E4942.

(** Modelled from the spec: one chunk. Section 6: "{u32 chunkLength, u32
    chunkType, bytes[chunkLength]}". *)
Definition chunk (type : Z) (bytes : list Byte.byte) : list Byte.byte :=
  u32 (Z.of_nat (length bytes)) ++ u32 type ++ bytes.

(** Modelled from the spec: the writer of the container, which the
    repository does not have. Section 6: "u32 magic=0x46546C67, u32 version,
    u32 totalLength", then the JSON chunk and the BIN chunk. *)
Definition encode (version : Z) (json bin : list Byte.byte) : list Byte.byte :=
  let chunks := chunk CHUNK_JSON json ++ chunk CHUNK_BIN bin in
  u32 MAGIC_NUMBER_BINARY_FORMAT ++ u32 version
    ++ u32 (12 + Z.of_nat (length chunks)) ++ chunks.

End Container.

(* ===================================================================== *)
(** ** The decompression worker: [KHR_draco_mesh_compression.js] *)
(* ===================================================================== *)

Module Worker.

(** [decoder.GetEncodedGeometryType(decoderBuffer)]; an unexpected type is
    kept as the text the error message shows. *)
Inductive geometryType : Type :=
| TRIANGULAR_MESH
| POINT_CLOUD
| unexpected (shown : string).

Section Protocol.
(** The typed views a request carries and a reply returns: what they hold
    is the business of the decoder. *)
Variables attributes indices : Type.
(** A decoded geometry, as the engine holds it. *)
Variable geometry : Type.

(** What a call of [DecodeBufferToMesh] / [DecodeBufferToPointCloud]
    leaves: [decodingStatus.ok()], [decodingStatus.error_msg()],
    [dracoGeometry.ptr] and the geometry. *)
Record decoding : Type := {
  ok : bool;
  error_msg : string;
  ptr : Z;
  dracoGeometry : geometry;
}.

(** The decoder engine, an opaque capability: the module that
    [DracoDecoderModule] resolves to. [GetAttributes] stands for the loop
    that fills each attribute's typed array from the geometry (any step of
    it may throw), [GetFaces] for the loop that fills [indices]. *)
Record DracoModule : Type := {
  GetEncodedGeometryType : list Byte.byte -> geometryType;
  DecodeBufferToMesh : list Byte.byte -> decoding;
  DecodeBufferToPointCloud : list Byte.byte -> decoding;
  GetAttributes : geometry -> attributes -> completion attributes;
  GetFaces : geometry -> indices -> indices;
}.

(** [message.data] of a request. *)
Record request : Type := {
  type_ : string;
  taskId : Z;
  arrayBuffer : list Byte.byte;
  byteOffset : Z;
  byteLength : Z;
  attributes_ : attributes;
  indices_ : indices;
}.

(** What a worker posts: [{ taskId: 0 }], [{ attributes, indices, taskId }]
    or [{ error, taskId }]. *)
Inductive body : Type :=
| nothing
| decoded (a : attributes) (i : indices)
| failed (error : exn).

Record reply : Type := {
  reply_taskId : Z;
  reply_body : body;
}.

(** The [try] block of the handler, up to its [postMessage]. With the
    decoder not yet loaded, [draco] is [undefined] and [new draco.Decoder()]
    is a [TypeError]. *)
Definition decode (draco : option DracoModule) (m : request) : completion (attributes * indices) :=
  match draco with
  | None => Throw TypeError
  | Some d =>
      bind (Container.view (arrayBuffer m) (byteOffset m) (byteLength m)) (fun bytes =>
      let geometryType := GetEncodedGeometryType d bytes in
      bind (match geometryType with
            | TRIANGULAR_MESH => Normal (DecodeBufferToMesh d bytes)
            | POINT_CLOUD => Normal (DecodeBufferToPointCloud d bytes)
            | unexpected shown => Throw (Error ("Unexpected geometry type. " ++ shown))
            end) (fun r =>
      if negb (ok r) || (ptr r =? 0)%Z
      then Throw (Error ("Decoding failed: " ++ error_msg r))
      else
        bind (GetAttributes d (dracoGeometry r) (attributes_ m)) (fun a =>
        let i := match geometryType with
                 | TRIANGULAR_MESH => GetFaces d (dracoGeometry r) (indices_ m)
                 | _ => indices_ m
                 end in
        Normal (a, i))))
  end.

(** [self.onmessage]: the messages the handler posts.
    [[
    const { type, taskId } = message.data;
    if(type === 'decode') {
        try { ...; self.postMessage({ attributes, indices, taskId }); }
        catch(error) { self.postMessage({ error, taskId }); }
    }
    ]] *)
Definition onmessage (draco : option DracoModule) (m : request) : list reply :=
  if String.eqb (type_ m) "decode" then
    match decode draco m with
    | Normal (a, i) => [ {| reply_taskId := taskId m; reply_body := decoded a i |} ]
    | Throw e => [ {| reply_taskId := taskId m; reply_body := failed e |} ]
    end
  else [].

(** The callback of [importUMD(DRACO_DECODER_URL).then(...)]:
    [draco = await ...; self.postMessage({ taskId: 0 })]. Here as in the
    handler, [postMessage] itself is taken not to throw. *)
Definition onModuleLoaded (d : DracoModule) : option DracoModule * list reply :=
  (Some d, [ {| reply_taskId := 0; reply_body := nothing |} ]).

(** The request [KHRDracoMeshCompressionPrimitive.load] hands to
    [workerHelper.postMessage] after [await workerHelper.init()]; the pool
    supplies the [taskId]. *)
Record task : Type := {
  task_arrayBuffer : list Byte.byte;
  task_byteOffset : Z;
  task_byteLength : Z;
  task_attributes : attributes;
  task_indices : indices;
}.

Definition decode_request (id : Z) (t : task) : request :=
  {| type_ := "decode"; taskId := id;
     arrayBuffer := task_arrayBuffer t; byteOffset := task_byteOffset t;
     byteLength := task_byteLength t;
     attributes_ := task_attributes t; indices_ := task_indices t |}.

(** *** The pool *)

(** One worker with its two message queues, oldest message first. *)
Record worker : Type := {
  draco : option DracoModule;
  inbox : list request;
  outbox : list reply;
}.

(** Modelled from the spec: the pool of [lib/utils/worker-helper.js], which
    is not among the sources. Section 4.6: a fixed number of workers; "a
    pending-task map correlates replies to the awaiting caller by taskId
    (ids must be unique for the lifetime of the pool, monotonically
    increasing is sufficient)"; the decoder of a worker is "signaled ready
    via a sentinel message (taskId: 0) before any real task is dispatched to
    that worker; the pool's init() must await readiness of at least one
    worker before accepting tasks". *)
Record pool : Type := {
  workers : list worker;
  ready : list nat;
  accepting : bool;
  nextTaskId : Z;
  pending : list Z;
  settled : list (Z * body);
}.

(** Modelled from the spec: a pool of [count] workers just created; no
    decoder is loaded, [init()] has not resolved, task ids start at 1. *)
Definition start (count : nat) : pool :=
  {| workers := replicate count {| draco := None; inbox := []; outbox := [] |};
     ready := []; accepting := false; nextTaskId := 1; pending := [];
     settled := [] |}.

Inductive action : Type :=
| ModuleLoaded (w : nat) (d : DracoModule)
| WorkerHandles (w : nat)
| PoolReceives (w : nat)
| InitResolves
| PostMessage (w : nat) (t : task).

Definition with_workers (ws : list worker) (p : pool) : pool :=
  {| workers := ws; ready := ready p; accepting := accepting p;
     nextTaskId := nextTaskId p; pending := pending p; settled := settled p |}.

(** Modelled from the spec: one step of the pool and its workers; [None]
    when the step cannot be taken in that state. The two steps of a worker
    are those of the source ([onModuleLoaded], [onmessage]); the steps of
    the pool follow section 4.6: a message with [taskId] 0 marks its worker
    ready, any other settles the pending task of that id; [init()] resolves
    once a worker is ready; a task is accepted after [init()] and goes to a
    ready worker under the next task id. *)
Definition step (p : pool) (a : action) : option pool :=
  match a with
  | ModuleLoaded w d =>
      match workers p !! w with
      | Some wk =>
          match draco wk with
          | None =>
              let '(dr, posts) := onModuleLoaded d in
              Some (with_workers
                      (<[w := {| draco := dr; inbox := inbox wk;
                                 outbox := outbox wk ++ posts |}]> (workers p)) p)
          | Some _ => None
          end
      | None => None
      end
  | WorkerHandles w =>
      match workers p !! w with
      | Some wk =>
          match inbox wk with
          | m :: rest =>
              Some (with_workers
                      (<[w := {| draco := draco wk; inbox := rest;
                                 outbox := outbox wk ++ onmessage (draco wk) m |}]>
                         (workers p)) p)
          | [] => None
          end
      | None => None
      end
  | PoolReceives w =>
      match workers p !! w with
      | Some wk =>
          match outbox wk with
          | r :: rest =>
              let ws := <[w := {| draco := draco wk; inbox := inbox wk;
                                  outbox := rest |}]> (workers p) in
              if (reply_taskId r =? 0)%Z
              then Some {| workers := ws; ready := w :: ready p;
                           accepting := accepting p; nextTaskId := nextTaskId p;
                           pending := pending p; settled := settled p |}
              else Some {| workers := ws; ready := ready p;
                           accepting := accepting p; nextTaskId := nextTaskId p;
                           pending := filter (fun i => i <> reply_taskId r) (pending p);
                           settled := settled p ++ [(reply_taskId r, reply_body r)] |}
          | [] => None
          end
      | None => None
      end
  | InitResolves =>
      match ready p with
      | _ :: _ =>
          Some {| workers := workers p; ready := ready p; accepting := true;
                  nextTaskId := nextTaskId p; pending := pending p;
                  settled := settled p |}
      | [] => None
      end
  | PostMessage w t =>
      if accepting p && bool_decide (w ∈ ready p) then
        match workers p !! w with
        | Some wk =>
            let id := nextTaskId p in
            Some {| workers := <[w := {| draco := draco wk;
                                         inbox := inbox wk ++ [decode_request id t];
                                         outbox := outbox wk |}]> (workers p);
                    ready := ready p; accepting := accepting p;
                    nextTaskId := id + 1; pending := pending p ++ [id];
                    settled := settled p |}
        | None => None
        end
      else None
  end.

(** Modelled from the spec: a run of the pool, the steps taken one after
    the other, [None] as soon as one of them cannot be taken. *)
Fixpoint run (p : pool) (actions : list action) : option pool :=
  match actions with
  | [] => Some p
  | a :: rest =>
      match step p a with
      | Some p' => run p' rest
      | None => None
      end
  end.

(** What holds of every state the pool reaches. A worker the pool counts
    as ready has its decoder loaded, and so has a worker with a sentinel on
    its way to the pool; a task in a worker's inbox was dispatched to a
    ready worker, is a ['decode'] request and has a fresh non-zero
    [taskId], as has every reply to a task; the pool accepts tasks only
    with a ready worker at hand, and before that no task was dispatched. *)
Definition sound (p : pool) : Prop :=
  (forall w wk, workers p !! w = Some wk ->
      (w ∈ ready p -> draco wk <> None)
      /\ (forall r, In r (outbox wk) -> reply_taskId r = 0 -> draco wk <> None)
      /\ (forall m, In m (inbox wk) ->
            w ∈ ready p /\ type_ m = "decode" /\ 1 <= taskId m < nextTaskId p)
      /\ (forall r, In r (outbox wk) -> reply_taskId r <> 0 ->
            1 <= reply_taskId r < nextTaskId p))
  /\ (accepting p = true -> ready p <> [])
  /\ (accepting p = false ->
      forall w wk, workers p !! w = Some wk -> inbox wk = [])
  /\ 1 <= nextTaskId p.

End Protocol.

Arguments decoding : clear implicits.
Arguments ok {geometry} _.
Arguments error_msg {geometry} _.
Arguments ptr {geometry} _.
Arguments dracoGeometry {geometry} _.
Arguments GetEncodedGeometryType {attributes indices geometry} _ _.
Arguments DecodeBufferToMesh {attributes indices geometry} _ _.
Arguments DecodeBufferToPointCloud {attributes indices geometry} _ _.
Arguments GetAttributes {attributes indices geometry} _ _ _.
Arguments GetFaces {attributes indices geometry} _ _ _.
Arguments type_ {attributes indices} _.
Arguments taskId {attributes indices} _.
Arguments arrayBuffer {attributes indices} _.
Arguments byteOffset {attributes indices} _.
Arguments byteLength {attributes indices} _.
Arguments attributes_ {attributes indices} _.
Arguments indices_ {attributes indices} _.
Arguments nothing {attributes indices}.
Arguments decoded {attributes indices} _ _.
Arguments failed {attributes indices} _.
Arguments reply_taskId {attributes indices} _.
Arguments reply_body {attributes indices} _.
Arguments decode {attributes indices geometry} _ _.
Arguments onmessage {attributes indices geometry} _ _.
Arguments onModuleLoaded {attributes indices geometry} _.
Arguments decode_request {attributes indices} _ _.
Arguments draco {attributes indices geometry} _.
Arguments inbox {attributes indices geometry} _.
Arguments outbox {attributes indices geometry} _.
Arguments workers {attributes indices geometry} _.
Arguments ready {attributes indices geometry} _.
Arguments accepting {attributes indices geometry} _.
Arguments nextTaskId {attributes indices geometry} _.
Arguments pending {attributes indices geometry} _.
Arguments settled {attributes indices geometry} _.
Arguments ModuleLoaded {attributes indices geometry} _ _.
Arguments WorkerHandles {attributes indices geometry} _.
Arguments PoolReceives {attributes indices geometry} _.
Arguments InitResolves {attributes indices geometry}.
Arguments PostMessage {attributes indices geometry} _ _.
Arguments step {attributes indices geometry} _ _.
Arguments run {attributes indices geometry} _ _.
Arguments sound {attributes indices geometry} _.

End Worker.

(* ===================================================================== *)
(** ** Documents used in the statements *)
(* ===================================================================== *)

Module Documents.
Import Root.

(** The document [g] with its [scene] member replaced. *)
Definition with_scene (g : glTF) (s : option Z) : glTF := {|
  extensionsUsed := extensionsUsed g; extensionsRequired := extensionsRequired g;
  accessors := accessors g; animations := animations g; asset_ := asset_ g;
  buffers := buffers g; bufferViews := bufferViews g; cameras := cameras g;
  images := images g; materials := materials g; meshes := meshes g;
  nodes := nodes g; samplers := samplers g; scene := s; scenes := scenes g;
  skins := skins g; textures := textures g;
|}.

(** [{ asset: { version: v } }]. *)
Definition versioned (v : string) : glTF := {|
  extensionsUsed := None; extensionsRequired := None;
  accessors := None; animations := None;
  asset_ := Some {| version := Some v; minVersion := None; generator := None |};
  buffers := None; bufferViews := None; cameras := None; images := None;
  materials := None; meshes := None; nodes := None; samplers := None;
  scene := None; scenes := None; skins := None; textures := None;
|}.

(** [{ asset: { version: "2.0" }, extensionsRequired: names }]. *)
Definition requiring (names : list string) : glTF := {|
  extensionsUsed := None; extensionsRequired := Some names;
  accessors := None; animations := None;
  asset_ := Some {| version := Some "2.0"; minVersion := None; generator := None |};
  buffers := None; bufferViews := None; cameras := None; images := None;
  materials := None; meshes := None; nodes := None; samplers := None;
  scene := None; scenes := None; skins := None; textures := None;
|}.

(** [{ asset: { version: v, minVersion: mv } }]. *)
Definition aged (v mv : option string) : glTF := {|
  extensionsUsed := None; extensionsRequired := None;
  accessors := None; animations := None;
  asset_ := Some {| version := v; minVersion := mv; generator := None |};
  buffers := None; bufferViews := None; cameras := None; images := None;
  materials := None; meshes := None; nodes := None; samplers := None;
  scene := None; scenes := None; skins := None; textures := None;
|}.

(** A record without reference fields or properties. *)
Definition plain : record := Rec [] [].

(** [{ asset: { version: "2.0" }, scenes: scenes, scene: scene }]. *)
Definition staged (scenes_ : option (list record)) (scene_ : option Z) : glTF := {|
  extensionsUsed := None; extensionsRequired := None;
  accessors := None; animations := None;
  asset_ := Some {| version := Some "2.0"; minVersion := None; generator := None |};
  buffers := None; bufferViews := None; cameras := None; images := None;
  materials := None; meshes := None; nodes := None; samplers := None;
  scene := scene_; scenes := scenes_; skins := None; textures := None;
|}.

(** [{ asset: { version: "2.0" }, buffers: [{}], cameras: [{}] }]. *)
Definition filmed : glTF := {|
  extensionsUsed := None; extensionsRequired := None;
  accessors := None; animations := None;
  asset_ := Some {| version := Some "2.0"; minVersion := None; generator := None |};
  buffers := Some [plain]; bufferViews := None; cameras := Some [plain];
  images := None; materials := None; meshes := None; nodes := None;
  samplers := None; scene := None; scenes := None; skins := None;
  textures := None;
|}.

(** The root constructed from a document, with the decimal [Number] and an
    empty registry. *)
Definition constructed (g : glTF) : GLTF :=
  match GLTF_new Number_decimal [] (Some g) "model.gltf" with
  | Normal G => G
  | Throw _ => {| this := plain; uri_ := ""; arrayBuffers := [] |}
  end.

(** [{ asset: { version: "2.0" }, buffers: [{ byteLength: n }] }], as a
    document and as JSON text. *)
Definition buffered (n : Z) : glTF := {|
  extensionsUsed := None; extensionsRequired := None;
  accessors := None; animations := None;
  asset_ := Some {| version := Some "2.0"; minVersion := None; generator := None |};
  buffers := Some [Rec [] [("byteLength", integer n)]];
  bufferViews := None; cameras := None;
  images := None; materials := None; meshes := None; nodes := None;
  samplers := None; scene := None; scenes := None; skins := None;
  textures := None;
|}.

Definition quote : string := String "034"%char EmptyString.

Definition text_versioned : list Byte.byte :=
  list_byte_of_string
    ("{" ++ quote ++ "asset" ++ quote ++ ":{" ++ quote ++ "version" ++ quote ++ ":"
         ++ quote ++ "2.0" ++ quote ++ "}}").

Definition text_buffered : list Byte.byte :=
  list_byte_of_string
    ("{" ++ quote ++ "asset" ++ quote ++ ":{" ++ quote ++ "version" ++ quote ++ ":"
         ++ quote ++ "2.0" ++ quote ++ "}," ++ quote ++ "buffers" ++ quote ++ ":[{"
         ++ quote ++ "byteLength" ++ quote ++ ":3}]}").

(** [JSON.parse] on the two texts above; any other input is outside this
    sample and is answered with a [SyntaxError]. *)
Definition same_bytes (a b : list Byte.byte) : bool :=
  String.eqb (string_of_list_byte a) (string_of_list_byte b).

(** A conversion to a length that takes every value to 0, as [ToIndex]
    takes [null], [false] and the strings that are no numbers. *)
Definition ToIndex_sample (v : value) : option Z := Some 0.

Definition JSON_parse_sample (bytes : list Byte.byte) : completion glTF :=
  if same_bytes bytes text_versioned then Normal (versioned "2.0")
  else if same_bytes bytes text_buffered then Normal (buffered 3)
  else Throw SyntaxError.

(** A decoder that takes every buffer for a triangular mesh and decodes
    it, with nothing to say about attributes and indices; a task for it; and
    a run of a pool of four workers: the first worker loads its decoder,
    the pool receives its sentinel, [init()] resolves, a task is posted to
    that worker, the worker handles it, the pool receives the reply. *)
Definition toy_draco : Worker.DracoModule unit unit unit := {|
  Worker.GetEncodedGeometryType := fun _ => Worker.TRIANGULAR_MESH;
  Worker.DecodeBufferToMesh := fun _ =>
    {| Worker.ok := true; Worker.error_msg := ""; Worker.ptr := 1;
       Worker.dracoGeometry := tt |};
  Worker.DecodeBufferToPointCloud := fun _ =>
    {| Worker.ok := false; Worker.error_msg := "not a point cloud"; Worker.ptr := 0;
       Worker.dracoGeometry := tt |};
  Worker.GetAttributes := fun _ a => Normal a;
  Worker.GetFaces := fun _ i => i;
|}.

Definition toy_task : Worker.task unit unit := {|
  Worker.task_arrayBuffer := [Byte.x01; Byte.x02];
  Worker.task_byteOffset := 0; Worker.task_byteLength := 2;
  Worker.task_attributes := tt; Worker.task_indices := tt;
|}.

Definition toy_run : list (Worker.action unit unit unit) :=
  [ Worker.ModuleLoaded 0 toy_draco; Worker.PoolReceives 0; Worker.InitResolves;
    Worker.PostMessage 0 toy_task; Worker.WorkerHandles 0; Worker.PoolReceives 0 ].


(** [major === 2] and [minor > 0], read on the numbers themselves. *)
Definition is_two (x : number) : Prop :=
  exists q, x = Finite q /\ (q == 2)%Q.

Definition is_positive (x : option number) : Prop :=
  (exists q, x = Some (Finite q) /\ (0 < q)%Q) \/ x = Some (Infinity false).

End Documents.

(* ===================================================================== *)
(** ** Notions used in the further statements *)
(* ===================================================================== *)

Module Further.
Import Root.

Section Schema.
Context {factory : Type}.

(** [schema[property]] read on the entries of a schema: the last entry
    under the key, if any. The entries of an object have distinct keys; on
    such a list this is the one entry under the key. *)
Fixpoint entry_for (property : string) (schema : list (string * factory))
    : option factory :=
  match schema with
  | [] => None
  | (k, f) :: rest =>
      match entry_for property rest with
      | Some g => Some g
      | None => if String.eqb k property then Some f else None
      end
  end.

(** A registry after a sequence of calls of [add] on a new one, each call
    given by its name and the entries of its schema. *)
Definition filled (calls : list (string * list (string * factory)))
    : Extensions.GLTFExtensionsSet factory :=
  fold_left (fun t call => Extensions.add call.1 call.2 t) calls Extensions.empty.

End Schema.

(** [extensions.set(name, config)] on the [Map] registry: the value of an
    existing key is replaced where it stands, a new key goes to the end. *)
Fixpoint Map_set (name : string) (c : Extensions.config)
    (extensions : list (string * Extensions.config))
    : list (string * Extensions.config) :=
  match extensions with
  | [] => [(name, c)]
  | (k, v) :: rest =>
      if String.eqb k name then (k, c) :: rest
      else (k, v) :: Map_set name c rest
  end.

(** The registration that ends [KHR_draco_mesh_compression.js]:
    [[
    extensions.set('KHR_draco_mesh_compression', { schema: { Primitive: ... } });
    ]]
    The configuration has no [load] hook. *)
Definition register_KHR_draco_mesh_compression
    (extensions : list (string * Extensions.config))
    : list (string * Extensions.config) :=
  Map_set "KHR_draco_mesh_compression" {| Extensions.load := None |} extensions.

(** The [asset] member with its [version] replaced. *)
Definition with_version (a : asset) (v : option string) : asset :=
  {| version := v; minVersion := minVersion a; generator := generator a |}.

(** A string without the separator of version parts. *)
Fixpoint dotless (s : string) : bool :=
  match s with
  | EmptyString => true
  | String c s' => negb (Ascii.eqb c ".") && dotless s'
  end.

(** A prototype for registries of numbered factories: it has [toString],
    numbered 0, and nothing else. *)
Definition Object_prototype_sample (name : string) : option nat :=
  if String.eqb name "toString" then Some 0%nat else None.

(** A decoder that takes every buffer for a point cloud and decodes the
    non-empty ones; its face loop, never called for, rewrites the indices. *)
Definition toy_point_cloud : Worker.DracoModule unit (list Z) unit := {|
  Worker.GetEncodedGeometryType := fun _ => Worker.POINT_CLOUD;
  Worker.DecodeBufferToMesh := fun _ =>
    {| Worker.ok := false; Worker.error_msg := "not a mesh"; Worker.ptr := 0;
       Worker.dracoGeometry := tt |};
  Worker.DecodeBufferToPointCloud := fun bytes =>
    match bytes with
    | [] => {| Worker.ok := false; Worker.error_msg := "empty buffer"; Worker.ptr := 0;
               Worker.dracoGeometry := tt |}
    | _ :: _ => {| Worker.ok := true; Worker.error_msg := ""; Worker.ptr := 1;
                   Worker.dracoGeometry := tt |}
    end;
  Worker.GetAttributes := fun _ a => Normal a;
  Worker.GetFaces := fun _ _ => [];
|}.

(** A request for it over the first [n] bytes of a two-byte buffer. *)
Definition toy_request (type : string) (n : Z) : Worker.request unit (list Z) := {|
  Worker.type_ := type; Worker.taskId := 7;
  Worker.arrayBuffer := [Byte.x01; Byte.x02];
  Worker.byteOffset := 0; Worker.byteLength := n;
  Worker.attributes_ := tt; Worker.indices_ := [0; 1; 2];
|}.

(** Every [load] body is fulfilled at the instant it is entered. *)
Definition prompt (k : Load.key) (now : nat) : promise unit := Fulfilled now tt.

End Further.

(* ===================================================================== *)
(** * Properties *)
(* ===================================================================== *)

Import Root Documents.

(** ** The registry *)

Section RegistryFacts.
Context {factory : Type}.
Implicit Types (t : Extensions.GLTFExtensionsSet factory) (f : factory).

Lemma getFactory_add_entry name property f sch :
  Extensions.add_entry name sch (property, f) !! property
  = Some (<[name := f]> (default ∅ (sch !! property))).
Proof. unfold Extensions.add_entry. by rewrite lookup_insert_eq. Qed.

Lemma isSupported_add name schema t :
  Extensions.isSupported name (Extensions.add name schema t) = true.
Proof.
  unfold Extensions.isSupported, Extensions.add; simpl.
  apply bool_decide_eq_true. set_solver.
Qed.

Variable Object_prototype : string -> option factory.

Lemma getFactory_add_single K N f t :
  Extensions.getFactory Object_prototype K N (Extensions.add N [(K, f)] t) = Some f.
Proof.
  unfold Extensions.getFactory, Extensions.add.
  cbn [Extensions.schemas fold_left].
  rewrite getFactory_add_entry. by rewrite lookup_insert_eq.
Qed.

End RegistryFacts.

(** C8. In any registry, for any record kind [K], extension name [N] and
    factories [F1], [F2]: after [add(N, {schema: {K: F1}})] and then
    [add(N, {schema: {K: F2}})], [getFactory(K, N)] returns [F2] (the later
    registration replaces the earlier one; [add] has no way to fail) and
    [isSupported(N)] is true. *)
Theorem last_registration_wins {factory : Type}
    (Object_prototype : string -> option factory)
    (t : Extensions.GLTFExtensionsSet factory) (K N : string) (F1 F2 : factory) :
  let t' := Extensions.add N [(K, F2)] (Extensions.add N [(K, F1)] t) in
  Extensions.getFactory Object_prototype K N t' = Some F2
  /\ Extensions.isSupported N t' = true.
Proof.
  intros t'. split.
  - apply (getFactory_add_single Object_prototype).
  - apply isSupported_add.
Qed.

(** ** The gates of [ensureSupport] *)

Lemma strict_ne_is_two (x : number) :
  strict_ne x 2 = false <-> is_two x.
Proof.
  unfold is_two. destruct x as [| n | q]; simpl.
  - split; [discriminate | intros (q & H & _); discriminate].
  - split; [discriminate | intros (q & H & _); discriminate].
  - rewrite negb_false_iff, Qeq_bool_iff. split.
    + intros H. exists q. split; [reflexivity | exact H].
    + intros (q' & H & Hq). injection H as ->. exact Hq.
Qed.

Lemma gt_zero_is_positive (x : option number) :
  gt_zero x = true <-> is_positive x.
Proof.
  unfold is_positive. destruct x as [[| n | q] |]; simpl.
  - split; [discriminate | intros [(q & H & _) | H]; discriminate].
  - destruct n; simpl; split; try discriminate.
    + intros [(q & H & _) | H]; discriminate.
    + intros _. right. reflexivity.
    + reflexivity.
  - rewrite negb_true_iff. split.
    + intros H. left. exists q. split; [reflexivity |].
      apply Qnot_le_lt. intros Hle. apply Qle_bool_iff in Hle. congruence.
    + intros [(q' & H & Hq) | H]; [| discriminate].
      injection H as Hqq. subst q'. destruct (Qle_bool q 0) eqn:E; [| reflexivity].
      apply Qle_bool_iff in E. exfalso. exact (Qlt_not_le _ _ Hq E).
  - split; [discriminate | intros [(q & H & _) | H]; discriminate].
Qed.

Lemma version_gate_cases (Number : string -> number) (a : asset) (v : string) :
  or_else (minVersion a) (version a) = Some v ->
  version_gate Number a
  = if strict_ne (major_minor Number v).1 2
       || (truthy (minVersion a) && gt_zero (major_minor Number v).2)
    then Throw (UnsupportedVersionError v) else Normal tt.
Proof.
  intros Hv. unfold version_gate. rewrite Hv.
  destruct (major_minor Number v) as [major minor]. reflexivity.
Qed.

Lemma GLTF_new_gate_throws Number exts g e uri :
  ensureSupport Number exts g = Throw e ->
  GLTF_new Number exts (Some g) uri = Throw e.
Proof. intros H. unfold GLTF_new; simpl. rewrite H. reflexivity. Qed.

Lemma ensureSupport_version_throws Number exts g a e :
  asset_ g = Some a -> version_gate Number a = Throw e ->
  ensureSupport Number exts g = Throw e.
Proof. intros Ha H. unfold ensureSupport. rewrite Ha; simpl. rewrite H. reflexivity. Qed.

Lemma load_rejects_on_throw ToIndex JSON_parse Number exts fetch fate base uri buffer e s now t :
  fetch uri now = Fulfilled t buffer ->
  Container.construct ToIndex JSON_parse Number exts uri buffer = Throw e ->
  Container.load ToIndex JSON_parse Number exts fetch fate base uri s now
  = (s, Rejected (Nat.max now t) e).
Proof.
  intros Hf Hc. unfold Container.load, Load.await. rewrite Hf, Hc. reflexivity.
Qed.

Lemma construct_json_route ToIndex JSON_parse Number exts uri buffer h g :
  Container.header buffer = Normal h ->
  nth 0 h 0 <> Container.MAGIC_NUMBER_BINARY_FORMAT ->
  JSON_parse buffer = Normal g ->
  Container.construct ToIndex JSON_parse Number exts uri buffer
  = GLTF_new Number exts (Some g) uri.
Proof.
  intros Hh Hm Hp. unfold Container.construct. rewrite Hh; simpl.
  destruct (Z.eqb_spec (nth 0 h 0) Container.MAGIC_NUMBER_BINARY_FORMAT); [contradiction |].
  rewrite Hp. reflexivity.
Qed.

Lemma not_positive_le (q : Q) :
  ~ is_positive (Some (Finite q)) <-> (q <= 0)%Q.
Proof.
  split.
  - intros H. apply Qnot_lt_le. intros Hlt. apply H. left. exists q. auto.
  - intros Hle [(q' & H & Hq) | H]; [| discriminate].
    injection H as Hqq. subst q'. exact (Qlt_not_le _ _ Hq Hle).
Qed.

Lemma version_gate_passes_iff (Number : string -> number) (a : asset) (v : string) :
  or_else (minVersion a) (version a) = Some v ->
  version_gate Number a = Normal tt
  <-> is_two (major_minor Number v).1
      /\ (truthy (minVersion a) = true -> ~ is_positive (major_minor Number v).2).
Proof.
  intros Hv. rewrite (version_gate_cases Number a v Hv).
  rewrite <- strict_ne_is_two, <- gt_zero_is_positive.
  destruct (major_minor Number v) as [major minor]. cbn [fst snd].
  destruct (strict_ne major 2), (truthy (minVersion a)), (gt_zero minor);
    cbn; intuition (try discriminate; auto).
Qed.

Lemma split_cons sep s : exists p ps, split sep s = p :: ps.
Proof.
  induction s as [| c s IH]; cbn [split]; [eauto |].
  destruct (Ascii.eqb c sep); [eauto |].
  destruct IH as (p & ps & ->). eauto.
Qed.

(** The two numbers the gate compares, read on the parts of the string. *)
Lemma major_minor_parts (Number : string -> number) (v : string) :
  major_minor Number v
  = (Number (hd "" (split "." v)), option_map Number (nth_error (split "." v) 1)).
Proof.
  unfold major_minor. destruct (split_cons "." v) as (p & [| p' ps] & ->); reflexivity.
Qed.

Lemma ensureSupport_version_passes Number exts g a :
  asset_ g = Some a -> version_gate Number a = Normal tt ->
  ensureSupport Number exts g
  = extension_gate exts (default [] (extensionsRequired g)).
Proof.
  intros Ha Hv. unfold ensureSupport. rewrite Ha. cbn [default id].
  rewrite Hv. reflexivity.
Qed.

(** C3, as the code has it. The gate reads the string
    [v = minVersion || version]: it passes exactly when the first part of
    [v] (up to the first dot) converts to 2 and, when a non-empty
    [minVersion] is given, the second part does not convert to a number
    above 0 (for a numeric part: is at most 0); otherwise it throws the
    error "Unsupported glTF version v". With [Number] converting the digit
    strings ["0"], ["1"], ["2"] to 0, 1 and 2: every document whose
    [asset.version] is ["1.0"] and that gives no [minVersion] (none, or the
    empty string) is refused by the constructor with "Unsupported glTF
    version 1.0"; every document whose [asset.version] is ["2.0"] and that
    gives no [minVersion] passes the version gate, so that [ensureSupport]
    is left with the required extensions, and [{asset: {version: "2.0"}}]
    constructs; a document with [minVersion] ["2.1"] is refused with
    "Unsupported glTF version 2.1" and one with [minVersion] ["2.0"] passes
    the version gate, whatever their [asset.version]. The throw is the
    constructor's own, whatever else the document holds; in the static
    [load] it rejects the returned promise with no [load] body entered and
    nothing memoized. *)
Theorem version_gate_decides (Number : string -> number)
    (H0 : Number "0" = Finite 0) (H1 : Number "1" = Finite 1)
    (H2 : Number "2" = Finite 2) :
  (forall exts g a uri,
      asset_ g = Some a -> version a = Some "1.0" -> truthy (minVersion a) = false ->
      GLTF_new Number exts (Some g) uri = Throw (UnsupportedVersionError "1.0"))
  /\ (forall exts g a,
      asset_ g = Some a -> version a = Some "2.0" -> truthy (minVersion a) = false ->
      version_gate Number a = Normal tt
      /\ ensureSupport Number exts g
         = extension_gate exts (default [] (extensionsRequired g)))
  /\ (forall exts uri,
      is_Normal (GLTF_new Number exts (Some (versioned "2.0")) uri) = true)
  /\ (forall exts g a uri,
      asset_ g = Some a -> minVersion a = Some "2.1" ->
      GLTF_new Number exts (Some g) uri = Throw (UnsupportedVersionError "2.1"))
  /\ (forall exts g a,
      asset_ g = Some a -> minVersion a = Some "2.0" ->
      version_gate Number a = Normal tt
      /\ ensureSupport Number exts g
         = extension_gate exts (default [] (extensionsRequired g)))
  /\ (forall a v,
      or_else (minVersion a) (version a) = Some v ->
      (version_gate Number a = Normal tt
       <-> is_two (Number (hd "" (split "." v)))
           /\ (truthy (minVersion a) = true
               -> ~ is_positive (option_map Number (nth_error (split "." v) 1))))
      /\ (version_gate Number a <> Normal tt
          -> version_gate Number a = Throw (UnsupportedVersionError v)))
  /\ (forall q, ~ is_positive (Some (Finite q)) <-> (q <= 0)%Q)
  /\ (forall exts g a e uri,
      asset_ g = Some a -> version_gate Number a = Throw e ->
      GLTF_new Number exts (Some g) uri = Throw e)
  /\ (forall ToIndex JSON_parse exts fetch fate base uri buffer h g a e s now t,
      fetch uri now = Fulfilled t buffer ->
      Container.header buffer = Normal h ->
      nth 0 h 0 <> Container.MAGIC_NUMBER_BINARY_FORMAT ->
      JSON_parse buffer = Normal g ->
      asset_ g = Some a -> version_gate Number a = Throw e ->
      Container.load ToIndex JSON_parse Number exts fetch fate base uri s now
      = (s, Rejected (Nat.max now t) e)).
Proof.
  assert (Hone : forall a, version a = Some "1.0" -> truthy (minVersion a) = false ->
                 version_gate Number a = Throw (UnsupportedVersionError "1.0")).
  { intros a Hv Hm. rewrite (version_gate_cases Number a "1.0").
    - rewrite Hm, major_minor_parts. cbn [split Ascii.eqb Bool.eqb hd fst snd].
      rewrite H1. reflexivity.
    - unfold or_else. rewrite Hm, Hv. reflexivity. }
  assert (Htwo : forall a, version a = Some "2.0" -> truthy (minVersion a) = false ->
                 version_gate Number a = Normal tt).
  { intros a Hv Hm. rewrite (version_gate_cases Number a "2.0").
    - rewrite Hm, major_minor_parts. cbn [split Ascii.eqb Bool.eqb hd fst snd].
      rewrite H2. reflexivity.
    - unfold or_else. rewrite Hm, Hv. reflexivity. }
  assert (Hmin1 : forall a, minVersion a = Some "2.1" ->
                  version_gate Number a = Throw (UnsupportedVersionError "2.1")).
  { intros a Hm. rewrite (version_gate_cases Number a "2.1").
    - rewrite Hm, major_minor_parts.
      cbn [split Ascii.eqb Bool.eqb hd fst snd nth_error option_map].
      rewrite H1, H2. reflexivity.
    - unfold or_else. rewrite Hm. reflexivity. }
  assert (Hmin0 : forall a, minVersion a = Some "2.0" ->
                  version_gate Number a = Normal tt).
  { intros a Hm. rewrite (version_gate_cases Number a "2.0").
    - rewrite Hm, major_minor_parts.
      cbn [split Ascii.eqb Bool.eqb hd fst snd nth_error option_map].
      rewrite H0, H2. reflexivity.
    - unfold or_else. rewrite Hm. reflexivity. }
  split; [| split; [| split; [| split; [| split; [| split; [| split; [| split]]]]]]].
  - intros exts g a uri Ha Hv Hm. apply GLTF_new_gate_throws.
    eapply ensureSupport_version_throws; eauto.
  - intros exts g a Ha Hv Hm. split; [apply Htwo; assumption |].
    apply (ensureSupport_version_passes Number exts g a Ha). apply Htwo; assumption.
  - intros exts uri. unfold GLTF_new.
    change (default default_glTF (Some (versioned "2.0"))) with (versioned "2.0").
    rewrite (ensureSupport_version_passes Number exts (versioned "2.0")
               {| version := Some "2.0"; minVersion := None; generator := None |}
               eq_refl
               (Htwo {| version := Some "2.0"; minVersion := None; generator := None |}
                     eq_refl eq_refl)).
    reflexivity.
  - intros exts g a uri Ha Hm. apply GLTF_new_gate_throws.
    eapply ensureSupport_version_throws; eauto.
  - intros exts g a Ha Hm. split; [apply Hmin0; assumption |].
    apply (ensureSupport_version_passes Number exts g a Ha). apply Hmin0; assumption.
  - intros a v Hv. split.
    + rewrite (version_gate_passes_iff Number a v Hv), major_minor_parts.
      reflexivity.
    + intros Hne. rewrite (version_gate_cases Number a v Hv) in *.
      destruct (strict_ne _ _ || _); [reflexivity | contradiction].
  - apply not_positive_le.
  - intros exts g a e uri Ha He. apply GLTF_new_gate_throws.
    eapply ensureSupport_version_throws; eauto.
  - intros ToIndex JSON_parse exts fetch fate base uri buffer h g a e s now t
           Hf Hh Hm Hp Ha He.
    apply load_rejects_on_throw with (buffer := buffer); [assumption |].
    rewrite (construct_json_route _ _ _ _ _ _ h g Hh Hm Hp).
    apply GLTF_new_gate_throws. eapply ensureSupport_version_throws; eauto.
Qed.

Lemma version_gate_decides_witness :
  GLTF_new Number_decimal [] (Some (versioned "1.0")) "model.gltf"
  = Throw (UnsupportedVersionError "1.0")
  /\ version_gate Number_decimal
       {| version := Some "2.0"; minVersion := None; generator := None |}
     = Normal tt
  /\ GLTF_new Number_decimal [] (Some (aged (Some "2.0") (Some "2.1"))) "model.gltf"
     = Throw (UnsupportedVersionError "2.1").
Proof.
  pose proof (version_gate_decides Number_decimal eq_refl eq_refl eq_refl)
    as (Hone & Htwo & _ & Hmin & _).
  split; [| split].
  - apply (Hone [] (versioned "1.0") _ "model.gltf" eq_refl); reflexivity.
  - apply (Htwo [] (versioned "2.0") _ eq_refl); reflexivity.
  - apply (Hmin [] (aged (Some "2.0") (Some "2.1")) _ "model.gltf" eq_refl).
    reflexivity.
Defined.

(** C3, as stated, fails where the document gives a [minVersion]: the
    gate then judges that string and never reads [asset.version]. The
    document [{asset: {version: "1.0", minVersion: "2.0"}}] is not refused:
    it constructs. The document [{asset: {version: "2.0", minVersion:
    "2.1"}}] is not accepted: the constructor throws "Unsupported glTF
    version 2.1". *)
Lemma version_not_read_under_minVersion :
  is_Normal (GLTF_new Number_decimal [] (Some (aged (Some "1.0") (Some "2.0")))
               "model.gltf") = true
  /\ GLTF_new Number_decimal [] (Some (aged (Some "2.0") (Some "2.1"))) "model.gltf"
     = Throw (UnsupportedVersionError "2.1").
Proof. split; vm_compute; reflexivity. Qed.

Lemma Map_has_registered (ext : string) (exts : list (string * Extensions.config)) :
  Extensions.Map_has ext exts = true <-> In ext (map fst exts).
Proof.
  induction exts as [| [k c] rest IH]; simpl.
  - split; [discriminate | contradiction].
  - rewrite orb_true_iff, IH, String.eqb_eq. reflexivity.
Qed.

Lemma extension_gate_passes_iff exts (req : list string) :
  extension_gate exts req = Normal tt
  <-> (forall ext, In ext req -> In ext (map fst exts)).
Proof.
  induction req as [| ext rest IH]; simpl.
  - split; [intros _ ext [] | reflexivity].
  - destruct (Extensions.Map_has ext exts) eqn:E.
    + rewrite IH. apply Map_has_registered in E. split.
      * intros H x [<- | Hx]; auto.
      * intros H x Hx. apply H. right. exact Hx.
    + split; [discriminate |]. intros H.
      assert (Hin : In ext (map fst exts)) by (apply H; left; reflexivity).
      apply Map_has_registered in Hin. congruence.
Qed.

Lemma extension_gate_throws exts (req : list string) :
  (exists ext, In ext req /\ ~ In ext (map fst exts)) ->
  exists ext, In ext req /\ ~ In ext (map fst exts)
              /\ extension_gate exts req = Throw (UnsupportedExtensionError ext).
Proof.
  induction req as [| x rest IH]; simpl.
  - intros (ext & [] & _).
  - intros (ext & Hin & Hno).
    destruct (Extensions.Map_has x exts) eqn:E.
    + apply Map_has_registered in E.
      destruct Hin as [-> | Hin]; [contradiction |].
      destruct IH as (y & Hy & Hny & Hg); [exists ext; auto |].
      exists y. auto.
    + exists x. split; [left; reflexivity |]. split; [| reflexivity].
      intros H. apply Map_has_registered in H. congruence.
Qed.

Lemma ensureSupport_past_version Number exts g a :
  asset_ g = Some a -> version_gate Number a = Normal tt ->
  ensureSupport Number exts g
  = extension_gate exts (default [] (extensionsRequired g)).
Proof. intros Ha Hv. unfold ensureSupport. rewrite Ha; simpl. rewrite Hv. reflexivity. Qed.

(** C4. For a document that passes the version gate: if its
    [extensionsRequired] holds a name that is not registered, constructing a
    GLTF throws the error "Unsupported glTF extension <name>" for such a
    name (the first one); the throw is the constructor's own, and in the
    static [load] it rejects the returned promise with no [load] body entered
    and nothing memoized. If every required name is registered the extension
    gate passes, and [ensureSupport] with it. *)
Theorem extension_gate_decides (Number : string -> number)
    (exts : list (string * Extensions.config)) (g : glTF) (a : asset)
    (Ha : asset_ g = Some a) (Hversion : version_gate Number a = Normal tt) :
  let required := default [] (extensionsRequired g) in
  ((exists ext, In ext required /\ ~ In ext (map fst exts)) ->
   exists ext, In ext required /\ ~ In ext (map fst exts)
     /\ (forall uri, GLTF_new Number exts (Some g) uri
                     = Throw (UnsupportedExtensionError ext))
     /\ (forall ToIndex JSON_parse fetch fate base uri buffer h s now t,
           fetch uri now = Fulfilled t buffer ->
           Container.header buffer = Normal h ->
           nth 0 h 0 <> Container.MAGIC_NUMBER_BINARY_FORMAT ->
           JSON_parse buffer = Normal g ->
           Container.load ToIndex JSON_parse Number exts fetch fate base uri s now
           = (s, Rejected (Nat.max now t) (UnsupportedExtensionError ext))))
  /\ ((forall ext, In ext required -> In ext (map fst exts)) ->
      extension_gate exts required = Normal tt
      /\ ensureSupport Number exts g = Normal tt).
Proof.
  intros required. split.
  - intros Hex. destruct (extension_gate_throws exts required Hex)
      as (ext & Hin & Hno & Hg).
    exists ext. split; [exact Hin |]. split; [exact Hno |].
    assert (Hnew : forall uri, GLTF_new Number exts (Some g) uri
                               = Throw (UnsupportedExtensionError ext)).
    { intros uri. apply GLTF_new_gate_throws.
      rewrite (ensureSupport_past_version Number exts g a Ha Hversion). exact Hg. }
    split; [exact Hnew |].
    intros ToIndex JSON_parse fetch fate base uri buffer h s now t Hf Hh Hm Hp.
    apply load_rejects_on_throw with (buffer := buffer); [assumption |].
    rewrite (construct_json_route _ _ _ _ _ _ h g Hh Hm Hp). apply Hnew.
  - intros Hall. apply extension_gate_passes_iff in Hall. split; [exact Hall |].
    rewrite (ensureSupport_past_version Number exts g a Ha Hversion). exact Hall.
Qed.

Lemma extension_gate_decides_witness :
  exists ext,
    In ext ["X_unregistered"] /\ ~ In ext []
    /\ (forall uri, GLTF_new Number_decimal [] (Some (requiring ["X_unregistered"])) uri
                    = Throw (UnsupportedExtensionError ext)).
Proof.
  destruct (extension_gate_decides Number_decimal [] (requiring ["X_unregistered"])
              _ eq_refl eq_refl) as [Hthrow _].
  destruct Hthrow as (ext & Hin & Hno & Hnew & _).
  - exists "X_unregistered". split; [left; reflexivity | intros []].
  - exists ext. auto.
Defined.

(** ** The dereferencer *)

Lemma bind_Normal_inv {A B} (c : completion A) (k : A -> completion B) (b : B) :
  bind c k = Normal b -> exists a, c = Normal a /\ k a = Normal b.
Proof. destruct c as [a | e]; simpl; [eauto | discriminate]. Qed.

Lemma mapM_app {A B} (f : A -> completion B) (xs ys : list A) :
  mapM f (xs ++ ys)
  = bind (mapM f xs) (fun xs' => bind (mapM f ys) (fun ys' => Normal (xs' ++ ys'))).
Proof.
  induction xs as [| x xs IH]; simpl.
  - destruct (mapM f ys); reflexivity.
  - destruct (f x) as [y | e]; simpl; [| reflexivity].
    rewrite IH. destruct (mapM f xs) as [xs' | e]; simpl; [| reflexivity].
    destruct (mapM f ys); reflexivity.
Qed.

Lemma mapM_ext {A B} (f g : A -> completion B) (xs : list A) :
  (forall x, In x xs -> f x = g x) -> mapM f xs = mapM g xs.
Proof.
  induction xs as [| x xs IH]; simpl; intros H; [reflexivity |].
  rewrite (H x) by (left; reflexivity).
  rewrite IH by (intros y Hy; apply H; right; exact Hy). reflexivity.
Qed.

(** The pass keeps the names of the properties, in their order. *)
Lemma pass_keys recurse root rfs fs fs' :
  pass recurse root rfs fs = Normal fs' -> map fst fs' = map fst fs.
Proof.
  unfold pass. revert fs'. induction fs as [| [k v] fs IH]; simpl; intros fs' H.
  - injection H as <-. reflexivity.
  - apply bind_Normal_inv in H as ([k' v'] & Hkv & H).
    apply bind_Normal_inv in Hkv as (w & _ & Hw). injection Hw as <- <-.
    apply bind_Normal_inv in H as (rest & Hrest & H). injection H as <-.
    simpl. f_equal. apply IH. exact Hrest.
Qed.

Lemma lookup_field_app_absent key fs v gs :
  ~ In key (map fst fs) ->
  lookup_field key (fs ++ (key, v) :: gs) = v.
Proof.
  induction fs as [| [k w] fs IH]; simpl; intros H.
  - rewrite String.eqb_refl. reflexivity.
  - destruct (String.eqb_spec k key) as [-> | _]; [exfalso; apply H; left; reflexivity |].
    apply IH. intros Hin. apply H. right. exact Hin.
Qed.


(** The pass consults the root for the sizes of its collections only. *)
Lemma dereference_index_ext root1 root2 c v :
  collection_size root1 c = collection_size root2 c ->
  dereference_index root1 c v = dereference_index root2 c v.
Proof.
  intros H. unfold dereference_index, dereference_element. rewrite H. reflexivity.
Qed.

Lemma dereference_ext root1 root2 :
  (forall c, collection_size root1 c = collection_size root2 c) ->
  forall r, dereference root1 r = dereference root2 r.
Proof.
  intros Hsize. fix IH 1. intros [rfs fs]. simpl.
  assert (Hpass : pass (dereference root1) root1 rfs fs
                  = pass (dereference root2) root2 rfs fs).
  { unfold pass. induction fs as [| [k v] fs IHfs]; simpl; [reflexivity |].
    rewrite IHfs. f_equal. unfold field_pass.
    destruct (declared rfs k) as [[| c] |]; try reflexivity.
    - destruct v as [| | | | vs | r |]; try reflexivity.
      + assert (Hvs : mapM (into (dereference root1)) vs
                      = mapM (into (dereference root2)) vs).
        { clear IHfs. induction vs as [| x vs IHvs]; simpl; [reflexivity |].
          rewrite IHvs.
          destruct x as [| | | | | r |]; simpl; try reflexivity.
          rewrite (IH r). reflexivity. }
        rewrite Hvs. reflexivity.
      + simpl. rewrite (IH r). reflexivity.
    - rewrite (dereference_index_ext root1 root2 c v (Hsize c)). reflexivity. }
  rewrite Hpass. reflexivity.
Qed.

(** *** The root's [scene] *)

Lemma assigned_split g a s :
  assigned (with_scene g s) a
  = firstn 15 (assigned g a)
      ++ ("scene", element "scenes" (length (construct_all (scenes g))) s)
      :: skipn 16 (assigned g a).
Proof. reflexivity. Qed.

Lemma element_not_index c n s :
  forall root c', dereference_index root c' (element c n s) = Normal (element c n s).
Proof.
  intros root c'. unfold element.
  destruct s as [i |]; [| reflexivity].
  destruct ((0 <=? i) && (i <? Z.of_nat n))%Z; reflexivity.
Qed.

Lemma element_not_array c n s : forall vs, element c n s <> array vs.
Proof.
  intros vs. unfold element. destruct s as [i |]; [| discriminate].
  destruct ((0 <=? i) && (i <? Z.of_nat n))%Z; discriminate.
Qed.

Lemma collection_size_besides rfs pre post k v w c :
  (forall vs, v <> array vs) -> (forall vs, w <> array vs) ->
  collection_size (Rec rfs (pre ++ (k, v) :: post)) c
  = collection_size (Rec rfs (pre ++ (k, w) :: post)) c.
Proof.
  intros Hv Hw. unfold collection_size, get; simpl.
  induction pre as [| [k' u] pre IH]; simpl.
  - destruct (String.eqb k c); [| reflexivity].
    destruct v; try reflexivity; try (exfalso; eapply Hv; reflexivity);
      destruct w; try reflexivity; exfalso; eapply Hw; reflexivity.
  - destruct (String.eqb k' c); [reflexivity | exact IH].
Qed.

Lemma ensureSupport_with_scene N E g s :
  ensureSupport N E (with_scene g s) = ensureSupport N E g.
Proof. reflexivity. Qed.

Lemma pass_app_cons recurse root rfs pre k v post :
  pass recurse root rfs (pre ++ (k, v) :: post)
  = bind (pass recurse root rfs pre) (fun pre' =>
    bind (field_pass recurse root rfs k v) (fun v' =>
    bind (pass recurse root rfs post) (fun post' =>
    Normal (pre' ++ (k, v') :: post')))).
Proof.
  unfold pass. rewrite mapM_app. cbn [mapM fst snd].
  destruct (mapM _ pre) as [pre' | e]; [| reflexivity]. cbn [bind].
  destruct (field_pass recurse root rfs k v) as [v' | e]; [| reflexivity]. cbn [bind].
  destruct (mapM _ post) as [post' | e]; reflexivity.
Qed.

(** A field the pass leaves as it is does not bear on the rest of the
    pass over the root. *)
Lemma dereference_root_besides rfs pre post k c v w :
  declared rfs k = Some (collection c) ->
  (forall root, dereference_index root c v = Normal v) ->
  (forall root, dereference_index root c w = Normal w) ->
  (forall vs, v <> array vs) -> (forall vs, w <> array vs) ->
  let self_v := Rec rfs (pre ++ (k, v) :: post) in
  let self_w := Rec rfs (pre ++ (k, w) :: post) in
  (exists e, dereference self_v self_v = Throw e /\ dereference self_w self_w = Throw e)
  \/ (exists pre' post',
        map fst pre' = map fst pre
        /\ dereference self_v self_v = Normal (Rec rfs (pre' ++ (k, v) :: post'))
        /\ dereference self_w self_w = Normal (Rec rfs (pre' ++ (k, w) :: post'))).
Proof.
  intros Hk Hv Hw Hva Hwa self_v self_w.
  assert (Hsize : forall c', collection_size self_v c' = collection_size self_w c')
    by (intros c'; apply collection_size_besides; assumption).
  assert (Hpass : forall fs, pass (dereference self_v) self_v rfs fs
                             = pass (dereference self_w) self_w rfs fs).
  { intros fs. pose proof (dereference_ext self_v self_w Hsize (Rec rfs fs)) as H.
    cbn [dereference] in H.
    destruct (pass (dereference self_v) self_v rfs fs),
             (pass (dereference self_w) self_w rfs fs); cbn [bind] in H; congruence. }
  assert (Hdv : dereference self_v self_v
                = bind (pass (dereference self_w) self_w rfs (pre ++ (k, v) :: post))
                       (fun fs' => Normal (Rec rfs fs'))).
  { unfold self_v at 2. cbn [dereference]. rewrite Hpass. reflexivity. }
  assert (Hdw : dereference self_w self_w
                = bind (pass (dereference self_w) self_w rfs (pre ++ (k, w) :: post))
                       (fun fs' => Normal (Rec rfs fs'))).
  { unfold self_w at 2. cbn [dereference]. reflexivity. }
  rewrite Hdv, Hdw, !pass_app_cons.
  assert (Hfv : field_pass (dereference self_w) self_w rfs k v = Normal v)
    by (unfold field_pass; rewrite Hk; apply Hv).
  assert (Hfw : field_pass (dereference self_w) self_w rfs k w = Normal w)
    by (unfold field_pass; rewrite Hk; apply Hw).
  rewrite Hfv, Hfw.
  destruct (pass (dereference self_w) self_w rfs pre) as [pre' | e] eqn:Hpre;
    cbn [bind]; [| left; eauto].
  destruct (pass (dereference self_w) self_w rfs post) as [post' | e] eqn:Hpost;
    cbn [bind]; [| left; eauto].
  right. exists pre', post'. split; [| split; reflexivity].
  eapply pass_keys. exact Hpre.
Qed.

(** What the constructor makes of a document according to its [scene]
    member: the same throw as without it, or the same record but for the
    property [scene], which holds [this.scenes[scene]]. *)
Lemma GLTF_new_scene_shape N E g s uri :
  let here := element "scenes" (length (construct_all (scenes g))) s in
  (exists e, GLTF_new N E (Some (with_scene g s)) uri = Throw e
             /\ GLTF_new N E (Some (with_scene g None)) uri = Throw e)
  \/ (exists pre post regions,
        ~ In "scene" (map fst pre)
        /\ GLTF_new N E (Some (with_scene g s)) uri
           = Normal {| this := Rec GLTF_referenceFields (pre ++ ("scene", here) :: post);
                       uri_ := uri; arrayBuffers := regions |}
        /\ GLTF_new N E (Some (with_scene g None)) uri
           = Normal {| this := Rec GLTF_referenceFields
                                (pre ++ ("scene", undefined) :: post);
                       uri_ := uri; arrayBuffers := regions |}).
Proof.
  intros here. unfold GLTF_new.
  change (default default_glTF (Some (with_scene g s))) with (with_scene g s).
  change (default default_glTF (Some (with_scene g None))) with (with_scene g None).
  rewrite !ensureSupport_with_scene.
  destruct (ensureSupport N E g) as [[] | e]; cbn [bind]; [| left; eauto].
  change (asset_ (with_scene g s)) with (asset_ g).
  change (asset_ (with_scene g None)) with (asset_ g).
  destruct (asset_ g) as [a |]; [| left; eauto].
  change (buffers (with_scene g s)) with (buffers g).
  change (buffers (with_scene g None)) with (buffers g).
  rewrite !assigned_split. fold here.
  change (element "scenes" (length (construct_all (scenes g))) None) with undefined.
  assert (Hkeys : ~ In "scene" (map fst (firstn 15 (assigned g a)))).
  { cbn. intros H. repeat (destruct H as [H | H]; [discriminate H |]). exact H. }
  revert Hkeys.
  generalize (firstn 15 (assigned g a)) as pre0.
  generalize (skipn 16 (assigned g a)) as post0.
  intros post0 pre0 Hkeys.
  destruct (dereference_root_besides GLTF_referenceFields pre0 post0
              "scene" "scenes" here undefined)
    as [(e & Hs & H0) | (pre & post & Hpre & Hs & H0)].
  - reflexivity.
  - intros root. apply element_not_index.
  - reflexivity.
  - apply element_not_array.
  - discriminate.
  - left. exists e. rewrite Hs, H0. split; reflexivity.
  - right. exists pre, post, (map new_ArrayBuffer (default [] (buffers g))).
    rewrite Hs, H0. split; [| split; reflexivity].
    rewrite Hpre. exact Hkeys.
Qed.

Lemma with_scene_same g : with_scene g (scene g) = g.
Proof. destruct g; reflexivity. Qed.

Lemma construct_all_length xs : length (construct_all xs) = length (default [] xs).
Proof. unfold construct_all. apply length_map. Qed.


Lemma element_out_of_bounds c n i :
  ~ (0 <= i < Z.of_nat n) -> element c n (Some i) = undefined.
Proof.
  intros H. unfold element.
  destruct (Z.leb_spec 0 i); [| reflexivity].
  destruct (Z.ltb_spec i (Z.of_nat n)); [lia | reflexivity].
Qed.

(** The property [scene] of a constructed root is [this.scenes[scene]]. *)
Lemma GLTF_new_scene_value N E g uri G :
  GLTF_new N E (Some g) uri = Normal G ->
  get (this G) "scene" = element "scenes" (length (default [] (scenes g))) (scene g).
Proof.
  intros HG. rewrite <- (with_scene_same g) in HG.
  destruct (GLTF_new_scene_shape N E g (scene g) uri)
    as [(e & Hs & _) | (pre & post & regions & Hkeys & Hs & _)]; [congruence |].
  rewrite Hs in HG. injection HG as <-. unfold get. cbn [this fields].
  rewrite lookup_field_app_absent by exact Hkeys.
  rewrite construct_all_length. reflexivity.
Qed.

Lemma GLTF_new_scene_throw N E g uri e :
  GLTF_new N E (Some g) uri = Throw e
  <-> GLTF_new N E (Some (with_scene g None)) uri = Throw e.
Proof.
  rewrite <- (with_scene_same g) at 1.
  destruct (GLTF_new_scene_shape N E g (scene g) uri)
    as [(e' & Hs & H0) | (pre & post & regions & _ & Hs & H0)];
    rewrite Hs, H0; split; congruence.
Qed.

(** C10. For every document whose [scene] is given and is not an index of
    its [scenes] (too large, negative, or [scenes] empty or absent), and
    which constructs when its [scene] member is left out: what the
    constructor assigns to [this.scene] before the dereferencing pass is
    [undefined], the constructor completes without throwing, and
    [this.scene] is [undefined] in the result. *)
Theorem scene_out_of_bounds_is_undefined (N : string -> number)
    (E : list (string * Extensions.config)) (g : glTF) (i : Z) (uri : string)
    (G0 : GLTF) :
  scene g = Some i ->
  ~ (0 <= i < Z.of_nat (length (default [] (scenes g)))) ->
  GLTF_new N E (Some (with_scene g None)) uri = Normal G0 ->
  element "scenes" (length (construct_all (scenes g))) (scene g) = undefined
  /\ exists G, GLTF_new N E (Some g) uri = Normal G
               /\ get (this G) "scene" = undefined.
Proof.
  intros Hscene Hout H0. split.
  - rewrite Hscene, construct_all_length. apply element_out_of_bounds. exact Hout.
  - destruct (GLTF_new N E (Some g) uri) as [G | e] eqn:HG.
    + exists G. split; [reflexivity |].
      rewrite (GLTF_new_scene_value N E g uri G HG), Hscene.
      apply element_out_of_bounds. exact Hout.
    + apply GLTF_new_scene_throw in HG. congruence.
Qed.

Lemma scene_out_of_bounds_is_undefined_witness :
  exists G, GLTF_new Number_decimal [] (Some (staged (Some [plain]) (Some 3))) "model.gltf"
            = Normal G
            /\ get (this G) "scene" = undefined.
Proof.
  destruct (scene_out_of_bounds_is_undefined Number_decimal []
              (staged (Some [plain]) (Some 3)) 3 "model.gltf"
              match GLTF_new Number_decimal [] (Some (staged (Some [plain]) None)) "model.gltf" with
              | Normal G0 => G0
              | Throw _ => {| this := plain; uri_ := ""; arrayBuffers := [] |}
              end)
    as [_ H].
  - reflexivity.
  - simpl. lia.
  - reflexivity.
  - exact H.
Defined.








(** ** Load orchestration: at most once *)

Section AtMostOnce.
Import Load.
Variable fate : key -> nat -> promise unit.
Variable GLTFProperty_load : nat -> promise unit.

Lemma times_started_log k k' now s :
  times_started k (log now k' s)
  = (times_started k s + if decide (k' = k) then 1 else 0)%nat.
Proof.
  unfold times_started, log; cbn [started].
  rewrite filter_app, length_app, filter_cons, filter_nil. cbn [snd].
  destruct (decide (k' = k)); reflexivity.
Qed.

Lemma consistent_initial : consistent initial.
Proof.
  intros k. unfold entered_once, initial, times_started; cbn [memo started].
  rewrite lookup_empty. reflexivity.
Qed.

Lemma loadOnce_leaf_hit k s now p :
  memo s !! k = Some p -> loadOnce (leaf_load fate) k s now = (s, p).
Proof. intros H. unfold loadOnce. rewrite H. reflexivity. Qed.

Lemma loadOnce_leaf_miss k s now :
  memo s !! k = None ->
  loadOnce (leaf_load fate) k s now
  = (memoize k (fate k now) (log now k s), fate k now).
Proof. intros H. unfold loadOnce. rewrite H. reflexivity. Qed.

Lemma loadOnce_leaf_consistent k s now :
  consistent s -> consistent (loadOnce (leaf_load fate) k s now).1.
Proof.
  intros Hs. destruct (memo s !! k) as [p |] eqn:E.
  - rewrite (loadOnce_leaf_hit k s now p E). exact Hs.
  - rewrite (loadOnce_leaf_miss k s now E). unfold consistent, entered_once in *.
    intros k'. cbn [fst].
    change (times_started k' (memoize k (fate k now) (log now k s)))
      with (times_started k' (log now k s)).
    rewrite times_started_log. cbn [memoize memo log].
    destruct (decide (k = k')) as [<- | Hne].
    + rewrite lookup_insert_eq, Hs, E. reflexivity.
    + rewrite lookup_insert_ne by exact Hne. rewrite Hs. lia.
Qed.

Lemma loadOnce_leaf_memo k s now :
  let r := loadOnce (leaf_load fate) k s now in
  memo r.1 !! k = Some r.2
  /\ (forall k' p, memo s !! k' = Some p -> memo r.1 !! k' = Some p)
  /\ (forall k', k' <> k -> memo r.1 !! k' = memo s !! k').
Proof.
  destruct (memo s !! k) as [p |] eqn:E.
  - rewrite (loadOnce_leaf_hit k s now p E). cbn. auto.
  - rewrite (loadOnce_leaf_miss k s now E). cbn [fst snd memoize memo log].
    split; [apply lookup_insert_eq |]. split.
    + intros k' p Hk'. destruct (decide (k = k')) as [<- | Hne]; [congruence |].
      rewrite lookup_insert_ne by exact Hne. exact Hk'.
    + intros k' Hne. apply lookup_insert_ne. congruence.
Qed.

Lemma loadOnce_each_leaf calls : forall s,
  consistent s ->
  let r := loadOnce_each (leaf_load fate) calls s in
  consistent r.1
  /\ length r.2 = length calls
  /\ (forall k p, memo s !! k = Some p -> memo r.1 !! k = Some p)
  /\ (forall i k t, nth_error calls i = Some (k, t) ->
        exists p, nth_error r.2 i = Some p /\ memo r.1 !! k = Some p)
  /\ (forall k, ~ In k (map fst calls) -> memo r.1 !! k = memo s !! k).
Proof.
  induction calls as [| [k now] rest IH]; intros s Hs; cbn [loadOnce_each].
  - cbn. repeat split; auto. intros [| i] k t H; discriminate.
  - pose proof (loadOnce_leaf_consistent k s now Hs) as Hc.
    pose proof (loadOnce_leaf_memo k s now) as (Hk & Hmono & Hother).
    destruct (loadOnce (leaf_load fate) k s now) as [s1 p]. cbn [fst snd] in *.
    specialize (IH s1 Hc).
    destruct (loadOnce_each (leaf_load fate) rest s1) as [s2 ps]. cbn [fst snd] in *.
    destruct IH as (Hc2 & Hlen & Hmono2 & Hnth & Hout).
    split; [exact Hc2 |]. split; [cbn; lia |]. split; [auto |]. split.
    + intros [| i] k' t H; cbn in H.
      * injection H as <- <-. exists p. split; [reflexivity | auto].
      * apply Hnth in H. exact H.
    + intros k' Hk'. simpl in Hk'.
      rewrite Hout by (intros H; apply Hk'; right; exact H).
      apply Hother. intros ->. apply Hk'. left. reflexivity.
Qed.

(** [Values.load] leaves the state its call of [buffer.loadOnce] leaves. *)
Lemma Values_load_state buffer self s now :
  (Values_load fate GLTFProperty_load buffer self s now).1
  = (loadOnce (leaf_load fate) buffer (log now self s) now).1.
Proof.
  unfold Values_load.
  destruct (loadOnce (leaf_load fate) buffer (log now self s) now) as [s1 p].
  unfold await. destruct p as [| t v | t e]; cbn [fst]; try reflexivity.
  destruct (GLTFProperty_load (Nat.max now t)); reflexivity.
Qed.

Lemma loadOnce_Values_buffer buffer self s now :
  self <> buffer -> entered_once buffer s ->
  let r := loadOnce (Values_load fate GLTFProperty_load buffer) self s now in
  entered_once buffer r.1
  /\ (is_Some (memo s !! buffer) -> is_Some (memo r.1 !! buffer))
  /\ (memo s !! self = None -> is_Some (memo r.1 !! buffer)).
Proof.
  intros Hne Hb. unfold loadOnce.
  destruct (memo s !! self) as [p |] eqn:E; cbn [fst].
  - split; [exact Hb |]. split; [auto | discriminate].
  - pose proof (Values_load_state buffer self s now) as Hst.
    destruct (Values_load fate GLTFProperty_load buffer self s now) as [s1 p].
    cbn [fst] in *. subst s1.
    assert (Hlog : entered_once buffer (log now self s)).
    { unfold entered_once. rewrite times_started_log. cbn [log memo].
      destruct (decide (self = buffer)); [contradiction |]. rewrite Hb. lia. }
    assert (Hmemo : memo (log now self s) = memo s) by reflexivity.
    destruct (memo s !! buffer) as [q |] eqn:Eb.
    + rewrite (loadOnce_leaf_hit buffer (log now self s) now q) by (rewrite Hmemo; exact Eb).
      cbn [fst]. unfold entered_once in *. cbn [memoize memo] in *.
      rewrite lookup_insert_ne by exact Hne.
      change (times_started buffer (memoize self p (log now self s)))
        with (times_started buffer (log now self s)).
      rewrite Eb in *. split; [exact Hlog |]. split; eauto.
    + rewrite (loadOnce_leaf_miss buffer (log now self s) now) by (rewrite Hmemo; exact Eb).
      cbn [fst]. unfold entered_once in *. cbn [memoize memo log] in *.
      rewrite lookup_insert_ne by exact Hne. rewrite lookup_insert_eq.
      change (times_started buffer
                (memoize self p (memoize buffer (fate buffer now)
                                         (log now buffer (log now self s)))))
        with (times_started buffer (log now buffer (log now self s))).
      rewrite times_started_log.
      destruct (decide (buffer = buffer)); [| contradiction].
      rewrite Eb in Hlog. rewrite Hlog. split; [reflexivity |]. split; eauto.
Qed.

Lemma loadOnce_each_Values buffer calls : forall s,
  ~ In buffer (map fst calls) -> entered_once buffer s ->
  let r := loadOnce_each (Values_load fate GLTFProperty_load buffer) calls s in
  entered_once buffer r.1
  /\ (is_Some (memo s !! buffer) -> is_Some (memo r.1 !! buffer))
  /\ (forall k t rest, calls = (k, t) :: rest -> memo s !! k = None ->
        is_Some (memo r.1 !! buffer)).
Proof.
  induction calls as [| [k now] rest IH]; intros s Hno Hb; cbn [loadOnce_each].
  - cbn. split; [exact Hb |]. split; [auto | discriminate].
  - cbn in Hno.
    destruct (loadOnce_Values_buffer buffer k s now) as (Hb1 & Hkeep & Hnew);
      [intros ->; tauto | exact Hb |].
    destruct (loadOnce (Values_load fate GLTFProperty_load buffer) k s now) as [s1 p].
    cbn [fst] in *.
    destruct (IH s1) as (Hb2 & Hkeep2 & _); [tauto | exact Hb1 |].
    destruct (loadOnce_each (Values_load fate GLTFProperty_load buffer) rest s1)
      as [s2 ps]. cbn [fst] in *.
    split; [exact Hb2 |]. split; [auto |].
    intros k' t' rest' Heq Hk. injection Heq as <- <- <-. auto.
Qed.

End AtMostOnce.

Lemma loadOnce_each_hits fate k now p s n :
  Load.memo s !! k = Some p ->
  Load.loadOnce_each (Load.leaf_load fate) (repeat (k, now) n) s = (s, repeat p n).
Proof.
  intros H. induction n as [| n IH]; cbn [repeat Load.loadOnce_each]; [reflexivity |].
  rewrite (loadOnce_leaf_hit fate k s now p H), IH. reflexivity.
Qed.

(** C2. Calls of [loadOnce] on the records of a graph on which nothing was
    loaded yet, in any number, in any order and at any instants (in
    particular several calls at the same instant, before the first one has
    settled): the [load] body of every record called is entered exactly
    once, that of the others never, and any two calls on the same record
    return the same promise, hence the same outcome. [N >= 1] calls on one
    record enter its body once and return [N] times the promise of the first
    call. Any number of [Values] records whose buffer view lies in the same
    [Buffer], all loaded through [loadOnce]: the buffer's own [load] is
    entered exactly once. *)
Theorem loadOnce_at_most_once (fate : Load.key -> nat -> promise unit) :
  (forall calls s' ps,
      Load.loadOnce_each (Load.leaf_load fate) calls Load.initial = (s', ps) ->
      (forall k, In k (map fst calls) -> Load.times_started k s' = 1%nat)
      /\ (forall k, ~ In k (map fst calls) -> Load.times_started k s' = 0%nat)
      /\ (forall i j k ti tj,
            nth_error calls i = Some (k, ti) -> nth_error calls j = Some (k, tj) ->
            exists p, nth_error ps i = Some p /\ nth_error ps j = Some p))
  /\ (forall k now N, (1 <= N)%nat ->
      exists s',
        Load.loadOnce_each (Load.leaf_load fate) (repeat (k, now) N) Load.initial
        = (s', repeat (fate k now) N)
        /\ Load.times_started k s' = 1%nat)
  /\ (forall base buffer calls s' ps,
      calls <> [] -> ~ In buffer (map fst calls) ->
      Load.loadOnce_each (Load.Values_load fate base buffer) calls Load.initial = (s', ps) ->
      Load.times_started buffer s' = 1%nat).
Proof.
  split; [| split].
  - intros calls s' ps Hrun.
    pose proof (loadOnce_each_leaf fate calls Load.initial consistent_initial) as H.
    rewrite Hrun in H. cbn [fst snd] in H.
    destruct H as (Hc & Hlen & _ & Hnth & Hout).
    split; [| split].
    + intros k Hk. apply In_nth_error in Hk as (i & Hi).
      rewrite nth_error_map in Hi. destruct (nth_error calls i) as [[k' t] |] eqn:E;
        [| discriminate]. cbn in Hi. injection Hi as ->.
      destruct (Hnth i k t E) as (p & _ & Hp).
      specialize (Hc k). unfold Load.entered_once in Hc. rewrite Hp in Hc. exact Hc.
    + intros k Hk. specialize (Hc k). unfold Load.entered_once in Hc.
      rewrite (Hout k Hk) in Hc. cbn [Load.initial Load.memo] in Hc.
      rewrite lookup_empty in Hc. exact Hc.
    + intros i j k ti tj Hi Hj.
      destruct (Hnth i k ti Hi) as (p & Hpi & Hp).
      destruct (Hnth j k tj Hj) as (q & Hqj & Hq).
      exists p. split; [exact Hpi |]. congruence.
  - intros k now [| N] HN; [lia |]. cbn [repeat Load.loadOnce_each].
    rewrite (loadOnce_leaf_miss fate k Load.initial now) by apply lookup_empty.
    set (s1 := Load.memoize k (fate k now) (Load.log now k Load.initial)).
    rewrite (loadOnce_each_hits fate k now (fate k now) s1 N)
      by (unfold s1; cbn [Load.memoize Load.memo]; apply lookup_insert_eq).
    exists s1. split; [reflexivity |].
    unfold s1, Load.times_started; cbn [Load.memoize Load.log Load.started Load.initial app].
    rewrite filter_cons, filter_nil. cbn [snd].
    destruct (decide (k = k)); [reflexivity | contradiction].
  - intros base buffer calls s' ps Hne Hno Hrun.
    pose proof (loadOnce_each_Values fate base buffer calls Load.initial Hno
                  (consistent_initial buffer)) as H.
    rewrite Hrun in H. cbn [fst] in H. destruct H as (Hb & _ & Hnew).
    destruct calls as [| [k t] rest]; [contradiction |].
    destruct (Hnew k t rest eq_refl) as [p Hp]; [apply lookup_empty |].
    unfold Load.entered_once in Hb. rewrite Hp in Hb. exact Hb.
Qed.

Lemma loadOnce_at_most_once_witness :
  Load.times_started [("buffers", 0%nat)]
    (Load.loadOnce_each
       (Load.Values_load (fun _ now => Fulfilled (S now) tt)
                         (fun now => Fulfilled now tt) [("buffers", 0%nat)])
       [([("values", 0%nat)], 0%nat); ([("values", 1%nat)], 0%nat);
        ([("values", 0%nat)], 5%nat)]
       Load.initial).1 = 1%nat.
Proof.
  destruct (loadOnce_at_most_once (fun _ now => Fulfilled (S now) tt)) as (_ & _ & H).
  set (calls := [([("values", 0%nat)], 0%nat); ([("values", 1%nat)], 0%nat);
                 ([("values", 0%nat)], 5%nat)]).
  set (r := Load.loadOnce_each _ calls Load.initial).
  apply (H (fun now => Fulfilled now tt) [("buffers", 0%nat)] calls r.1 r.2).
  - discriminate.
  - cbn. intros [H1 | [H1 | [H1 | []]]]; discriminate H1.
  - apply surjective_pairing.
Defined.

(** ** Load orchestration: fan-out *)

Lemma first_rejection_None {A} (ps : list (promise A)) :
  first_rejection ps = None <-> (forall t e, ~ In (Rejected t e) ps).
Proof.
  induction ps as [| p ps IH]; simpl.
  - split; [intros _ t e [] | reflexivity].
  - destruct p as [| t v | t e].
    + rewrite IH. split; intros H t' e'; [intros [H' | H']; [discriminate | exact (H _ _ H')]|].
      intros H'. apply (H t' e'). right. exact H'.
    + rewrite IH. split; intros H t' e'; [intros [H' | H']; [discriminate | exact (H _ _ H')]|].
      intros H'. apply (H t' e'). right. exact H'.
    + split.
      * destruct (first_rejection ps) as [[t' e'] |]; [destruct (t <=? t')%nat |]; discriminate.
      * intros H. exfalso. apply (H t e). left. reflexivity.
Qed.

Lemma first_rejection_Some {A} (ps : list (promise A)) t e :
  first_rejection ps = Some (t, e) ->
  In (Rejected t e) ps
  /\ forall t' e', In (Rejected t' e') ps -> (t <= t')%nat.
Proof.
  revert t e. induction ps as [| p ps IH]; simpl; intros t e H; [discriminate |].
  destruct p as [| t0 v | t0 e0].
  - destruct (IH t e H) as [Hin Hmin]. split; [right; exact Hin |].
    intros t' e' [H' | H']; [discriminate | eauto].
  - destruct (IH t e H) as [Hin Hmin]. split; [right; exact Hin |].
    intros t' e' [H' | H']; [discriminate | eauto].
  - destruct (first_rejection ps) as [[t1 e1] |] eqn:E.
    + destruct (IH t1 e1 eq_refl) as [Hin Hmin].
      destruct (Nat.leb_spec t0 t1); injection H as <- <-.
      * split; [left; reflexivity |].
        intros t' e' [H' | H']; [injection H' as <- <-; lia |].
        specialize (Hmin _ _ H'). lia.
      * split; [right; exact Hin |].
        intros t' e' [H' | H']; [injection H' as <- <-; lia | eauto].
    + injection H as <- <-. split; [left; reflexivity |].
      intros t' e' [H' | H']; [injection H' as <- <-; lia |].
      exfalso. apply (proj1 (first_rejection_None ps) E t' e' H').
Qed.

Lemma all_fulfilled_Some {A} now (ps : list (promise A)) t vs :
  all_fulfilled now ps = Some (t, vs) ->
  (now <= t)%nat
  /\ forall p, In p ps -> exists t' v, p = Fulfilled t' v /\ (t' <= t)%nat.
Proof.
  revert t vs. induction ps as [| p ps IH]; simpl; intros t vs H.
  - injection H as <- <-. split; [lia | intros p []].
  - destruct p as [| t0 v0 | t0 e0]; try discriminate.
    destruct (all_fulfilled now ps) as [[t1 vs1] |]; [| discriminate].
    injection H as <- <-. destruct (IH t1 vs1 eq_refl) as [Hnow Hall].
    split; [lia |]. intros p [<- | Hp].
    + exists t0, v0. split; [reflexivity | lia].
    + destruct (Hall p Hp) as (t' & v & -> & Hle). exists t', v. split; [reflexivity | lia].
Qed.

Lemma Promise_all_fulfilled {A} now (ps : list (promise A)) t vs :
  Promise_all now ps = Fulfilled t vs ->
  (now <= t)%nat
  /\ forall p, In p ps -> exists t' v, p = Fulfilled t' v /\ (t' <= t)%nat.
Proof.
  unfold Promise_all.
  destruct (first_rejection (map (seen_at now) ps)) as [[t0 e0] |]; [discriminate |].
  destruct (all_fulfilled now ps) as [[t1 vs1] |] eqn:E; [| discriminate].
  intros H. injection H as <- <-. eapply all_fulfilled_Some. exact E.
Qed.

Lemma seen_at_rejected {A} now (ps : list (promise A)) t e :
  In (Rejected t e) (map (seen_at now) ps)
  <-> exists t', In (Rejected t' e) ps /\ t = Nat.max now t'.
Proof.
  rewrite in_map_iff. split.
  - intros ([| t1 v1 | t1 e1] & Hp & Hin); cbn [seen_at] in Hp; try discriminate.
    injection Hp as <- <-. eauto.
  - intros (t' & Hin & ->). exists (Rejected t' e). split; [reflexivity | exact Hin].
Qed.

Lemma Promise_all_rejected {A} now (ps : list (promise A)) t e :
  Promise_all now ps = Rejected t e ->
  exists t', In (Rejected t' e) ps /\ t = Nat.max now t'
             /\ forall t'' e'', In (Rejected t'' e'') ps
                                -> (Nat.max now t' <= Nat.max now t'')%nat.
Proof.
  unfold Promise_all.
  destruct (first_rejection (map (seen_at now) ps)) as [[t0 e0] |] eqn:E.
  - intros H. injection H as <- <-.
    destruct (first_rejection_Some _ t0 e0 E) as [Hin Hmin].
    apply seen_at_rejected in Hin as (t' & Hin & ->).
    exists t'. split; [exact Hin |]. split; [reflexivity |].
    intros t'' e'' Hin''. apply (Hmin _ e''). apply seen_at_rejected. eauto.
  - destruct (all_fulfilled now ps) as [[t1 vs1] |]; discriminate.
Qed.

Lemma Promise_all_rejects {A} now (ps : list (promise A)) t0 e0 :
  In (Rejected t0 e0) ps -> exists t e, Promise_all now ps = Rejected t e.
Proof.
  intros Hin. unfold Promise_all.
  destruct (first_rejection (map (seen_at now) ps)) as [[t e] |] eqn:E; [eauto |].
  exfalso. apply (proj1 (first_rejection_None _) E (Nat.max now t0) e0).
  apply seen_at_rejected. eauto.
Qed.

Lemma Promise_all_after {A} now (ps : list (promise A)) :
  match Promise_all now ps with
  | Pending => True
  | Fulfilled t _ => (now <= t)%nat
  | Rejected t _ => (now <= t)%nat
  end.
Proof.
  destruct (Promise_all now ps) as [| t vs | t e] eqn:E; [exact I | |].
  - apply (Promise_all_fulfilled now ps t vs E).
  - destruct (Promise_all_rejected now ps t e E) as (t' & _ & -> & _). lia.
Qed.

Section FanOut.
Import Load.
Variable fate : key -> nat -> promise unit.
Variable GLTFProperty_load : nat -> promise unit.
Variable extensions : list (string * Extensions.config).
Variable g : GLTF.

Lemma advanced_refl now s : advanced fate g now s s.
Proof. split; auto. Qed.

Lemma advanced_trans now s1 s2 s3 :
  advanced fate g now s1 s2 -> advanced fate g now s2 s3 -> advanced fate g now s1 s3.
Proof.
  intros [H12 L12] [H23 L23]. split; [| auto].
  intros k. destruct (H23 k) as [E | (N2 & S3 & I3)].
  - rewrite E. destruct (H12 k) as [E' | (N1 & S2 & I2)]; [left; exact E' |].
    right. auto.
  - destruct (H12 k) as [E' | (N1 & S2 & I2)]; [| congruence].
    right. rewrite <- E'. auto.
Qed.

Lemma child_advanced now s s' k :
  advanced fate g now s s' -> child fate g s' now k = child fate g s now k.
Proof.
  intros [H _]. unfold child. destruct (H k) as [E | (N & S & _)].
  - rewrite E. reflexivity.
  - rewrite N, S. reflexivity.
Qed.

Lemma memo_advanced now s s' k p :
  advanced fate g now s s' -> memo s !! k = Some p -> memo s' !! k = Some p.
Proof. intros [H _] Hk. destruct (H k) as [E | (N & _)]; congruence. Qed.

Lemma call_all_leaf ks : forall s now,
  call_all (map (leaf_load fate) ks) s now
  = ({| memo := memo s; started := started s ++ map (fun k => (now, k)) ks |},
     map (fun k => fate k now) ks).
Proof.
  induction ks as [| k ks IH]; intros s now; cbn [map call_all].
  - rewrite app_nil_r. destruct s; reflexivity.
  - unfold leaf_load at 1. rewrite IH. cbn [log memo started].
    rewrite <- app_assoc. reflexivity.
Qed.

Lemma await_settled {A} (p : promise A) s now :
  match p with
  | Pending => True
  | Fulfilled t _ => (now <= t)%nat
  | Rejected t _ => (now <= t)%nat
  end ->
  await p (fun v s' t => (s', Fulfilled t v)) s now = (s, p).
Proof.
  unfold await. destruct p as [| t v | t e]; intros H; [reflexivity | |];
    rewrite Nat.max_r by exact H; reflexivity.
Qed.

Lemma item_load_spec k s now :
  let r := item_load fate g k s now in
  r.2 = item_fate fate g k now
  /\ memo r.1 = memo s
  /\ In (now, k) (started r.1)
  /\ (forall e, In e (started s) -> In e (started r.1)).
Proof.
  unfold item_load, item_fate. destruct (mesh_index k) as [i |].
  - unfold Mesh_load. rewrite call_all_leaf.
    rewrite await_settled by apply Promise_all_after. cbn [fst snd memo started log].
    split; [reflexivity |]. split; [reflexivity |]. split.
    + apply in_or_app. left. apply in_or_app. right. left. reflexivity.
    + intros e He. apply in_or_app. left. apply in_or_app. left. exact He.
  - unfold leaf_load. cbn [fst snd log memo started].
    split; [reflexivity |]. split; [reflexivity |]. split.
    + apply in_or_app. right. left. reflexivity.
    + intros e He. apply in_or_app. left. exact He.
Qed.

Lemma loadOnce_item k s now :
  let r := loadOnce (item_load fate g) k s now in
  advanced fate g now s r.1
  /\ r.2 = child fate g s now k
  /\ memo r.1 !! k = Some (child fate g s now k).
Proof.
  unfold loadOnce, child. destruct (memo s !! k) as [p |] eqn:E; cbn [fst snd default].
  - split; [apply advanced_refl |]. auto.
  - pose proof (item_load_spec k s now) as (Hp & Hm & Hin & Hmono).
    destruct (item_load fate g k s now) as [s1 p]. cbn [fst snd] in *. subst p.
    cbn [memoize memo started]. split; [| split; [reflexivity | rewrite lookup_insert_eq; reflexivity]].
    split; [| exact Hmono].
    intros k'. cbn [memoize memo started]. destruct (decide (k = k')) as [<- | Hne].
    + right. rewrite lookup_insert_eq. auto.
    + left. rewrite lookup_insert_ne by exact Hne. rewrite Hm. reflexivity.
Qed.

Lemma call_all_loadOnce ks now : forall s,
  let r := call_all (map (loadOnce (item_load fate g)) ks) s now in
  advanced fate g now s r.1
  /\ r.2 = map (child fate g s now) ks
  /\ (forall k, In k ks -> memo r.1 !! k = Some (child fate g s now k)).
Proof.
  induction ks as [| k ks IH]; intros s; cbn [map call_all].
  - cbn. split; [apply advanced_refl |]. split; [reflexivity | intros k []].
  - pose proof (loadOnce_item k s now) as (Ha & Hp & Hk).
    destruct (loadOnce (item_load fate g) k s now) as [s1 p]. cbn [fst snd] in *.
    specialize (IH s1).
    destruct (call_all (map (loadOnce (item_load fate g)) ks) s1 now) as [s2 ps].
    cbn [fst snd] in *. destruct IH as (Ha2 & Hps & Hks).
    split; [eapply advanced_trans; eassumption |]. split.
    + rewrite Hp, Hps. f_equal. apply map_ext. intros k'. apply child_advanced. exact Ha.
    + intros k' [<- | Hin].
      * eapply memo_advanced; eassumption.
      * rewrite (Hks k' Hin). f_equal. apply child_advanced. exact Ha.
Qed.

Lemma load_collection_spec c s now :
  let r := load_collection fate g c s now in
  advanced fate g now s r.1
  /\ r.2 = Promise_all now (map (child fate g s now) (items g c))
  /\ (forall k, In k (items g c) -> memo r.1 !! k = Some (child fate g s now k)).
Proof.
  unfold load_collection.
  pose proof (call_all_loadOnce (items g c) now s) as (Ha & Hps & Hk).
  destruct (call_all (map (loadOnce (item_load fate g)) (items g c)) s now) as [s1 ps].
  cbn [fst snd] in *. subst ps. auto.
Qed.

Lemma call_all_collections cs now : forall s,
  let r := call_all (map (load_collection fate g) cs) s now in
  advanced fate g now s r.1
  /\ r.2 = map (fun c => Promise_all now (map (child fate g s now) (items g c))) cs
  /\ (forall c k, In c cs -> In k (items g c) ->
        memo r.1 !! k = Some (child fate g s now k)).
Proof.
  induction cs as [| c cs IH]; intros s; cbn [map call_all].
  - cbn. split; [apply advanced_refl |]. split; [reflexivity | intros c k []].
  - pose proof (load_collection_spec c s now) as (Ha & Hp & Hk).
    destruct (load_collection fate g c s now) as [s1 p]. cbn [fst snd] in *.
    specialize (IH s1).
    destruct (call_all (map (load_collection fate g) cs) s1 now) as [s2 ps].
    cbn [fst snd] in *. destruct IH as (Ha2 & Hps & Hks).
    split; [eapply advanced_trans; eassumption |]. split.
    + rewrite Hp, Hps. f_equal. apply map_ext. intros c'. f_equal.
      apply map_ext. intros k'. apply child_advanced. exact Ha.
    + intros c' k' [<- | Hin] Hk'.
      * eapply memo_advanced; [eassumption | auto].
      * rewrite (Hks c' k' Hin Hk'). f_equal. apply child_advanced. exact Ha.
Qed.

(** The promises the root waits for, one list per collection. *)
Lemma GLTF_load_spec s now t1 vs :
  Promise_all now (extension_loads extensions now) = Fulfilled t1 vs ->
  let children :=
    map (fun c => Promise_all t1 (map (child fate g s t1) (items g c))) collections in
  let r := GLTF_load fate GLTFProperty_load extensions g s now in
  advanced fate g t1 s r.1
  /\ (forall c k, In c collections -> In k (items g c) ->
        memo r.1 !! k = Some (child fate g s t1 k))
  /\ r.2 = match Promise_all t1 children with
           | Pending => Pending
           | Rejected t e => Rejected t e
           | Fulfilled t2 _ =>
               match GLTFProperty_load t2 with
               | Pending => Pending
               | Rejected t e => Rejected (Nat.max t2 t) e
               | Fulfilled t3 _ => Fulfilled (Nat.max t2 t3) g
               end
           end.
Proof.
  intros Hext children r.
  assert (Ht1 : Nat.max now t1 = t1).
  { pose proof (Promise_all_after now (extension_loads extensions now)) as H.
    rewrite Hext in H. lia. }
  assert (Hrun : r = let '(s2, ps) :=
                       call_all (map (load_collection fate g) collections) s t1 in
                     await (Promise_all t1 ps)
                       (fun _ s3 t2 =>
                          await (GLTFProperty_load t2)
                            (fun _ s4 t3 => (s4, Fulfilled t3 g)) s3 t2) s2 t1).
  { subst r. unfold GLTF_load. unfold await at 1. rewrite Hext, Ht1. reflexivity. }
  rewrite Hrun. clear Hrun r.
  pose proof (call_all_collections collections t1 s) as (Ha & Hps & Hk).
  destruct (call_all (map (load_collection fate g) collections) s t1) as [s2 ps].
  cbn [fst snd] in *. subst ps. fold children.
  pose proof (Promise_all_after t1 children) as Hafter.
  unfold await. destruct (Promise_all t1 children) as [| t2 v2 | t2 e2]; cbn [fst snd].
  - split; [exact Ha | split; [exact Hk | reflexivity]].
  - rewrite (Nat.max_r t1 t2) by exact Hafter.
    destruct (GLTFProperty_load t2) as [| t3 v3 | t3 e3]; cbn [fst snd];
      (split; [exact Ha | split; [exact Hk | reflexivity]]).
  - rewrite (Nat.max_r t1 t2) by exact Hafter.
    split; [exact Ha | split; [exact Hk | reflexivity]].
Qed.

End FanOut.

Lemma root_load_rejected fate base exts g s now t1 vs c k t0 e0 :
  Promise_all now (Load.extension_loads exts now) = Fulfilled t1 vs ->
  In c Load.collections -> In k (Load.items g c) ->
  Load.child fate g s t1 k = Rejected t0 e0 ->
  exists t e,
    (Load.GLTF_load fate base exts g s now).2 = Rejected t e
    /\ exists c' k' t',
         In c' Load.collections /\ In k' (Load.items g c')
         /\ Load.child fate g s t1 k' = Rejected t' e /\ t = Nat.max t1 t'.
Proof.
  intros Hext Hc Hk Hrej.
  destruct (GLTF_load_spec fate base exts g s now t1 vs Hext) as (_ & _ & Hp).
  set (inner := fun c => Promise_all t1 (map (Load.child fate g s t1) (Load.items g c))) in *.
  destruct (Promise_all_rejects t1 (map (Load.child fate g s t1) (Load.items g c)) t0 e0)
    as (ti & ei & Hinner).
  { rewrite <- Hrej. apply in_map. exact Hk. }
  destruct (Promise_all_rejects t1 (map inner Load.collections) ti ei) as (t & e & Houter).
  { rewrite <- Hinner. apply (in_map inner). exact Hc. }
  rewrite Houter in Hp. exists t, e. split; [exact Hp |].
  destruct (Promise_all_rejected _ _ _ _ Houter) as (t' & Hin & -> & _).
  apply in_map_iff in Hin as (c' & Hc' & Hin').
  destruct (Promise_all_rejected _ _ _ _ Hc') as (t'' & Hin'' & -> & _).
  apply in_map_iff in Hin'' as (k' & Hk' & Hin'').
  exists c', k', t''. split; [exact Hin' |]. split; [exact Hin'' |].
  split; [exact Hk' | lia].
Qed.

Lemma Mesh_load_spec fate n self s now :
  Load.Mesh_load fate n self s now
  = ({| Load.memo := Load.memo s;
        Load.started := (Load.started s ++ [(now, self)])
                          ++ map (fun k => (now, k)) (Load.primitive_keys self n) |},
     Promise_all now (map (fun k => fate k now) (Load.primitive_keys self n))).
Proof.
  unfold Load.Mesh_load. rewrite call_all_leaf.
  rewrite await_settled by apply Promise_all_after. reflexivity.
Qed.

(** C5, as the code has it. Once the [load] hooks of the registered
    extensions are fulfilled (at [t1]), the root's [load] calls [loadOnce]
    on every record of the eleven collections it lists ([buffers],
    [bufferViews], [accessors], [images], [textures], [materials], [skins],
    [meshes], [nodes], [scenes], [animations]; not [samplers], not
    [cameras]), all at the instant [t1]: each has its promise memoized, and
    those not loaded before have their [load] body entered at [t1]. The root
    is fulfilled only when each of these promises is, and not before. If one
    of them is rejected the root is rejected, with the reason of a rejected
    child; if only one child is rejected, with that child's reason, at the
    instant the child is. A mesh's [load] enters the [load] of all its
    primitives at once, is fulfilled only when each of them is, and is
    rejected with the reason of a rejected primitive. *)
Theorem root_load_fans_out (fate : Load.key -> nat -> promise unit)
    (base : nat -> promise unit) (exts : list (string * Extensions.config))
    (g : GLTF) (s : Load.state) (now t1 : nat) (vs : list unit) :
  Promise_all now (Load.extension_loads exts now) = Fulfilled t1 vs ->
  let r := Load.GLTF_load fate base exts g s now in
  let child := Load.child fate g s t1 in
  (forall c k, In c Load.collections -> In k (Load.items g c) ->
      Load.memo r.1 !! k = Some (child k)
      /\ (Load.memo s !! k = None -> In (t1, k) (Load.started r.1)))
  /\ (forall t g', r.2 = Fulfilled t g' ->
      g' = g
      /\ forall c k, In c Load.collections -> In k (Load.items g c) ->
           exists t', child k = Fulfilled t' tt /\ (t' <= t)%nat)
  /\ (forall c k t0 e0, In c Load.collections -> In k (Load.items g c) ->
      child k = Rejected t0 e0 ->
      exists t e, r.2 = Rejected t e
        /\ exists c' k' t', In c' Load.collections /\ In k' (Load.items g c')
             /\ child k' = Rejected t' e /\ t = Nat.max t1 t')
  /\ (forall c k t0 e0, In c Load.collections -> In k (Load.items g c) ->
      child k = Rejected t0 e0 ->
      (forall c' k' t' e', In c' Load.collections -> In k' (Load.items g c') ->
         child k' = Rejected t' e' -> k' = k) ->
      r.2 = Rejected (Nat.max t1 t0) e0)
  /\ (forall n self s' now',
      let m := Load.Mesh_load fate n self s' now' in
      (forall pk, In pk (Load.primitive_keys self n) -> In (now', pk) (Load.started m.1))
      /\ (forall t us, m.2 = Fulfilled t us ->
          forall pk, In pk (Load.primitive_keys self n) ->
            exists t', fate pk now' = Fulfilled t' tt /\ (t' <= t)%nat)
      /\ (forall pk t0 e0, In pk (Load.primitive_keys self n) ->
          fate pk now' = Rejected t0 e0 ->
          exists t e, m.2 = Rejected t e
            /\ exists pk' t', In pk' (Load.primitive_keys self n)
                 /\ fate pk' now' = Rejected t' e /\ t = Nat.max now' t')).
Proof.
  intros Hext r child.
  destruct (GLTF_load_spec fate base exts g s now t1 vs Hext) as (Ha & Hmemo & Hp).
  fold r in Ha, Hmemo, Hp. fold child in Hmemo.
  split; [| split; [| split; [| split]]].
  - intros c k Hc Hk. split; [apply (Hmemo c k Hc Hk) |].
    intros Hnone. destruct Ha as [Ha _].
    destruct (Ha k) as [E | (_ & _ & Hin)]; [| exact Hin].
    rewrite (Hmemo c k Hc Hk), Hnone in E. discriminate.
  - intros t g' Hful. rewrite Hp in Hful.
    destruct (Promise_all t1 _) as [| t2 v2 | t2 e2] eqn:Houter; try discriminate.
    destruct (base t2) as [| t3 v3 | t3 e3]; try discriminate.
    injection Hful as <- <-. split; [reflexivity |].
    intros c k Hc Hk.
    destruct (Promise_all_fulfilled _ _ _ _ Houter) as [_ Hall].
    destruct (Hall (Promise_all t1 (map child (Load.items g c)))) as (ti & vi & Hinner & Hle).
    { apply (in_map (fun c => Promise_all t1 (map child (Load.items g c)))). exact Hc. }
    destruct (Promise_all_fulfilled _ _ _ _ Hinner) as [_ Hall'].
    destruct (Hall' (child k)) as (t' & [] & Hchild & Hle'); [apply in_map; exact Hk |].
    exists t'. split; [exact Hchild | lia].
  - intros c k t0 e0 Hc Hk Hrej.
    apply (root_load_rejected fate base exts g s now t1 vs c k t0 e0); assumption.
  - intros c k t0 e0 Hc Hk Hrej Honly.
    destruct (root_load_rejected fate base exts g s now t1 vs c k t0 e0 Hext Hc Hk Hrej)
      as (t & e & Hr & c' & k' & t' & Hc' & Hk' & Hrej' & ->).
    fold r in Hr. fold child in Hrej'.
    rewrite (Honly c' k' t' e Hc' Hk' Hrej') in Hrej'.
    rewrite Hrej in Hrej'. injection Hrej' as -> ->. exact Hr.
  - intros n self s' now' m. unfold m. rewrite Mesh_load_spec. cbn [fst snd Load.started].
    split; [| split].
    + intros pk Hpk. apply in_or_app. right.
      apply (in_map (fun k => (now', k))). exact Hpk.
    + intros t us Hful pk Hpk.
      destruct (Promise_all_fulfilled _ _ _ _ Hful) as [_ Hall].
      destruct (Hall (fate pk now')) as (t' & [] & Hf & Hle);
        [apply (in_map (fun k => fate k now')); exact Hpk |].
      exists t'. auto.
    + intros pk t0 e0 Hpk Hrej.
      destruct (Promise_all_rejects now' (map (fun k => fate k now')
                                              (Load.primitive_keys self n)) t0 e0)
        as (t & e & Hr).
      { rewrite <- Hrej. apply (in_map (fun k => fate k now')). exact Hpk. }
      exists t, e. split; [exact Hr |].
      destruct (Promise_all_rejected _ _ _ _ Hr) as (t' & Hin & -> & _).
      apply in_map_iff in Hin as (pk' & Hpk' & Hin').
      exists pk', t'. auto.
Qed.

Lemma root_load_fans_out_witness :
  (Load.GLTF_load
     (fun k now => match k with
                   | [(_, 0%nat)] => Rejected (now + 7)%nat (Error "fetch failed")
                   | _ => Fulfilled now tt
                   end)
     (fun now => Fulfilled now tt) [] (constructed filmed) Load.initial 0%nat).2
  = Rejected 7%nat (Error "fetch failed").
Proof.
  pose proof (root_load_fans_out
    (fun k now => match k with
                  | [(_, 0%nat)] => Rejected (now + 7)%nat (Error "fetch failed")
                  | _ => Fulfilled now tt
                  end)
    (fun now => Fulfilled now tt) [] (constructed filmed) Load.initial 0%nat 0%nat []
    eq_refl) as (_ & _ & _ & Hone & _).
  apply (Hone "buffers" [("buffers", 0%nat)] 7%nat (Error "fetch failed")).
  - left. reflexivity.
  - vm_compute. left. reflexivity.
  - reflexivity.
  - intros c' k' t' e' Hc' Hk' Hrej.
    unfold Load.collections in Hc'.
    repeat (destruct Hc' as [<- | Hc'];
            [vm_compute in Hk';
             first [contradiction | destruct Hk' as [<- | []]; reflexivity] |]).
    destruct Hc'.
Defined.

(** C5, as stated, fails at the cameras (and the samplers): the root of
    [{asset: {version: "2.0"}, buffers: [{}], cameras: [{}]}] has one camera;
    its [load], with every own load fulfilled at once, is fulfilled, has
    entered the buffer's [load] and has neither called [loadOnce] on the
    camera nor entered its [load]. *)
Lemma cameras_are_not_loaded :
  GLTF_new Number_decimal [] (Some filmed) "model.gltf" = Normal (constructed filmed)
  /\ collection_size (this (constructed filmed)) "cameras" = 1%nat
  /\ let r := Load.GLTF_load (fun _ now => Fulfilled now tt)
                (fun now => Fulfilled now tt) [] (constructed filmed)
                Load.initial 0%nat in
     r.2 = Fulfilled 0%nat (constructed filmed)
     /\ Load.times_started [("buffers", 0%nat)] r.1 = 1%nat
     /\ Load.memo r.1 !! [("cameras", 0%nat)] = None
     /\ Load.times_started [("cameras", 0%nat)] r.1 = 0%nat.
Proof.
  split; [reflexivity |]. split; [reflexivity |].
  split; [reflexivity |]. split; [reflexivity |]. split; vm_compute; reflexivity.
Qed.

(** ** The binary container *)

Lemma GLTF_load_returns_this fate base exts g s now t g' :
  (Load.GLTF_load fate base exts g s now).2 = Fulfilled t g' -> g' = g.
Proof.
  unfold Load.GLTF_load, Load.await.
  destruct (Promise_all now (Load.extension_loads exts now)) as [| t1 v1 | t1 e1];
    cbn [snd]; try discriminate.
  destruct (Load.call_all _ s (Nat.max now t1)) as [s2 ps].
  destruct (Promise_all (Nat.max now t1) ps) as [| t2 v2 | t2 e2];
    cbn [snd]; try discriminate.
  destruct (base _) as [| t3 v3 | t3 e3]; cbn [snd]; try discriminate.
  intros H. injection H as _ <-. reflexivity.
Qed.

Lemma byte_to_Z_nonneg b : 0 <= Container.byte_to_Z b < 256.
Proof.
  unfold Container.byte_to_Z. pose proof (Byte.to_N_bounded b). lia.
Qed.

Lemma byte_to_of_Z z : Container.byte_to_Z (Container.byte_of_Z z) = z mod 256.
Proof.
  unfold Container.byte_to_Z, Container.byte_of_Z.
  pose proof (Z.mod_pos_bound z 256 ltac:(lia)) as Hb.
  destruct (Byte.of_N (Z.to_N (z mod 256))) as [b |] eqn:E.
  - apply Byte.to_of_N in E. rewrite E. lia.
  - apply Byte.of_N_None_iff in E. lia.
Qed.

Lemma u32_value (n : Z) :
  0 <= n < 2 ^ 32 ->
  n mod 256 + 2 ^ 8 * ((n / 2 ^ 8) mod 256) + 2 ^ 16 * ((n / 2 ^ 16) mod 256)
  + 2 ^ 24 * ((n / 2 ^ 24) mod 256) = n.
Proof.
  intros H.
  change (2 ^ 8) with 256. change (2 ^ 16) with 65536.
  change (2 ^ 24) with 16777216. change (2 ^ 32) with 4294967296 in H.
  pose proof (Z.div_mod n 256 ltac:(lia)).
  pose proof (Z.div_mod (n / 256) 256 ltac:(lia)).
  pose proof (Z.div_mod (n / 65536) 256 ltac:(lia)).
  pose proof (Z.mod_small (n / 16777216) 256) as Hs.
  assert (n / 65536 = n / 256 / 256) by (rewrite Z.div_div by lia; reflexivity).
  assert (n / 16777216 = n / 65536 / 256) by (rewrite Z.div_div by lia; reflexivity).
  assert (0 <= n / 16777216 < 256).
  { split; [apply Z.div_pos; lia | apply Z.div_lt_upper_bound; lia]. }
  rewrite Hs by assumption. lia.
Qed.

Lemma u32_at_nonneg buffer i : 0 <= Container.u32_at buffer i.
Proof.
  unfold Container.u32_at.
  pose proof (byte_to_Z_nonneg (nth (4 * i + 0) buffer Byte.x00)).
  pose proof (byte_to_Z_nonneg (nth (4 * i + 1) buffer Byte.x00)).
  pose proof (byte_to_Z_nonneg (nth (4 * i + 2) buffer Byte.x00)).
  pose proof (byte_to_Z_nonneg (nth (4 * i + 3) buffer Byte.x00)).
  lia.
Qed.

(** The layout the writer produces: twenty bytes, the JSON text, eight
    bytes, the payload. *)
Lemma encode_layout version json bin :
  Container.encode version json bin
  = (Container.u32 Container.MAGIC_NUMBER_BINARY_FORMAT ++ Container.u32 version
       ++ Container.u32 (12 + Z.of_nat (length (Container.chunk Container.CHUNK_JSON json
                                                  ++ Container.chunk Container.CHUNK_BIN bin)))
       ++ Container.u32 (Z.of_nat (length json)) ++ Container.u32 Container.CHUNK_JSON)
    ++ json
    ++ (Container.u32 (Z.of_nat (length bin)) ++ Container.u32 Container.CHUNK_BIN)
    ++ bin.
Proof. reflexivity. Qed.

Lemma encode_length version json bin :
  length (Container.encode version json bin) = (28 + length json + length bin)%nat.
Proof. rewrite encode_layout, !length_app. cbn [length Container.u32]. lia. Qed.

Lemma encode_magic version json bin :
  Container.u32_at (Container.encode version json bin) 0
  = Container.MAGIC_NUMBER_BINARY_FORMAT.
Proof.
  unfold Container.u32_at. cbn [Container.encode Container.u32 app nth Nat.mul Nat.add].
  rewrite !byte_to_of_Z. reflexivity.
Qed.

Lemma encode_jsonLength version json bin :
  Z.of_nat (length json) < 2 ^ 32 ->
  Container.u32_at (Container.encode version json bin) 3 = Z.of_nat (length json).
Proof.
  intros H. unfold Container.u32_at.
  cbn [Container.encode Container.chunk Container.u32 app nth Nat.mul Nat.add].
  rewrite !byte_to_of_Z. apply u32_value. lia.
Qed.

Lemma encode_json_view version json bin :
  Container.view (Container.encode version json bin) (5 * 4) (Z.of_nat (length json))
  = Normal json.
Proof.
  unfold Container.view. rewrite encode_length.
  destruct (Z.leb_spec 0 (Z.of_nat (length json))); [| lia].
  destruct (Z.leb_spec (5 * 4 + Z.of_nat (length json))
                       (Z.of_nat (28 + length json + length bin))); [| lia].
  cbn [andb]. rewrite Nat2Z.id. f_equal.
  change (Z.to_nat (5 * 4)) with 20%nat. rewrite encode_layout.
  rewrite drop_app_length' by reflexivity.
  apply take_app_length.
Qed.

Lemma encode_bin_view version json bin :
  Container.view (Container.encode version json bin)
    (7 * 4 + Z.of_nat (length json)) (Z.of_nat (length bin))
  = Normal bin.
Proof.
  unfold Container.view. rewrite encode_length.
  destruct (Z.leb_spec 0 (7 * 4 + Z.of_nat (length json))); [| lia].
  destruct (Z.leb_spec 0 (Z.of_nat (length bin))); [| lia].
  destruct (Z.leb_spec (7 * 4 + Z.of_nat (length json) + Z.of_nat (length bin))
                       (Z.of_nat (28 + length json + length bin))); [| lia].
  cbn [andb]. rewrite Nat2Z.id. f_equal.
  replace (Z.to_nat (7 * 4 + Z.of_nat (length json))) with (20 + (length json + 8))%nat by lia.
  rewrite encode_layout. rewrite <- drop_drop.
  rewrite drop_app_length' by reflexivity.
  rewrite <- drop_drop. rewrite drop_app_length.
  rewrite drop_app_length' by reflexivity.
  apply firstn_all.
Qed.

Lemma encode_header version json bin :
  exists h, Container.header (Container.encode version json bin) = Normal h
            /\ nth 0 h 0 = Container.u32_at (Container.encode version json bin) 0
            /\ nth 3 h 0 = Container.u32_at (Container.encode version json bin) 3.
Proof.
  unfold Container.header. rewrite encode_length.
  destruct (Nat.ltb_spec (28 + length json + length bin) 16); [lia |].
  eexists. split; [reflexivity |]. split; reflexivity.
Qed.

Lemma set_bytes_exact (region source : list Byte.byte) :
  length region = length source ->
  Container.set_bytes region source = Normal source.
Proof.
  intros H. unfold Container.set_bytes.
  destruct (Nat.leb_spec (length source) (length region)); [| lia].
  rewrite drop_ge by lia. rewrite app_nil_r. reflexivity.
Qed.

(** C6, as the code has it: the round trip holds for a document and a
    payload that match. Let [json] be the bytes of a JSON text that parses
    to the document [J] (less than 2^32 of them), and [bin] a payload; let
    [J] construct to a graph whose first buffer declares the integer
    [byteLength = |bin|] and owns a region of that size. In the container written from [json] and [bin] (magic
    0x46546C67, version, total length, the length-prefixed JSON chunk, the
    BIN chunk) the first word is the magic, the fourth is the length of
    [json], and the bytes at offset 20 of that length are [json]. The static
    [load] parses exactly these bytes, so it constructs the graph of [J], and
    copies [bin], byte for byte, into the region of the first buffer; it
    then goes on with the instance [load] of that graph, which, when
    fulfilled, is fulfilled with that graph. *)
Theorem container_round_trip (ToIndex : value -> option Z)
    (JSON_parse : list Byte.byte -> completion glTF) (Number : string -> number)
    (exts : list (string * Extensions.config)) (uri : string) (version : Z)
    (J : glTF) (json bin : list Byte.byte) (G : GLTF)
    (buffer0 : record) (others : list value)
    (region : list Byte.byte) (regions : list (list Byte.byte)) :
  JSON_parse json = Normal J ->
  Z.of_nat (length json) < 2 ^ 32 ->
  GLTF_new Number exts (Some J) uri = Normal G ->
  get (this G) "buffers" = array (record_ buffer0 :: others) ->
  get buffer0 "byteLength" = integer (Z.of_nat (length bin)) ->
  arrayBuffers G = region :: regions ->
  length region = length bin ->
  let container := Container.encode version json bin in
  let loaded := {| this := this G; uri_ := uri_ G; arrayBuffers := bin :: regions |} in
  Container.u32_at container 0 = Container.MAGIC_NUMBER_BINARY_FORMAT
  /\ Container.u32_at container 3 = Z.of_nat (length json)
  /\ Container.view container 20 (Container.u32_at container 3) = Normal json
  /\ Container.construct ToIndex JSON_parse Number exts uri container = Normal loaded
  /\ (forall fetch fate base s now t,
        fetch uri now = Fulfilled t container ->
        Container.load ToIndex JSON_parse Number exts fetch fate base uri s now
        = Load.GLTF_load fate base exts loaded s (Nat.max now t)
        /\ forall t' G',
             (Container.load ToIndex JSON_parse Number exts fetch fate base uri s now).2
             = Fulfilled t' G' -> G' = loaded).
Proof.
  intros Hparse Hlen HG Hbuffers Hsize Hregions Hregion container loaded.
  pose proof (encode_magic version json bin) as Hmagic.
  pose proof (encode_jsonLength version json bin Hlen) as HjsonLength.
  pose proof (encode_json_view version json bin) as Hview.
  fold container in Hmagic, HjsonLength, Hview.
  assert (Hconstruct : Container.construct ToIndex JSON_parse Number exts uri container
                       = Normal loaded).
  { unfold Container.construct.
    destruct (encode_header version json bin) as (h & Hh & H0 & H3).
    fold container in Hh, H0, H3. rewrite Hh. cbn [bind].
    rewrite H0, Hmagic, Z.eqb_refl. rewrite H3, HjsonLength, Hview. cbn [bind].
    rewrite Hparse. cbn [bind]. rewrite HG. cbn [bind].
    rewrite Hbuffers, Hregions, Hsize. cbn [Container.payload].
    unfold container. rewrite encode_bin_view. cbn [bind].
    rewrite (set_bytes_exact region bin Hregion). reflexivity. }
  split; [exact Hmagic |]. split; [exact HjsonLength |].
  split; [rewrite HjsonLength; exact Hview |]. split; [exact Hconstruct |].
  intros fetch fate base s now t Hfetch.
  assert (Hload : Container.load ToIndex JSON_parse Number exts fetch fate base uri s now
                  = Load.GLTF_load fate base exts loaded s (Nat.max now t)).
  { unfold Container.load, Load.await. rewrite Hfetch, Hconstruct. reflexivity. }
  split; [exact Hload |]. intros t' G' Hful. rewrite Hload in Hful.
  eapply GLTF_load_returns_this. exact Hful.
Qed.

Lemma container_round_trip_witness :
  Container.construct ToIndex_sample JSON_parse_sample Number_decimal [] "model.glb"
    (Container.encode 2 text_buffered [Byte.x01; Byte.x02; Byte.x03])
  = Normal {| this := this (constructed (buffered 3)); uri_ := "model.glb";
              arrayBuffers := [[Byte.x01; Byte.x02; Byte.x03]] |}.
Proof.
  destruct (container_round_trip ToIndex_sample JSON_parse_sample Number_decimal [] "model.glb" 2
              (buffered 3) text_buffered [Byte.x01; Byte.x02; Byte.x03]
              {| this := this (constructed (buffered 3)); uri_ := "model.glb";
                 arrayBuffers := [[Byte.x00; Byte.x00; Byte.x00]] |}
              (Rec [] [("byteLength", integer 3)]) []
              [Byte.x00; Byte.x00; Byte.x00] [])
    as (_ & _ & _ & H & _).
  - reflexivity.
  - vm_compute. reflexivity.
  - reflexivity.
  - reflexivity.
  - reflexivity.
  - reflexivity.
  - reflexivity.
  - exact H.
Defined.

(** C6, as stated, fails for a document and a payload that do not match.
    The container of [{asset: {version: "2.0"}}], which declares no buffer,
    and a payload of one byte does not load: [gltf.buffers[0]] is
    [undefined] and its use throws a [TypeError]. The container of a
    document whose first buffer declares [byteLength: 3] and a payload of
    one byte does not load either: the view on the payload throws a
    [RangeError]. With a payload of four bytes it loads, and the region of
    the first buffer holds the first three of them only. *)
Lemma round_trip_needs_a_matching_buffer :
  Container.construct ToIndex_sample JSON_parse_sample Number_decimal [] "model.glb"
    (Container.encode 2 text_versioned [Byte.x01])
  = Throw TypeError
  /\ Container.construct ToIndex_sample JSON_parse_sample Number_decimal [] "model.glb"
       (Container.encode 2 text_buffered [Byte.x01])
     = Throw RangeError
  /\ Container.construct ToIndex_sample JSON_parse_sample Number_decimal [] "model.glb"
       (Container.encode 2 text_buffered [Byte.x01; Byte.x02; Byte.x03; Byte.x04])
     = Normal {| this := this (constructed (buffered 3)); uri_ := "model.glb";
                 arrayBuffers := [[Byte.x01; Byte.x02; Byte.x03]] |}.
Proof. split; [| split]; vm_compute; reflexivity. Qed.

Lemma u32_at_besides (pre x y : list Byte.byte) i :
  length pre = 16%nat -> (i < 4)%nat ->
  Container.u32_at (pre ++ x) i = Container.u32_at (pre ++ y) i.
Proof.
  intros Hpre Hi. unfold Container.u32_at.
  rewrite !(app_nth1 pre) by lia. reflexivity.
Qed.

Lemma header_besides (pre ty ty' rest : list Byte.byte) :
  length pre = 16%nat -> length ty = 4%nat -> length ty' = 4%nat ->
  Container.header (pre ++ ty ++ rest) = Container.header (pre ++ ty' ++ rest).
Proof.
  intros Hpre Hty Hty'. unfold Container.header.
  rewrite !length_app, Hty, Hty'.
  destruct (length pre + (4 + length rest) <? 16)%nat; [reflexivity |].
  f_equal. apply map_ext_in. intros i Hi.
  apply u32_at_besides; [exact Hpre |]. cbn in Hi. lia.
Qed.

Lemma view_besides (pre ty ty' rest : list Byte.byte) offset len :
  length pre = 16%nat -> length ty = 4%nat -> length ty' = 4%nat ->
  20 <= offset ->
  Container.view (pre ++ ty ++ rest) offset len
  = Container.view (pre ++ ty' ++ rest) offset len.
Proof.
  intros Hpre Hty Hty' Hoff. unfold Container.view.
  rewrite !length_app, Hty, Hty'.
  destruct ((0 <=? offset) && (0 <=? len) && _)%Z; [| reflexivity].
  f_equal. f_equal.
  replace (Z.to_nat offset) with (20 + (Z.to_nat offset - 20))%nat by lia.
  rewrite !app_assoc, <- !drop_drop.
  rewrite !drop_app_length' by (rewrite length_app; lia). reflexivity.
Qed.

Lemma payload_besides ToIndex (pre ty ty' rest : list Byte.byte) offset v :
  length pre = 16%nat -> length ty = 4%nat -> length ty' = 4%nat ->
  20 <= offset ->
  Container.payload ToIndex (pre ++ ty ++ rest) offset v
  = Container.payload ToIndex (pre ++ ty' ++ rest) offset v.
Proof.
  intros Hpre Hty Hty' Hoff. unfold Container.payload.
  assert (Hv : forall n, Container.view (pre ++ ty ++ rest) offset n
                         = Container.view (pre ++ ty' ++ rest) offset n)
    by (intros n; apply view_besides; assumption).
  destruct v as [| z | s | | vs | r | c i]; try (destruct (ToIndex _));
    rewrite ?Hv; try reflexivity.
  rewrite !length_app, Hty, Hty'.
  destruct ((0 <=? offset) && _)%Z; [| reflexivity]. f_equal.
  replace (Z.to_nat offset) with (20 + (Z.to_nat offset - 20))%nat by lia.
  rewrite !app_assoc, <- !drop_drop.
  rewrite !drop_app_length' by (rewrite length_app; lia). reflexivity.
Qed.

(** C7, as the code has it. The static [load] has no error of its own for
    the container. A buffer whose first word is not the magic constant is
    read as a JSON document, like the response of a [.gltf] file: the
    outcome is that of parsing it and constructing from it. With the magic
    in place, a JSON chunk length that overruns the buffer makes the
    construction of the view throw [RangeError], as does a buffer of fewer
    than 16 bytes for the header; and the chunk type word is never examined:
    whatever the four bytes at offset 16 are, the outcome is the same. *)
Theorem container_failures (ToIndex : value -> option Z)
    (JSON_parse : list Byte.byte -> completion glTF) (Number : string -> number)
    (exts : list (string * Extensions.config)) (uri : string) :
  (forall buffer,
      (16 <= length buffer)%nat ->
      Container.u32_at buffer 0 <> Container.MAGIC_NUMBER_BINARY_FORMAT ->
      Container.construct ToIndex JSON_parse Number exts uri buffer
      = bind (JSON_parse buffer) (fun json => GLTF_new Number exts (Some json) uri))
  /\ (forall buffer,
      (16 <= length buffer)%nat ->
      Container.u32_at buffer 0 = Container.MAGIC_NUMBER_BINARY_FORMAT ->
      Z.of_nat (length buffer) < 20 + Container.u32_at buffer 3 ->
      Container.construct ToIndex JSON_parse Number exts uri buffer = Throw RangeError)
  /\ (forall buffer,
      (length buffer < 16)%nat ->
      Container.construct ToIndex JSON_parse Number exts uri buffer = Throw RangeError)
  /\ (forall pre ty ty' rest,
      length pre = 16%nat -> length ty = 4%nat -> length ty' = 4%nat ->
      Container.u32_at pre 0 = Container.MAGIC_NUMBER_BINARY_FORMAT ->
      Container.construct ToIndex JSON_parse Number exts uri (pre ++ ty ++ rest)
      = Container.construct ToIndex JSON_parse Number exts uri (pre ++ ty' ++ rest)).
Proof.
  split; [| split; [| split]].
  - intros buffer Hlen Hmagic. unfold Container.construct, Container.header.
    destruct (Nat.ltb_spec (length buffer) 16); [lia |]. cbn [bind map nth].
    destruct (Z.eqb_spec (Container.u32_at buffer 0) Container.MAGIC_NUMBER_BINARY_FORMAT);
      [contradiction | reflexivity].
  - intros buffer Hlen Hmagic Hover. unfold Container.construct, Container.header.
    destruct (Nat.ltb_spec (length buffer) 16); [lia |]. cbn [bind map nth].
    rewrite Hmagic, Z.eqb_refl. unfold Container.view.
    destruct (Z.leb_spec (5 * 4 + Container.u32_at buffer 3) (Z.of_nat (length buffer)));
      [lia |].
    rewrite andb_false_r. reflexivity.
  - intros buffer Hlen. unfold Container.construct, Container.header.
    destruct (Nat.ltb_spec (length buffer) 16); [reflexivity | lia].
  - intros pre ty ty' rest Hpre Hty Hty' Hmagic. unfold Container.construct.
    rewrite (header_besides pre ty ty' rest Hpre Hty Hty').
    unfold Container.header.
    destruct (length (pre ++ ty' ++ rest) <? 16)%nat; [reflexivity |].
    cbn [bind map nth].
    assert (H0 : Container.u32_at (pre ++ ty' ++ rest) 0
                 = Container.MAGIC_NUMBER_BINARY_FORMAT).
    { rewrite <- Hmagic. rewrite <- (app_nil_r pre) at 2.
      apply u32_at_besides; [exact Hpre | lia]. }
    rewrite H0, Z.eqb_refl.
    pose proof (u32_at_nonneg (pre ++ ty' ++ rest) 3) as Hj.
    set (jsonLength := Container.u32_at (pre ++ ty' ++ rest) 3) in *.
    rewrite (view_besides pre ty ty' rest (5 * 4) _ Hpre Hty Hty') by lia.
    destruct (Container.view (pre ++ ty' ++ rest) (5 * 4) jsonLength) as [chunk |];
      [| reflexivity]. cbn [bind].
    destruct (JSON_parse chunk) as [json |]; [| reflexivity]. cbn [bind].
    destruct (GLTF_new Number exts (Some json) uri) as [gltf |]; [| reflexivity].
    cbn [bind].
    destruct (get (this gltf) "buffers") as [| | | | [| [| | | | | b0 |] ?] | |];
      try reflexivity.
    destruct (arrayBuffers gltf); [reflexivity |].
    rewrite (payload_besides ToIndex pre ty ty' rest (7 * 4 + jsonLength) _ Hpre Hty Hty')
      by lia.
    reflexivity.
Qed.

Lemma container_failures_witness :
  Container.construct ToIndex_sample JSON_parse_sample Number_decimal [] "model.glb"
    (Container.u32 Container.MAGIC_NUMBER_BINARY_FORMAT ++ Container.u32 2
       ++ Container.u32 1020 ++ Container.u32 1000
       ++ Container.u32 Container.CHUNK_JSON)
  = Throw RangeError.
Proof.
  destruct (container_failures ToIndex_sample JSON_parse_sample Number_decimal [] "model.glb")
    as (_ & Hover & _).
  apply Hover.
  - cbn. lia.
  - vm_compute. reflexivity.
  - vm_compute. reflexivity.
Defined.

(** C7, as stated, fails on its first and third case. A buffer whose first
    word is not the magic constant is not rejected: the 27 bytes of the JSON
    text of [{asset: {version: "2.0"}}] load. A container whose first chunk
    is not typed JSON is not rejected either: with the type word of the
    first chunk set to BIN the container still loads. *)
Lemma wrong_magic_and_chunk_type_accepted :
  (Container.u32_at text_versioned 0 <> Container.MAGIC_NUMBER_BINARY_FORMAT
   /\ Container.construct ToIndex_sample JSON_parse_sample Number_decimal [] "model.gltf" text_versioned
      = Normal (constructed (versioned "2.0")))
  /\ is_Normal
       (Container.construct ToIndex_sample JSON_parse_sample Number_decimal [] "model.glb"
          (Container.u32 Container.MAGIC_NUMBER_BINARY_FORMAT ++ Container.u32 2
             ++ Container.u32 87
             ++ Container.chunk Container.CHUNK_BIN text_buffered
             ++ Container.chunk Container.CHUNK_BIN [Byte.x01; Byte.x02; Byte.x03]))
     = true.
Proof.
  split; [split |].
  - vm_compute. discriminate.
  - vm_compute. reflexivity.
  - vm_compute. reflexivity.
Qed.

(** ** The decompression worker and its pool *)

Section WorkerFacts.
Import Worker.
Context {attributes indices geometry : Type}.
Implicit Types (p : pool attributes indices geometry)
               (wk : worker attributes indices geometry)
               (m : request attributes indices)
               (r : reply attributes indices).

Lemma onmessage_decode (dr : option (DracoModule attributes indices geometry)) m :
  type_ m = "decode" ->
  exists r, onmessage dr m = [r] /\ reply_taskId r = taskId m
    /\ ((exists a i, decode dr m = Normal (a, i) /\ reply_body r = decoded a i)
        \/ (exists e, decode dr m = Throw e /\ reply_body r = failed e)).
Proof.
  intros Ht. unfold onmessage. rewrite Ht. cbn [String.eqb Ascii.eqb Bool.eqb andb].
  destruct (decode dr m) as [[a i] | e].
  - eexists. split; [reflexivity |]. split; [reflexivity |]. left. eauto.
  - eexists. split; [reflexivity |]. split; [reflexivity |]. right. eauto.
Qed.

Lemma onmessage_taskId (dr : option (DracoModule attributes indices geometry)) m r :
  In r (onmessage dr m) -> reply_taskId r = taskId m.
Proof.
  unfold onmessage. destruct (String.eqb (type_ m) "decode"); [| intros []].
  destruct (decode dr m) as [[a i] | e]; intros [<- | []]; reflexivity.
Qed.

Lemma lookup_updated (ws : list (worker attributes indices geometry)) w wk wk' w' x :
  ws !! w = Some wk -> <[w := wk']> ws !! w' = Some x ->
  (w' = w /\ x = wk') \/ (w' <> w /\ ws !! w' = Some x).
Proof.
  intros Hw Hx. destruct (decide (w' = w)) as [-> | Hne].
  - left. rewrite list_lookup_insert_eq in Hx by (eapply lookup_lt_Some; exact Hw).
    split; [reflexivity | congruence].
  - right. rewrite list_lookup_insert_ne in Hx by congruence. auto.
Qed.

Lemma sound_start count : sound (start attributes indices geometry count).
Proof.
  unfold sound, start; cbn. split; [| split; [| split]].
  - intros w wk Hw. apply lookup_replicate_1 in Hw as [-> _]. cbn.
    split; [intros H; inversion H |]. split; [intros r [] |].
    split; [intros m [] | intros r []].
  - discriminate.
  - intros _ w wk Hw. apply lookup_replicate_1 in Hw as [-> _]. reflexivity.
  - lia.
Qed.

End WorkerFacts.

Section PoolFacts.
Import Worker.
Context {attributes indices geometry : Type}.
Implicit Types (p : pool attributes indices geometry)
               (wk : worker attributes indices geometry)
               (m : request attributes indices)
               (r : reply attributes indices).

Lemma sound_step p a p' : sound p -> step p a = Some p' -> sound p'.
Proof.
  intros (Hw & Hacc & Hidle & Hnext) Hstep.
  destruct a as [w d | w | w | | w t]; cbn [step] in Hstep.
  - (* the decoder of worker [w] is loaded *)
    destruct (workers p !! w) as [wk |] eqn:Ew; [| discriminate].
    destruct (draco wk) eqn:Ed; [discriminate |].
    cbn in Hstep. injection Hstep as <-.
    unfold sound, with_workers; cbn [workers ready accepting nextTaskId].
    split; [| split; [| split]]; [| exact Hacc | | exact Hnext].
    + intros w' x Hx.
      destruct (lookup_updated _ _ _ _ _ _ Ew Hx) as [[-> ->] | [Hne Hold]];
        [| exact (Hw w' x Hold)].
      destruct (Hw w wk Ew) as (H1 & H2 & H3 & H4). cbn [draco inbox outbox].
      split; [discriminate |]. split; [discriminate |]. split; [exact H3 |].
      intros r Hr Hr0. apply in_app_or in Hr as [Hr | [<- | []]]; [auto |].
      cbn in Hr0. congruence.
    + intros Hf w' x Hx.
      destruct (lookup_updated _ _ _ _ _ _ Ew Hx) as [[-> ->] | [Hne Hold]];
        [exact (Hidle Hf w wk Ew) | exact (Hidle Hf w' x Hold)].
  - (* worker [w] handles its oldest request *)
    destruct (workers p !! w) as [wk |] eqn:Ew; [| discriminate].
    destruct (inbox wk) as [| m rest] eqn:Ei; [discriminate |].
    injection Hstep as <-.
    unfold sound, with_workers; cbn [workers ready accepting nextTaskId].
    split; [| split; [| split]]; [| exact Hacc | | exact Hnext].
    + intros w' x Hx.
      destruct (lookup_updated _ _ _ _ _ _ Ew Hx) as [[-> ->] | [Hne Hold]];
        [| exact (Hw w' x Hold)].
      destruct (Hw w wk Ew) as (H1 & H2 & H3 & H4). cbn [draco inbox outbox].
      rewrite Ei in H3.
      destruct (H3 m (or_introl eq_refl)) as (Hready & Htype & Hid).
      split; [exact H1 |]. split; [| split].
      * intros r Hr Hr0. apply in_app_or in Hr as [Hr | Hr]; [eauto |].
        apply onmessage_taskId in Hr. lia.
      * intros m' Hm'. apply H3. right. exact Hm'.
      * intros r Hr Hr0. apply in_app_or in Hr as [Hr | Hr]; [eauto |].
        apply onmessage_taskId in Hr. lia.
    + intros Hf w' x Hx.
      destruct (lookup_updated _ _ _ _ _ _ Ew Hx) as [[-> ->] | [Hne Hold]];
        [| exact (Hidle Hf w' x Hold)].
      rewrite (Hidle Hf w wk Ew) in Ei. discriminate.
  - (* the pool receives the oldest message of worker [w] *)
    destruct (workers p !! w) as [wk |] eqn:Ew; [| discriminate].
    destruct (outbox wk) as [| r rest] eqn:Eo; [discriminate |].
    destruct (Hw w wk Ew) as (H1 & H2 & H3 & H4). rewrite Eo in H2, H4.
    destruct (Z.eqb_spec (reply_taskId r) 0) as [Hr0 | Hr0]; injection Hstep as <-;
      unfold sound; cbn [workers ready accepting nextTaskId].
    + split; [| split; [| split]]; [| discriminate | | exact Hnext].
      * intros w' x Hx.
        destruct (lookup_updated _ _ _ _ _ _ Ew Hx) as [[-> ->] | [Hne Hold]].
        -- cbn [draco inbox outbox].
           split; [intros _; apply (H2 r (or_introl eq_refl) Hr0) |].
           split; [intros r' Hr'; apply H2; right; exact Hr' |].
           split; [| intros r' Hr'; apply H4; right; exact Hr'].
           intros m Hm. destruct (H3 m Hm) as (Hready & Hrest).
           split; [right; exact Hready | exact Hrest].
        -- destruct (Hw w' x Hold) as (G1 & G2 & G3 & G4).
           split; [| split; [exact G2 | split; [| exact G4]]].
           ++ intros Hin. apply G1. apply elem_of_cons in Hin as [-> | Hin];
                [contradiction | exact Hin].
           ++ intros m Hm. destruct (G3 m Hm) as (Hready & Hrest).
              split; [right; exact Hready | exact Hrest].
      * intros Hf w' x Hx.
        destruct (lookup_updated _ _ _ _ _ _ Ew Hx) as [[-> ->] | [Hne Hold]];
          [exact (Hidle Hf w wk Ew) | exact (Hidle Hf w' x Hold)].
    + split; [| split; [| split]]; [| exact Hacc | | exact Hnext].
      * intros w' x Hx.
        destruct (lookup_updated _ _ _ _ _ _ Ew Hx) as [[-> ->] | [Hne Hold]];
          [| exact (Hw w' x Hold)].
        cbn [draco inbox outbox]. split; [exact H1 |].
        split; [intros r' Hr'; apply H2; right; exact Hr' |].
        split; [exact H3 | intros r' Hr'; apply H4; right; exact Hr'].
      * intros Hf w' x Hx.
        destruct (lookup_updated _ _ _ _ _ _ Ew Hx) as [[-> ->] | [Hne Hold]];
          [exact (Hidle Hf w wk Ew) | exact (Hidle Hf w' x Hold)].
  - (* [init()] resolves *)
    destruct (ready p) as [| w0 ws] eqn:Er; [discriminate |].
    injection Hstep as <-. unfold sound; cbn [workers ready accepting nextTaskId].
    split; [exact Hw |]. split; [rewrite ?Er; discriminate |].
    split; [discriminate | exact Hnext].
  - (* a task is posted to worker [w] *)
    destruct (accepting p) eqn:Ea; [| discriminate]. cbn [andb] in Hstep.
    destruct (bool_decide (w ∈ ready p)) eqn:Er; [| discriminate].
    apply bool_decide_eq_true in Er.
    destruct (workers p !! w) as [wk |] eqn:Ew; [| discriminate].
    injection Hstep as <-. unfold sound; cbn [workers ready accepting nextTaskId].
    split; [| split; [| split]]; [| exact Hacc | discriminate | lia].
    intros w' x Hx.
    destruct (lookup_updated _ _ _ _ _ _ Ew Hx) as [[-> ->] | [Hne Hold]].
    + destruct (Hw w wk Ew) as (H1 & H2 & H3 & H4). cbn [draco inbox outbox].
      split; [exact H1 |]. split; [exact H2 |]. split.
      * intros m Hm. apply in_app_or in Hm as [Hm | [<- | []]].
        -- destruct (H3 m Hm) as (? & ? & ?). split; [assumption |].
           split; [assumption | lia].
        -- cbn. split; [exact Er |]. split; [reflexivity | lia].
      * intros r Hr Hr0. specialize (H4 r Hr Hr0). lia.
    + destruct (Hw w' x Hold) as (G1 & G2 & G3 & G4).
      split; [exact G1 |]. split; [exact G2 |]. split.
      * intros m Hm. destruct (G3 m Hm) as (? & ? & ?). split; [assumption |].
        split; [assumption | lia].
      * intros r Hr Hr0. specialize (G4 r Hr Hr0). lia.
Qed.

Lemma sound_run actions : forall p p',
  sound p -> run p actions = Some p' -> sound p'.
Proof.
  induction actions as [| a rest IH]; intros p p' Hp Hrun; cbn [run] in Hrun.
  - injection Hrun as <-. exact Hp.
  - destruct (step p a) as [p1 |] eqn:Es; [| discriminate].
    eapply IH; [| exact Hrun]. eapply sound_step; eassumption.
Qed.

End PoolFacts.

(** C9. For every decode request [{type:'decode', taskId, ...}] the handler
    of a worker posts exactly one message, carrying that [taskId]: either
    [{taskId, attributes, indices}] when decoding succeeds or
    [{taskId, error}] when it throws (also when the decoder is not loaded
    yet); the request [KHRDracoMeshCompressionPrimitive.load] posts is such
    a request. A worker whose decoder has loaded posts the sentinel
    [{taskId: 0}]. In every run of the pool: the pool counts a worker as
    ready only on receiving a message with [taskId] 0 from it, and such a
    worker has its decoder loaded; a task is dispatched only once [init()]
    has resolved, only to a ready worker, and with a non-zero [taskId];
    [init()] resolves only with a ready worker at hand, and before it no
    task is in any inbox. *)
Theorem worker_protocol {attributes indices geometry : Type} :
  (forall (dr : option (Worker.DracoModule attributes indices geometry)) m,
      Worker.type_ m = "decode" ->
      exists r, Worker.onmessage dr m = [r]
        /\ Worker.reply_taskId r = Worker.taskId m
        /\ ((exists a i, Worker.decode dr m = Normal (a, i)
                         /\ Worker.reply_body r = Worker.decoded a i)
            \/ (exists e, Worker.decode dr m = Throw e
                          /\ Worker.reply_body r = Worker.failed e)))
  /\ (forall id (t : Worker.task attributes indices),
      Worker.type_ (Worker.decode_request id t) = "decode"
      /\ Worker.taskId (Worker.decode_request id t) = id)
  /\ (forall d : Worker.DracoModule attributes indices geometry,
      Worker.onModuleLoaded d
      = (Some d, [ {| Worker.reply_taskId := 0; Worker.reply_body := Worker.nothing |} ]))
  /\ (forall count actions (p : Worker.pool attributes indices geometry),
      Worker.run (Worker.start attributes indices geometry count) actions = Some p ->
      (forall w wk, Worker.workers p !! w = Some wk ->
         (w ∈ Worker.ready p -> Worker.draco wk <> None)
         /\ (forall m, In m (Worker.inbox wk) ->
               w ∈ Worker.ready p /\ Worker.draco wk <> None
               /\ Worker.type_ m = "decode" /\ Worker.taskId m <> 0))
      /\ (Worker.accepting p = true -> Worker.ready p <> [])
      /\ (Worker.accepting p = false ->
          forall w wk, Worker.workers p !! w = Some wk -> Worker.inbox wk = []))
  /\ (forall (p : Worker.pool attributes indices geometry) a p' w,
      Worker.step p a = Some p' -> w ∈ Worker.ready p' ->
      w ∈ Worker.ready p
      \/ (a = Worker.PoolReceives w
          /\ exists wk r rest, Worker.workers p !! w = Some wk
               /\ Worker.outbox wk = r :: rest /\ Worker.reply_taskId r = 0))
  /\ (forall (p : Worker.pool attributes indices geometry) w t p',
      Worker.step p (Worker.PostMessage w t) = Some p' ->
      Worker.accepting p = true /\ w ∈ Worker.ready p
      /\ exists wk, Worker.workers p !! w = Some wk
           /\ Worker.workers p' !! w
              = Some {| Worker.draco := Worker.draco wk;
                        Worker.inbox := Worker.inbox wk
                                          ++ [Worker.decode_request (Worker.nextTaskId p) t];
                        Worker.outbox := Worker.outbox wk |}).
Proof.
  split; [| split; [| split; [| split; [| split]]]].
  - intros dr m. apply onmessage_decode.
  - intros id t. split; reflexivity.
  - intros d. reflexivity.
  - intros count actions p Hrun.
    destruct (sound_run actions _ p (sound_start count) Hrun) as (Hw & Hacc & Hidle & _).
    split; [| split; [exact Hacc | exact Hidle]].
    intros w wk Hwk. destruct (Hw w wk Hwk) as (H1 & _ & H3 & _).
    split; [exact H1 |]. intros m Hm. destruct (H3 m Hm) as (Hr & Ht & Hid).
    split; [exact Hr |]. split; [exact (H1 Hr) |]. split; [exact Ht | lia].
  - intros p a p' w Hstep Hready.
    destruct a as [w0 d | w0 | w0 | | w0 t]; cbn [Worker.step] in Hstep.
    + destruct (Worker.workers p !! w0) as [wk |]; [| discriminate].
      destruct (Worker.draco wk); [discriminate |].
      cbn in Hstep. injection Hstep as <-. left. exact Hready.
    + destruct (Worker.workers p !! w0) as [wk |]; [| discriminate].
      destruct (Worker.inbox wk); [discriminate |].
      injection Hstep as <-. left. exact Hready.
    + destruct (Worker.workers p !! w0) as [wk |] eqn:Ew; [| discriminate].
      destruct (Worker.outbox wk) as [| r rest] eqn:Eo; [discriminate |].
      destruct (Z.eqb_spec (Worker.reply_taskId r) 0) as [Hr0 | Hr0];
        injection Hstep as <-; cbn [Worker.ready] in Hready; [| left; exact Hready].
      apply elem_of_cons in Hready as [-> | Hready]; [| left; exact Hready].
      right. split; [reflexivity |]. exists wk, r, rest. auto.
    + destruct (Worker.ready p) eqn:Er; [discriminate |].
      injection Hstep as <-. left. cbn [Worker.ready] in Hready.
      rewrite ?Er in *. exact Hready.
    + destruct (Worker.accepting p && bool_decide (w0 ∈ Worker.ready p)); [| discriminate].
      destruct (Worker.workers p !! w0); [| discriminate].
      injection Hstep as <-. left. exact Hready.
  - intros p w t p' Hstep. cbn [Worker.step] in Hstep.
    destruct (Worker.accepting p); [| discriminate]. cbn [andb] in Hstep.
    destruct (bool_decide (w ∈ Worker.ready p)) eqn:Er; [| discriminate].
    apply bool_decide_eq_true in Er.
    destruct (Worker.workers p !! w) as [wk |] eqn:Ew; [| discriminate].
    injection Hstep as <-. split; [reflexivity |]. split; [exact Er |].
    exists wk. split; [reflexivity |]. cbn [Worker.workers].
    apply list_lookup_insert_eq. eapply lookup_lt_Some. exact Ew.
Qed.

Lemma worker_protocol_witness :
  exists p, Worker.run (Worker.start unit unit unit 4) toy_run = Some p
    /\ Worker.settled p = [(1, Worker.decoded tt tt)]
    /\ Worker.ready p = [0%nat]
    /\ (forall w wk, Worker.workers p !! w = Some wk ->
          w ∈ Worker.ready p -> Worker.draco wk <> None).
Proof.
  destruct (@worker_protocol unit unit unit) as (_ & _ & _ & Hrun & _).
  eexists. split; [reflexivity |]. split; [reflexivity |]. split; [reflexivity |].
  intros w wk Hwk. eapply (Hrun 4%nat toy_run); [reflexivity | exact Hwk].
Defined.

(** ** More on the registry class *)

Section RegistryFrame.
Import Extensions Further.
Context {factory : Type}.
Implicit Types (t : GLTFExtensionsSet factory) (schema : list (string * factory)).

Lemma schemas_fold_lookup N schema : forall (sch : gmap string (gmap string factory)) K,
  fold_left (add_entry N) schema sch !! K
  = match entry_for K schema with
    | Some f => Some (<[N := f]> (default ∅ (sch !! K)))
    | None => sch !! K
    end.
Proof.
  induction schema as [| [k f] rest IH]; intros sch K; cbn [fold_left entry_for].
  - reflexivity.
  - rewrite IH. unfold add_entry.
    destruct (String.eqb_spec k K) as [-> | Hne].
    + rewrite lookup_insert_eq.
      destruct (entry_for K rest); cbn [default id];
        [rewrite insert_insert_eq |]; reflexivity.
    + rewrite lookup_insert_ne by exact Hne.
      destruct (entry_for K rest); reflexivity.
Qed.

Lemma entry_for_absent K schema :
  ~ In K (map fst schema) -> entry_for K schema = None.
Proof.
  induction schema as [| [k f] rest IH]; cbn [entry_for map In fst]; [reflexivity |].
  intros H. rewrite IH by tauto.
  destruct (String.eqb_spec k K); [tauto | reflexivity].
Qed.

Lemma entry_for_present K f schema :
  NoDup (map fst schema) -> In (K, f) schema -> entry_for K schema = Some f.
Proof.
  induction schema as [| [k g] rest IH]; cbn [entry_for map In fst]; [intros _ [] |].
  intros Hnd [Heq | Hin]; apply NoDup_cons in Hnd as [Hk Hnd].
  - injection Heq as -> ->. rewrite entry_for_absent.
    + rewrite String.eqb_refl. reflexivity.
    + intros H. apply Hk. apply list_elem_of_In. exact H.
  - rewrite (IH Hnd Hin). reflexivity.
Qed.

Lemma isSupported_add_iff N' N schema t :
  isSupported N' (add N schema t) = true <-> N' = N \/ isSupported N' t = true.
Proof.
  unfold isSupported, add. cbn [supportedExtensions].
  rewrite !bool_decide_eq_true, elem_of_union, elem_of_singleton. reflexivity.
Qed.

(** X3. After [add(N, config)] the supported names are [N] and those
    supported before: [add] never withdraws support, supports no other
    name, and supports [N] also when the schema is empty. *)
Theorem add_supports_its_name_only t N N' schema :
  isSupported N' (add N schema t) = (String.eqb N' N || isSupported N' t).
Proof.
  destruct (isSupported N' (add N schema t)) eqn:E.
  - apply isSupported_add_iff in E as [-> | E].
    + rewrite String.eqb_refl. reflexivity.
    + rewrite E, orb_true_r. reflexivity.
  - symmetry. apply orb_false_iff. split.
    + apply String.eqb_neq. intros ->.
      assert (isSupported N (add N schema t) = true) by (apply isSupported_add_iff; auto).
      congruence.
    + destruct (isSupported N' t) eqn:E'; [| reflexivity].
      assert (isSupported N' (add N schema t) = true) by (apply isSupported_add_iff; auto).
      congruence.
Qed.

Lemma filled_snoc (calls : list (string * list (string * factory))) N schema :
  filled (calls ++ [(N, schema)]) = add N schema (filled calls).
Proof. unfold filled. rewrite fold_left_app. reflexivity. Qed.

Lemma entry_for_In K f schema : entry_for K schema = Some f -> In (K, f) schema.
Proof.
  induction schema as [| [k g] rest IH]; cbn [entry_for In]; [discriminate |].
  destruct (entry_for K rest) as [h |].
  - intros H. right. apply IH. exact H.
  - destruct (String.eqb_spec k K) as [-> |]; [| discriminate].
    intros H. injection H as ->. left. reflexivity.
Qed.

(** X5. Registrations under different names do not interfere: the two
    orders of [add(N1, ...)] and [add(N2, ...)] leave the same registry. *)
Theorem add_commutes t N1 N2 schema1 schema2 :
  N1 <> N2 ->
  add N1 schema1 (add N2 schema2 t) = add N2 schema2 (add N1 schema1 t).
Proof.
  intros Hne. unfold add. cbn [supportedExtensions schemas]. f_equal.
  - apply set_eq. intros x. rewrite !elem_of_union. tauto.
  - apply map_eq. intros K. rewrite !schemas_fold_lookup.
    destruct (entry_for K schema1) as [f1 |], (entry_for K schema2) as [f2 |];
      cbn [default id]; try reflexivity.
    rewrite insert_insert_ne by exact Hne. reflexivity.
Qed.

(** X6. Repeating a call of [add] changes nothing. *)
Theorem add_twice t N schema :
  add N schema (add N schema t) = add N schema t.
Proof.
  unfold add. cbn [supportedExtensions schemas]. f_equal.
  - apply set_eq. intros x. rewrite !elem_of_union. tauto.
  - apply map_eq. intros K. rewrite !schemas_fold_lookup.
    destruct (entry_for K schema) as [f |]; cbn [default id]; [| reflexivity].
    rewrite insert_insert_eq. reflexivity.
Qed.

End RegistryFrame.

Section RegistryLookups.
Import Extensions Further.
Context {factory : Type}.
Variable Object_prototype : string -> option factory.
Implicit Types (t : GLTFExtensionsSet factory) (schema : list (string * factory)).

Lemma getFactory_add K N' N schema t :
  getFactory Object_prototype K N' (add N schema t)
  = match entry_for K schema with
    | Some f =>
        if decide (N' = N) then Some f
        else match schemas t !! K with
             | Some _ => getFactory Object_prototype K N' t
             | None => Object_prototype N'
             end
    | None => getFactory Object_prototype K N' t
    end.
Proof.
  unfold getFactory, add. cbn [schemas]. rewrite schemas_fold_lookup.
  destruct (entry_for K schema) as [f |]; [| reflexivity].
  destruct (decide (N' = N)) as [-> | Hne].
  - rewrite lookup_insert_eq. reflexivity.
  - rewrite lookup_insert_ne by congruence.
    destruct (schemas t !! K); cbn [default id]; [reflexivity |].
    rewrite lookup_empty. reflexivity.
Qed.

Lemma getFactory_kind K N f t :
  getFactory Object_prototype K N t = Some f -> is_Some (schemas t !! K).
Proof. unfold getFactory. destruct (schemas t !! K); [eauto | discriminate]. Qed.


(** X1. [add(N, config)] touches the pairs of a kind of its schema and
    the name [N] only. For a kind the schema does not list, [getFactory]
    returns what it returned before, under every name: a later [add] under
    the same name with a smaller schema does not unregister the kinds it
    leaves out. For a kind of the schema and another name [N'] it does so
    too, provided [N'] is not a name [Object.prototype] has, or the kind
    had a registration before (with the first registration of a kind its
    object comes to be, and with it what that object inherits). *)
Theorem add_leaves_other_pairs t K N N' schema :
  (N' <> N /\ (Object_prototype N' = None
               \/ exists N0 f0, getFactory Object_prototype K N0 t = Some f0))
  \/ ~ In K (map fst schema) ->
  getFactory Object_prototype K N' (add N schema t)
  = getFactory Object_prototype K N' t.
Proof.
  intros H. rewrite getFactory_add.
  destruct (entry_for K schema) as [f |] eqn:E; [| reflexivity].
  destruct H as [[Hne H] | H].
  - rewrite decide_False by exact Hne.
    destruct (schemas t !! K) as [inner |] eqn:Ek; [reflexivity |].
    destruct H as [H | (N0 & f0 & H)].
    + rewrite H. unfold getFactory. rewrite Ek. reflexivity.
    + apply getFactory_kind in H. rewrite Ek in H. destruct H as [x H]. discriminate.
  - rewrite (entry_for_absent K schema H) in E. discriminate.
Qed.

(** X2. After [add(N, config)], every entry [K: F] of the schema is at
    hand: [getFactory(K, N)] returns [F], whatever was registered before
    (the keys of an object are distinct). *)
Theorem add_registers_every_kind t K N f schema :
  NoDup (map fst schema) -> In (K, f) schema ->
  getFactory Object_prototype K N (add N schema t) = Some f.
Proof.
  intros Hnd Hin. rewrite getFactory_add.
  rewrite (entry_for_present K f schema Hnd Hin), decide_True by reflexivity.
  reflexivity.
Qed.

(** X4. In a registry filled by calls of [add] alone, what
    [getFactory(K, N)] returns is a factory that some call registered for
    the kind [K] under the name [N], which is then a supported name; or
    else it is what every object inherits from [Object.prototype] under
    [N], and then some call registered the kind [K]. For a kind with no
    registration it returns nothing. *)
Theorem factory_only_under_supported_name
    (calls : list (string * list (string * factory))) K N f :
  getFactory Object_prototype K N (filled calls) = Some f ->
  (isSupported N (filled calls) = true
   /\ exists schema, In (N, schema) calls /\ In (K, f) schema)
  \/ (Object_prototype N = Some f
      /\ exists N0 schema, In (N0, schema) calls /\ In K (map fst schema)).
Proof.
  induction calls as [| [N0 schema] calls IH] using rev_ind.
  - unfold filled, getFactory; cbn. rewrite lookup_empty. discriminate.
  - rewrite !filled_snoc.
    assert (Hkeep : getFactory Object_prototype K N (filled calls) = Some f ->
              (isSupported N (add N0 schema (filled calls)) = true
               /\ exists schema', In (N, schema') (calls ++ [(N0, schema)])
                                  /\ In (K, f) schema')
              \/ (Object_prototype N = Some f
                  /\ exists N1 schema', In (N1, schema') (calls ++ [(N0, schema)])
                                        /\ In K (map fst schema'))).
    { intros H. destruct (IH H) as [(Hs & schema' & Hin & Hk)
                                   | (Hp & N1 & schema' & Hin & Hk)].
      - left. split; [apply isSupported_add_iff; auto |].
        exists schema'. split; [apply in_or_app; left; exact Hin | exact Hk].
      - right. split; [exact Hp |].
        exists N1, schema'. split; [apply in_or_app; left; exact Hin | exact Hk]. }
    rewrite getFactory_add.
    destruct (entry_for K schema) as [g |] eqn:E; [| exact Hkeep].
    apply entry_for_In in E.
    destruct (decide (N = N0)) as [-> | Hne].
    + intros H. injection H as ->. left.
      split; [apply isSupported_add_iff; auto |].
      exists schema. split; [apply in_or_app; right; left; reflexivity | exact E].
    + destruct (schemas (filled calls) !! K); [exact Hkeep |].
      intros H. right. split; [exact H |].
      exists N0, schema. split; [apply in_or_app; right; left; reflexivity |].
      apply in_map_iff. exists (K, g). split; [reflexivity | exact E].
Qed.

End RegistryLookups.

Lemma add_leaves_other_pairs_witness :
  Extensions.getFactory Further.Object_prototype_sample "Primitive" "toString"
    (Extensions.add "A" [("Primitive", 1%nat)]
       (Extensions.add "B" [("Primitive", 2%nat)] Extensions.empty))
  = Extensions.getFactory Further.Object_prototype_sample "Primitive" "toString"
      (Extensions.add "B" [("Primitive", 2%nat)] Extensions.empty).
Proof.
  apply add_leaves_other_pairs. left. split; [discriminate |].
  right. exists "B", 2%nat. vm_compute. reflexivity.
Defined.

Lemma add_registers_every_kind_witness :
  Extensions.getFactory Further.Object_prototype_sample "Node" "A"
    (Extensions.add "A" [("Primitive", 1%nat); ("Node", 2%nat)] Extensions.empty)
  = Some 2%nat.
Proof.
  apply add_registers_every_kind.
  - apply (bool_decide_unpack _). vm_compute. reflexivity.
  - right. left. reflexivity.
Defined.

Lemma factory_only_under_supported_name_witness :
  (Extensions.isSupported "toString" (Further.filled [("A", [("Primitive", 1%nat)])])
   = true
   /\ exists schema, In ("toString", schema) [("A", [("Primitive", 1%nat)])]
                     /\ In ("Primitive", 0%nat) schema)
  \/ (Further.Object_prototype_sample "toString" = Some 0%nat
      /\ exists N0 schema, In (N0, schema) [("A", [("Primitive", 1%nat)])]
                           /\ In "Primitive" (map fst schema)).
Proof.
  apply (factory_only_under_supported_name Further.Object_prototype_sample).
  vm_compute. reflexivity.
Defined.

Lemma add_commutes_witness :
  Extensions.add "A" [("Primitive", 1%nat)]
    (Extensions.add "B" [("Primitive", 2%nat)] Extensions.empty)
  = Extensions.add "B" [("Primitive", 2%nat)]
      (Extensions.add "A" [("Primitive", 1%nat)] Extensions.empty).
Proof. apply add_commutes. discriminate. Defined.

(** ** More on the gates *)

Section GateEdges.
Import Further.
Variable Number : string -> number.

Lemma extension_gate_throw exts req e :
  extension_gate exts req = Throw e ->
  exists ext, In ext req /\ e = UnsupportedExtensionError ext.
Proof.
  induction req as [| x rest IH]; cbn [extension_gate]; [discriminate |].
  destruct (Extensions.Map_has x exts).
  - intros H. destruct (IH H) as (ext & Hin & ->). exists ext. split; [right |]; auto.
  - intros H. injection H as <-. exists x. split; [left |]; reflexivity.
Qed.

(** X7. [ensureSupport] throws a [TypeError] exactly when the document
    gives no version string at all: [asset.version] is missing (or [asset]
    is) and [asset.minVersion] is missing or empty, so that [split] is called
    on [undefined]. Any other throw is one of the two [Error]s: "Unsupported
    glTF version v" for the string [v = minVersion || version], or
    "Unsupported glTF extension ext" for a required [ext]. *)
Theorem ensureSupport_TypeError_iff exts g :
  let a := default {| version := None; minVersion := None; generator := None |}
                   (asset_ g) in
  (ensureSupport Number exts g = Throw TypeError
   <-> truthy (minVersion a) = false /\ version a = None)
  /\ (forall e, ensureSupport Number exts g = Throw e ->
        e = TypeError
        \/ (exists v, or_else (minVersion a) (version a) = Some v
                      /\ e = UnsupportedVersionError v)
        \/ (exists ext, In ext (default [] (extensionsRequired g))
                        /\ e = UnsupportedExtensionError ext)).
Proof.
  intros a.
  assert (Hthrow : forall e, ensureSupport Number exts g = Throw e ->
            (or_else (minVersion a) (version a) = None /\ e = TypeError)
            \/ (exists v, or_else (minVersion a) (version a) = Some v
                          /\ e = UnsupportedVersionError v)
            \/ (exists ext, In ext (default [] (extensionsRequired g))
                            /\ e = UnsupportedExtensionError ext)).
  { intros e. unfold ensureSupport. fold a. unfold version_gate.
    destruct (or_else (minVersion a) (version a)) as [v |]; cbn [bind].
    - destruct (major_minor Number v) as [major minor].
      destruct (strict_ne major SUPPORTED_VERSION_major || _); cbn [bind].
      + intros H. injection H as <-. right. left. exists v. auto.
      + intros H. apply extension_gate_throw in H. right. right. exact H.
    - intros H. injection H as <-. left. auto. }
  split.
  - split.
    + intros H. destruct (Hthrow _ H) as [[Hv _] | [(v & _ & He) | (ext & _ & He)]];
        try discriminate He.
      unfold or_else in Hv. destruct (truthy (minVersion a)) eqn:Et; [| auto].
      destruct (minVersion a); discriminate.
    + intros [Ht Hv]. unfold ensureSupport. fold a. unfold version_gate, or_else.
      rewrite Ht, Hv. reflexivity.
  - intros e H. destruct (Hthrow e H) as [[_ He] | [Hv | Hx]]; auto.
Qed.

(** X8. With a non-empty [asset.minVersion], [asset.version] plays no
    role: two documents that differ in [asset.version] only have the same
    outcome of [ensureSupport] (the same pass, or the same error with the
    same message). So version ["1.0"] with minVersion ["2.0"] passes. *)
Theorem minVersion_overrides_version exts g a v :
  asset_ g = Some a -> truthy (minVersion a) = true ->
  forall g', asset_ g' = Some (with_version a v) ->
             extensionsRequired g' = extensionsRequired g ->
  ensureSupport Number exts g' = ensureSupport Number exts g.
Proof.
  intros Ha Ht g' Ha' Hr. unfold ensureSupport. rewrite Ha, Ha', Hr. cbn [default id].
  f_equal. unfold version_gate, or_else, with_version. cbn [minVersion version].
  rewrite Ht. reflexivity.
Qed.

Lemma split_dotless a : dotless a = true -> split "." a = [a].
Proof.
  induction a as [| c a IH]; cbn [dotless split]; [reflexivity |].
  intros H. apply andb_true_iff in H as [Hc Ha]. apply negb_true_iff in Hc.
  rewrite Hc, (IH Ha). reflexivity.
Qed.

Lemma split_app_dot (a s : string) :
  dotless a = true -> split "." (a ++ String "." s)%string = a :: split "." s.
Proof.
  induction a as [| c a IH]; cbn [dotless String.append].
  - intros _. reflexivity.
  - intros H. apply andb_true_iff in H as [Hc Ha]. apply negb_true_iff in Hc.
    change (String c a ++ String "." s)%string with (String c (a ++ String "." s)).
    cbn [split]. rewrite Hc, (IH Ha). reflexivity.
Qed.

Lemma major_minor_two_parts (a b : string) :
  dotless a = true -> dotless b = true ->
  major_minor Number (a ++ "." ++ b)%string = (Number a, Some (Number b)).
Proof.
  intros Ha Hb. unfold major_minor.
  change (a ++ "." ++ b)%string with (a ++ String "." b)%string.
  rewrite (split_app_dot a b Ha), (split_dotless b Hb). reflexivity.
Qed.

Lemma major_minor_more_parts (a b rest : string) :
  dotless a = true -> dotless b = true ->
  major_minor Number (a ++ "." ++ b ++ "." ++ rest)%string = (Number a, Some (Number b)).
Proof.
  intros Ha Hb. unfold major_minor.
  change (a ++ "." ++ b ++ "." ++ rest)%string
    with (a ++ String "." (b ++ String "." rest))%string.
  rewrite (split_app_dot a _ Ha), (split_app_dot b _ Hb).
  destruct (split "." rest); reflexivity.
Qed.

Lemma truthy_dotted (a s : string) : truthy (Some (a ++ "." ++ s)%string) = true.
Proof. destruct a; reflexivity. Qed.

(** X9. Only the first two parts of a version string are read: with
    [a] and [b] free of dots, ["a.b.rest"] passes the version gate exactly
    when ["a.b"] does, as [asset.version] and as [asset.minVersion]. *)
Theorem version_read_on_two_parts (a b rest : string) other gen :
  dotless a = true -> dotless b = true ->
  is_Normal (version_gate Number {| version := Some (a ++ "." ++ b ++ "." ++ rest)%string;
                                    minVersion := None; generator := gen |})
  = is_Normal (version_gate Number {| version := Some (a ++ "." ++ b)%string;
                                      minVersion := None; generator := gen |})
  /\ is_Normal (version_gate Number {| version := other;
                                       minVersion := Some (a ++ "." ++ b ++ "." ++ rest)%string;
                                       generator := gen |})
     = is_Normal (version_gate Number {| version := other;
                                         minVersion := Some (a ++ "." ++ b)%string;
                                         generator := gen |}).
Proof.
  intros Ha Hb. split.
  - unfold version_gate, or_else. cbn [minVersion version truthy].
    rewrite (major_minor_two_parts a b Ha Hb), (major_minor_more_parts a b rest Ha Hb).
    destruct (strict_ne _ _ || _); reflexivity.
  - unfold version_gate, or_else. cbn [minVersion version].
    rewrite (truthy_dotted a (b ++ "." ++ rest)%string), (truthy_dotted a b).
    rewrite (major_minor_two_parts a b Ha Hb), (major_minor_more_parts a b rest Ha Hb).
    destruct (strict_ne _ _ || _); reflexivity.
Qed.

(** X10. A [minVersion] without a minor part is judged on its major
    part alone: the minor part is [undefined], which is not above 0. *)
Theorem minVersion_without_minor a other gen :
  dotless a = true -> a <> "" ->
  version_gate Number {| version := other; minVersion := Some a; generator := gen |}
  = Normal tt
  <-> is_two (Number a).
Proof.
  intros Ha Hne.
  assert (Ht : truthy (Some a) = true).
  { cbn [truthy]. apply negb_true_iff. apply String.eqb_neq. exact Hne. }
  rewrite (version_gate_passes_iff Number _ a).
  - cbn [minVersion]. unfold major_minor. rewrite (split_dotless a Ha). cbn [map hd nth_error fst snd].
    split; [intros [H _]; exact H |]. intros H. split; [exact H |].
    intros _ [(q & Hq & _) | Hq]; discriminate.
  - unfold or_else. cbn [minVersion]. rewrite Ht. reflexivity.
Qed.

(** X11. The extensions of [extensionsRequired] are checked in order,
    and the error names the first one that is not registered: with every
    name before [ext] registered and [ext] not, constructing throws
    "Unsupported glTF extension ext", whatever follows [ext]. *)
Theorem extension_gate_reports_first_missing exts g a pre ext post uri :
  asset_ g = Some a -> version_gate Number a = Normal tt ->
  extensionsRequired g = Some (pre ++ ext :: post) ->
  (forall x, In x pre -> In x (map fst exts)) ->
  ~ In ext (map fst exts) ->
  GLTF_new Number exts (Some g) uri = Throw (UnsupportedExtensionError ext).
Proof.
  intros Ha Hv Hr Hpre Hext. apply GLTF_new_gate_throws.
  rewrite (ensureSupport_past_version Number exts g a Ha Hv), Hr. cbn [default id].
  clear Hr. induction pre as [| x pre IH]; cbn [app extension_gate].
  - destruct (Extensions.Map_has ext exts) eqn:E; [| reflexivity].
    apply Map_has_registered in E. contradiction.
  - assert (E : Extensions.Map_has x exts = true).
    { apply Map_has_registered. apply Hpre. left. reflexivity. }
    rewrite E. apply IH. intros y Hy. apply Hpre. right. exact Hy.
Qed.

Lemma Map_has_set ext name c exts :
  Extensions.Map_has ext (Map_set name c exts)
  = (String.eqb name ext || Extensions.Map_has ext exts).
Proof.
  induction exts as [| [k v] rest IH]; cbn [Map_set Extensions.Map_has].
  - rewrite orb_false_r. reflexivity.
  - destruct (String.eqb_spec k name) as [-> | Hne]; cbn [Extensions.Map_has].
    + destruct (String.eqb name ext); reflexivity.
    + rewrite IH. destruct (String.eqb k ext), (String.eqb name ext); reflexivity.
Qed.

(** X12. Once [KHR_draco_mesh_compression.js] has made its registration,
    the extension gate passes exactly for the documents whose required
    extensions are ["KHR_draco_mesh_compression"] or were registered
    before. *)
Theorem registration_opens_the_gate exts req :
  extension_gate (register_KHR_draco_mesh_compression exts) req = Normal tt
  <-> (forall ext, In ext req ->
         ext = "KHR_draco_mesh_compression" \/ In ext (map fst exts)).
Proof.
  rewrite extension_gate_passes_iff. unfold register_KHR_draco_mesh_compression.
  split; intros H ext Hin; specialize (H ext Hin).
  - apply Map_has_registered in H. rewrite Map_has_set in H.
    apply orb_true_iff in H as [H | H].
    + left. symmetry. apply String.eqb_eq. exact H.
    + right. apply Map_has_registered. exact H.
  - apply Map_has_registered. rewrite Map_has_set. apply orb_true_iff.
    destruct H as [-> | H]; [left; apply String.eqb_refl |].
    right. apply Map_has_registered. exact H.
Qed.

End GateEdges.

Lemma minVersion_overrides_version_witness :
  ensureSupport Number_decimal [] (aged (Some "1.0") (Some "2.0"))
  = ensureSupport Number_decimal [] (aged (Some "2.0") (Some "2.0")).
Proof.
  apply (minVersion_overrides_version Number_decimal [] _
           {| version := Some "2.0"; minVersion := Some "2.0"; generator := None |}
           (Some "1.0")); reflexivity.
Defined.

Lemma version_read_on_two_parts_witness :
  is_Normal (version_gate Number_decimal
               {| version := Some "2.0.5"; minVersion := None; generator := None |})
  = is_Normal (version_gate Number_decimal
                 {| version := Some "2.0"; minVersion := None; generator := None |}).
Proof.
  apply (proj1 (version_read_on_two_parts Number_decimal "2" "0" "5" None None
                  eq_refl eq_refl)).
Defined.

Lemma minVersion_without_minor_witness :
  version_gate Number_decimal
    {| version := None; minVersion := Some "2"; generator := None |}
  = Normal tt.
Proof.
  apply (minVersion_without_minor Number_decimal "2" None None eq_refl).
  - discriminate.
  - exists 2%Q. split; reflexivity.
Defined.

Lemma extension_gate_reports_first_missing_witness :
  GLTF_new Number_decimal [("A", {| Extensions.load := None |})]
    (Some (requiring ["A"; "B"; "C"])) "model.gltf"
  = Throw (UnsupportedExtensionError "B").
Proof.
  apply (extension_gate_reports_first_missing Number_decimal _ (requiring ["A"; "B"; "C"])
           {| version := Some "2.0"; minVersion := None; generator := None |}
           ["A"] "B" ["C"]).
  - reflexivity.
  - reflexivity.
  - reflexivity.
  - intros x [<- | []]. left. reflexivity.
  - intros [H | []]. discriminate H.
Defined.

(** ** More on the binary container *)

Lemma u32_at_app buffer extra i :
  (4 * i + 4 <= length buffer)%nat ->
  Container.u32_at (buffer ++ extra) i = Container.u32_at buffer i.
Proof.
  intros H. unfold Container.u32_at. rewrite !(app_nth1 buffer) by lia. reflexivity.
Qed.

Lemma u32_at_segment (pre mid mid' post : list Byte.byte) i :
  length mid = length mid' ->
  (4 * i + 4 <= length pre \/ length pre + length mid <= 4 * i)%nat ->
  Container.u32_at (pre ++ mid ++ post) i = Container.u32_at (pre ++ mid' ++ post) i.
Proof.
  intros Hlen [H | H]; unfold Container.u32_at.
  - rewrite !(app_nth1 pre) by lia. reflexivity.
  - rewrite !(app_nth2 pre) by lia.
    rewrite !(app_nth2 mid), !(app_nth2 mid') by lia.
    rewrite Hlen. reflexivity.
Qed.

Lemma view_app buffer extra offset len bytes :
  0 <= offset ->
  Container.view buffer offset len = Normal bytes ->
  Container.view (buffer ++ extra) offset len = Normal bytes.
Proof.
  intros Hoff. unfold Container.view. rewrite length_app.
  destruct (Z.leb_spec 0 offset); [| lia].
  destruct (Z.leb_spec 0 len) as [Hlen |]; cbn [andb]; [| discriminate].
  destruct (Z.leb_spec (offset + len) (Z.of_nat (length buffer))) as [Hfit |];
    [| discriminate].
  destruct (Z.leb_spec (offset + len) (Z.of_nat (length buffer + length extra)));
    [| lia].
  intros Hb. injection Hb as <-. f_equal.
  rewrite drop_app_le by lia. apply take_app_le. rewrite length_drop. lia.
Qed.

Lemma view_segment (pre mid mid' post : list Byte.byte) offset len :
  length mid = length mid' -> 0 <= offset ->
  offset + len <= Z.of_nat (length pre)
  \/ Z.of_nat (length pre + length mid) <= offset ->
  Container.view (pre ++ mid ++ post) offset len
  = Container.view (pre ++ mid' ++ post) offset len.
Proof.
  intros Hlen Hoff Hout. unfold Container.view. rewrite !length_app, Hlen.
  destruct (Z.leb_spec 0 offset); [| lia].
  destruct (Z.leb_spec 0 len) as [Hl |]; cbn [andb]; [| reflexivity].
  destruct (Z.leb_spec (offset + len) (Z.of_nat (length pre + (length mid' + length post))));
    [| reflexivity]. f_equal.
  destruct Hout as [Hin | Hbeyond].
  - rewrite !(drop_app_le pre) by lia.
    rewrite !take_app_le by (rewrite length_drop; lia). reflexivity.
  - rewrite !app_assoc.
    rewrite !drop_app_ge by (rewrite length_app; lia).
    rewrite !length_app, Hlen. reflexivity.
Qed.

Lemma payload_segment ToIndex (pre mid mid' post : list Byte.byte) offset v :
  length mid = length mid' ->
  Z.of_nat (length pre + length mid) <= offset ->
  Container.payload ToIndex (pre ++ mid ++ post) offset v
  = Container.payload ToIndex (pre ++ mid' ++ post) offset v.
Proof.
  intros Hlen Hoff. unfold Container.payload.
  assert (Hv : forall n, Container.view (pre ++ mid ++ post) offset n
                         = Container.view (pre ++ mid' ++ post) offset n)
    by (intros n; apply view_segment; [exact Hlen | lia | right; exact Hoff]).
  destruct v as [| z | s | | vs | r | c i]; try (destruct (ToIndex _));
    rewrite ?Hv; try reflexivity.
  rewrite !length_app, Hlen.
  destruct ((0 <=? offset) && _)%Z; [| reflexivity]. f_equal.
  rewrite !app_assoc.
  rewrite !drop_app_ge by (rewrite length_app; lia).
  rewrite !length_app, Hlen. reflexivity.
Qed.

Lemma mapM_length {A B} (f : A -> completion B) xs ys :
  mapM f xs = Normal ys -> length ys = length xs.
Proof.
  revert ys. induction xs as [| x xs IH]; cbn [mapM]; intros ys H.
  - injection H as <-. reflexivity.
  - apply bind_Normal_inv in H as (y & _ & H).
    apply bind_Normal_inv in H as (ys' & Hys & H). injection H as <-.
    cbn [length]. f_equal. apply IH. exact Hys.
Qed.

Lemma GLTF_new_buffers Number exts g uri G :
  GLTF_new Number exts (Some g) uri = Normal G ->
  exists vs, get (this G) "buffers" = array vs
             /\ length vs = length (default [] (buffers g)).
Proof.
  unfold GLTF_new. change (default default_glTF (Some g)) with g.
  intros H. apply bind_Normal_inv in H as (u & _ & H).
  destruct (asset_ g) as [a |]; [| discriminate].
  apply bind_Normal_inv in H as (self' & Hd & H). injection H as <-. cbn [this].
  cbn [dereference] in Hd.
  apply bind_Normal_inv in Hd as (fs' & Hp & Hd). injection Hd as <-.
  assert (Hsplit : assigned g a
                   = firstn 3 (assigned g a)
                       ++ ("buffers", array (construct_all (buffers g)))
                       :: skipn 4 (assigned g a)) by reflexivity.
  assert (Hkeys : ~ In "buffers" (map fst (firstn 3 (assigned g a)))).
  { cbn. intros Hin. repeat (destruct Hin as [Hin | Hin]; [discriminate Hin |]).
    exact Hin. }
  set (self := Rec GLTF_referenceFields (assigned g a)) in Hp. clearbody self.
  rewrite Hsplit in Hp. clear Hsplit. revert Hp Hkeys.
  generalize (firstn 3 (assigned g a)) as pre0.
  generalize (skipn 4 (assigned g a)) as post0.
  intros post0 pre0 Hp Hkeys.
  rewrite pass_app_cons in Hp.
  apply bind_Normal_inv in Hp as (pre' & Hpre & Hp).
  apply bind_Normal_inv in Hp as (v' & Hv & Hp).
  apply bind_Normal_inv in Hp as (post' & _ & Hp). injection Hp as <-.
  unfold field_pass in Hv.
  change (declared GLTF_referenceFields "buffers") with (Some sub) in Hv.
  apply bind_Normal_inv in Hv as (vs' & Hvs & Hv). injection Hv as <-.
  exists vs'. split.
  - unfold get. cbn [fields]. apply lookup_field_app_absent.
    rewrite (pass_keys _ _ _ _ _ Hpre). exact Hkeys.
  - rewrite (mapM_length _ _ _ Hvs). apply construct_all_length.
Qed.

Section ContainerEdges.
Variable ToIndex : value -> option Z.
Variable JSON_parse : list Byte.byte -> completion glTF.
Variable Number : string -> number.
Variable exts : list (string * Extensions.config).

Lemma construct_binary uri buffer :
  (16 <= length buffer)%nat ->
  Container.u32_at buffer 0 = Container.MAGIC_NUMBER_BINARY_FORMAT ->
  Container.construct ToIndex JSON_parse Number exts uri buffer
  = let jsonLength := Container.u32_at buffer 3 in
    bind (Container.view buffer (5 * 4) jsonLength) (fun chunk =>
    bind (JSON_parse chunk) (fun json =>
    bind (GLTF_new Number exts (Some json) uri) (fun gltf =>
    match get (this gltf) "buffers", arrayBuffers gltf with
    | array (record_ buffer0 :: _), region :: regions =>
        bind (Container.payload ToIndex buffer (7 * 4 + jsonLength)
                (get buffer0 "byteLength"))
             (fun source =>
        bind (Container.set_bytes region source) (fun region' =>
        Normal {| this := this gltf; uri_ := uri_ gltf;
                  arrayBuffers := region' :: regions |}))
    | _, _ => Throw TypeError
    end))).
Proof.
  intros Hlen Hmagic. unfold Container.construct, Container.header.
  destruct (Nat.ltb_spec (length buffer) 16); [lia |]. cbn [bind map nth].
  rewrite Hmagic, Z.eqb_refl. reflexivity.
Qed.

Lemma construct_Normal_length uri buffer R :
  Container.construct ToIndex JSON_parse Number exts uri buffer = Normal R ->
  (16 <= length buffer)%nat.
Proof.
  unfold Container.construct, Container.header.
  destruct (Nat.ltb_spec (length buffer) 16); [discriminate | lia].
Qed.

(** X13. Bytes after the payload are never read: if a binary container
    constructs, whose first buffer declares its [byteLength], then the same
    container with any bytes appended constructs the same root with the
    same byte regions. The total length the header declares is not
    compared with the buffer. *)
Theorem trailing_bytes_ignored uri buffer extra R buffer0 rest n :
  Container.u32_at buffer 0 = Container.MAGIC_NUMBER_BINARY_FORMAT ->
  Container.construct ToIndex JSON_parse Number exts uri buffer = Normal R ->
  get (this R) "buffers" = array (record_ buffer0 :: rest) ->
  get buffer0 "byteLength" = integer n ->
  Container.construct ToIndex JSON_parse Number exts uri (buffer ++ extra) = Normal R.
Proof.
  intros Hmagic HR Hget Hlength.
  pose proof (construct_Normal_length uri buffer R HR) as Hlen.
  rewrite construct_binary in HR by assumption.
  rewrite construct_binary.
  2: { rewrite length_app. lia. }
  2: { rewrite u32_at_app by lia. exact Hmagic. }
  cbv zeta in *. rewrite (u32_at_app buffer extra 3) by lia.
  pose proof (u32_at_nonneg buffer 3) as Hj.
  set (jsonLength := Container.u32_at buffer 3) in *.
  destruct (Container.view buffer (5 * 4) jsonLength) as [chunk |] eqn:Hv;
    [| discriminate].
  rewrite (view_app buffer extra _ _ chunk) by (first [lia | exact Hv]).
  cbn [bind] in *.
  destruct (JSON_parse chunk) as [json |]; [| discriminate]. cbn [bind] in *.
  destruct (GLTF_new Number exts (Some json) uri) as [gltf |]; [| discriminate].
  cbn [bind] in *.
  destruct (get (this gltf) "buffers") as [| | | | [| [| | | | | b0 |] others] | |] eqn:Eb;
    try discriminate.
  destruct (arrayBuffers gltf) as [| region regions]; [discriminate |].
  assert (Hb0 : get b0 "byteLength" = integer n).
  { destruct (Container.payload ToIndex buffer _ _) as [source |]; [| discriminate].
    cbn [bind] in HR. destruct (Container.set_bytes region source); [| discriminate].
    cbn [bind] in HR. injection HR as <-. cbn [this] in Hget.
    rewrite Eb in Hget. injection Hget as -> _. exact Hlength. }
  rewrite Hb0 in *. cbn [Container.payload] in *.
  destruct (Container.view buffer (7 * 4 + jsonLength) n) as [source |] eqn:Hs;
    [| discriminate].
  rewrite (view_app buffer extra _ _ source) by (first [lia | exact Hs]).
  exact HR.
Qed.

Lemma construct_segment uri (pre mid mid' post : list Byte.byte) :
  length mid = length mid' ->
  (4 <= length pre)%nat ->
  Container.u32_at pre 0 = Container.MAGIC_NUMBER_BINARY_FORMAT ->
  (16 <= length pre \/ length pre + length mid <= 12)%nat ->
  (5 * 4 + Container.u32_at (pre ++ mid ++ post) 3 <= Z.of_nat (length pre)
   \/ Z.of_nat (length pre + length mid) <= 5 * 4) ->
  Z.of_nat (length pre + length mid)
    <= 7 * 4 + Container.u32_at (pre ++ mid ++ post) 3 ->
  Container.construct ToIndex JSON_parse Number exts uri (pre ++ mid ++ post)
  = Container.construct ToIndex JSON_parse Number exts uri (pre ++ mid' ++ post).
Proof.
  intros Hlen Hpre Hmagic H3 Hjson Hbin.
  assert (E3 : Container.u32_at (pre ++ mid ++ post) 3
               = Container.u32_at (pre ++ mid' ++ post) 3).
  { apply u32_at_segment; [exact Hlen |]. destruct H3; [left | right]; lia. }
  unfold Container.construct, Container.header. rewrite !length_app, <- Hlen.
  destruct (_ <? 16)%nat; [reflexivity |]. cbn [bind map nth].
  rewrite (u32_at_app pre (mid ++ post) 0), (u32_at_app pre (mid' ++ post) 0) by lia.
  rewrite Hmagic, Z.eqb_refl. rewrite <- E3.
  pose proof (u32_at_nonneg (pre ++ mid ++ post) 3) as Hj.
  set (jsonLength := Container.u32_at (pre ++ mid ++ post) 3) in *.
  rewrite (view_segment pre mid mid' post (5 * 4) jsonLength Hlen) by lia.
  destruct (Container.view (pre ++ mid' ++ post) (5 * 4) jsonLength) as [chunk |];
    [| reflexivity]. cbn [bind].
  destruct (JSON_parse chunk) as [json |]; [| reflexivity]. cbn [bind].
  destruct (GLTF_new Number exts (Some json) uri) as [gltf |]; [| reflexivity].
  cbn [bind].
  destruct (get (this gltf) "buffers") as [| | | | [| [| | | | | b0 |] ?] | |];
    try reflexivity.
  destruct (arrayBuffers gltf); [reflexivity |].
  rewrite (payload_segment ToIndex pre mid mid' post (7 * 4 + jsonLength) _ Hlen) by lia.
  reflexivity.
Qed.

(** X14. Of the twelve-byte header only the magic is examined: whatever
    the eight bytes of the version word and of the length word are, the
    outcome is the same. *)
Theorem version_and_length_words_ignored uri (magic words words' rest : list Byte.byte) :
  length magic = 4%nat -> length words = 8%nat -> length words' = 8%nat ->
  Container.u32_at magic 0 = Container.MAGIC_NUMBER_BINARY_FORMAT ->
  Container.construct ToIndex JSON_parse Number exts uri (magic ++ words ++ rest)
  = Container.construct ToIndex JSON_parse Number exts uri (magic ++ words' ++ rest).
Proof.
  intros Hm Hw Hw' Hmagic.
  pose proof (u32_at_nonneg (magic ++ words ++ rest) 3).
  apply construct_segment; try lia; assumption.
Qed.

(** X15. The header of the second chunk is never examined: the payload
    is taken from offset [28 + jsonLength] whatever the eight bytes before
    it (its chunk length and chunk type) are. *)
Theorem binary_chunk_header_ignored uri (pre words words' payload : list Byte.byte) :
  (16 <= length pre)%nat ->
  Container.u32_at pre 0 = Container.MAGIC_NUMBER_BINARY_FORMAT ->
  Z.of_nat (length pre) = 20 + Container.u32_at pre 3 ->
  length words = 8%nat -> length words' = 8%nat ->
  Container.construct ToIndex JSON_parse Number exts uri (pre ++ words ++ payload)
  = Container.construct ToIndex JSON_parse Number exts uri (pre ++ words' ++ payload).
Proof.
  intros Hpre Hmagic Hj Hw Hw'.
  assert (E : Container.u32_at (pre ++ words ++ payload) 3 = Container.u32_at pre 3)
    by (apply u32_at_app; lia).
  apply construct_segment; rewrite ?E; try lia; assumption.
Qed.

(** X16. A binary container whose document declares no buffer does not
    construct: when the document itself constructs, [gltf.buffers[0]] is
    [undefined] and its use throws a [TypeError]; otherwise the throw is the
    constructor's. *)
Theorem container_without_buffer uri buffer chunk json :
  (16 <= length buffer)%nat ->
  Container.u32_at buffer 0 = Container.MAGIC_NUMBER_BINARY_FORMAT ->
  Container.view buffer 20 (Container.u32_at buffer 3) = Normal chunk ->
  JSON_parse chunk = Normal json ->
  default [] (buffers json) = [] ->
  Container.construct ToIndex JSON_parse Number exts uri buffer
  = match GLTF_new Number exts (Some json) uri with
    | Normal _ => Throw TypeError
    | Throw e => Throw e
    end.
Proof.
  intros Hlen Hmagic Hv Hp Hb. rewrite construct_binary by assumption.
  cbv zeta. change (5 * 4) with 20. rewrite Hv. cbn [bind]. rewrite Hp. cbn [bind].
  destruct (GLTF_new Number exts (Some json) uri) as [G |] eqn:HG; [| reflexivity].
  cbn [bind]. destruct (GLTF_new_buffers _ _ _ _ _ HG) as (vs & Hget & Hvs).
  rewrite Hb in Hvs. destruct vs; [| discriminate]. rewrite Hget. reflexivity.
Qed.

(** X17. The [byteLength] the first buffer declares is trusted: when
    fewer bytes than that follow offset [28 + jsonLength], the view on the
    payload throws a [RangeError]; nothing is clamped or zero-filled. *)
Theorem truncated_payload_RangeError uri buffer chunk json G buffer0 rest region regions :
  (16 <= length buffer)%nat ->
  Container.u32_at buffer 0 = Container.MAGIC_NUMBER_BINARY_FORMAT ->
  Container.view buffer 20 (Container.u32_at buffer 3) = Normal chunk ->
  JSON_parse chunk = Normal json ->
  GLTF_new Number exts (Some json) uri = Normal G ->
  get (this G) "buffers" = array (record_ buffer0 :: rest) ->
  arrayBuffers G = region :: regions ->
  Z.of_nat (length buffer) < 28 + Container.u32_at buffer 3 + byteLength_of buffer0 ->
  Container.construct ToIndex JSON_parse Number exts uri buffer = Throw RangeError.
Proof.
  intros Hlen Hmagic Hv Hp HG Hget Hreg Hover. rewrite construct_binary by assumption.
  cbv zeta. change (5 * 4) with 20. rewrite Hv. cbn [bind]. rewrite Hp. cbn [bind].
  rewrite HG. cbn [bind]. rewrite Hget, Hreg.
  pose proof (u32_at_nonneg buffer 3) as Hj.
  assert (Hview : forall n, byteLength_of buffer0 <= n \/ n < 0 ->
            Container.view buffer (7 * 4 + Container.u32_at buffer 3) n
            = Throw RangeError).
  { intros n Hn. unfold Container.view.
    destruct (Z.leb_spec 0 n); [| rewrite andb_false_r; reflexivity].
    destruct (Z.leb_spec (7 * 4 + Container.u32_at buffer 3 + n)
                         (Z.of_nat (length buffer))); [lia |].
    rewrite andb_false_r. reflexivity. }
  unfold byteLength_of in Hover, Hview. unfold Container.payload.
  destruct (get buffer0 "byteLength") as [| z | s | | vs | r | c i];
    try (destruct (ToIndex _) as [n |];
         [rewrite Hview by (destruct (Z.le_gt_cases 0 n); [left | right]; lia)
         | ]; reflexivity).
  - destruct (Z.leb_spec (7 * 4 + Container.u32_at buffer 3) (Z.of_nat (length buffer)));
      [lia |].
    rewrite andb_false_r. reflexivity.
  - rewrite Hview by (left; lia). reflexivity.
Qed.

End ContainerEdges.

Lemma trailing_bytes_ignored_witness :
  Container.construct ToIndex_sample JSON_parse_sample Number_decimal [] "model.glb"
    (Container.encode 2 text_buffered [Byte.x01; Byte.x02; Byte.x03] ++ [Byte.xff])
  = Normal {| this := this (constructed (buffered 3)); uri_ := "model.glb";
              arrayBuffers := [[Byte.x01; Byte.x02; Byte.x03]] |}.
Proof.
  apply (trailing_bytes_ignored ToIndex_sample JSON_parse_sample Number_decimal [] "model.glb"
           (Container.encode 2 text_buffered [Byte.x01; Byte.x02; Byte.x03])
           [Byte.xff] _ (Rec [] [("byteLength", integer 3)]) [] 3).
  - vm_compute. reflexivity.
  - vm_compute. reflexivity.
  - vm_compute. reflexivity.
  - reflexivity.
Defined.

Lemma version_and_length_words_ignored_witness :
  Container.construct ToIndex_sample JSON_parse_sample Number_decimal [] "model.glb"
    (Container.u32 Container.MAGIC_NUMBER_BINARY_FORMAT
       ++ (Container.u32 2 ++ Container.u32 70)
       ++ Container.chunk Container.CHUNK_JSON text_buffered
       ++ Container.chunk Container.CHUNK_BIN [Byte.x01; Byte.x02; Byte.x03])
  = Container.construct ToIndex_sample JSON_parse_sample Number_decimal [] "model.glb"
      (Container.u32 Container.MAGIC_NUMBER_BINARY_FORMAT
         ++ (Container.u32 1 ++ Container.u32 0)
         ++ Container.chunk Container.CHUNK_JSON text_buffered
         ++ Container.chunk Container.CHUNK_BIN [Byte.x01; Byte.x02; Byte.x03]).
Proof.
  apply version_and_length_words_ignored.
  - reflexivity.
  - reflexivity.
  - reflexivity.
  - vm_compute. reflexivity.
Defined.

Lemma binary_chunk_header_ignored_witness :
  Container.construct ToIndex_sample JSON_parse_sample Number_decimal [] "model.glb"
    ((Container.u32 Container.MAGIC_NUMBER_BINARY_FORMAT ++ Container.u32 2
        ++ Container.u32 70 ++ Container.chunk Container.CHUNK_JSON text_buffered)
       ++ (Container.u32 3 ++ Container.u32 Container.CHUNK_BIN)
       ++ [Byte.x01; Byte.x02; Byte.x03])
  = Container.construct ToIndex_sample JSON_parse_sample Number_decimal [] "model.glb"
      ((Container.u32 Container.MAGIC_NUMBER_BINARY_FORMAT ++ Container.u32 2
          ++ Container.u32 70 ++ Container.chunk Container.CHUNK_JSON text_buffered)
         ++ (Container.u32 0 ++ Container.u32 Container.CHUNK_JSON)
         ++ [Byte.x01; Byte.x02; Byte.x03]).
Proof.
  apply binary_chunk_header_ignored.
  - vm_compute. lia.
  - vm_compute. reflexivity.
  - vm_compute. reflexivity.
  - reflexivity.
  - reflexivity.
Defined.

Lemma container_without_buffer_witness :
  Container.construct ToIndex_sample JSON_parse_sample Number_decimal [] "model.glb"
    (Container.encode 2 text_versioned [])
  = Throw TypeError.
Proof.
  rewrite (container_without_buffer ToIndex_sample JSON_parse_sample Number_decimal [] "model.glb"
             (Container.encode 2 text_versioned []) text_versioned (versioned "2.0")).
  - reflexivity.
  - vm_compute. lia.
  - vm_compute. reflexivity.
  - vm_compute. reflexivity.
  - reflexivity.
  - reflexivity.
Defined.

Lemma truncated_payload_RangeError_witness :
  Container.construct ToIndex_sample JSON_parse_sample Number_decimal [] "model.gltf"
    (Container.encode 2 text_buffered [Byte.x01])
  = Throw RangeError.
Proof.
  apply (truncated_payload_RangeError ToIndex_sample JSON_parse_sample Number_decimal [] "model.gltf"
           (Container.encode 2 text_buffered [Byte.x01]) text_buffered (buffered 3)
           (constructed (buffered 3)) (Rec [] [("byteLength", integer 3)]) []
           [Byte.x00; Byte.x00; Byte.x00] []).
  - vm_compute. lia.
  - vm_compute. reflexivity.
  - vm_compute. reflexivity.
  - vm_compute. reflexivity.
  - vm_compute. reflexivity.
  - vm_compute. reflexivity.
  - vm_compute. reflexivity.
  - vm_compute. reflexivity.
Defined.

(** ** More on construction *)

Lemma pass_lookup recurse root rfs k fs fs' :
  pass recurse root rfs fs = Normal fs' ->
  In k (map fst fs) ->
  field_pass recurse root rfs k (lookup_field k fs) = Normal (lookup_field k fs').
Proof.
  unfold pass. revert fs'. induction fs as [| [k0 v0] fs IH]; cbn [mapM map In fst snd];
    intros fs' H Hin; [contradiction |].
  apply bind_Normal_inv in H as ([k1 v1] & Hkv & H).
  apply bind_Normal_inv in Hkv as (w & Hw & Hkv). injection Hkv as <- <-.
  apply bind_Normal_inv in H as (rest & Hrest & H). injection H as <-.
  cbn [lookup_field]. destruct (String.eqb_spec k0 k) as [-> | Hne]; [exact Hw |].
  apply IH; [exact Hrest |]. destruct Hin as [Heq | Hin]; [contradiction | exact Hin].
Qed.

Lemma field_pass_size recurse root rfs k v v' :
  field_pass recurse root rfs k v = Normal v' ->
  match v' with array vs' => length vs' | _ => 0%nat end
  = match v with array vs => length vs | _ => 0%nat end.
Proof.
  unfold field_pass. destruct (declared rfs k) as [[| c] |].
  - destruct v as [| z | s | | vs | r | c i]; cbn [into];
      try (intros H; injection H as <-; reflexivity).
    + intros H. apply bind_Normal_inv in H as (vs' & Hvs & H). injection H as <-.
      eapply mapM_length. exact Hvs.
    + intros H. apply bind_Normal_inv in H as (r' & _ & H). injection H as <-.
      reflexivity.
  - unfold dereference_index.
    destruct v as [| z | s | | [| v0 vs] | r | c0 i]; cbn [dereference_element];
      try (intros H; injection H as <-; reflexivity).
    + destruct ((0 <=? z) && _)%Z; intros H; [injection H as <-; reflexivity | discriminate].
    + intros H. apply bind_Normal_inv in H as (vs' & Hvs & H). injection H as <-.
      eapply mapM_length. exact Hvs.
  - intros H. injection H as <-. reflexivity.
Qed.

(** X18. A constructed root has, in each of its thirteen collections,
    as many records as the document lists (none for a missing member),
    [samplers] and [cameras] included; dereferencing does not change the
    counts. *)
Theorem construction_keeps_collection_sizes Number exts g uri G :
  GLTF_new Number exts (Some g) uri = Normal G ->
  collection_size (this G) "buffers" = length (default [] (buffers g))
  /\ collection_size (this G) "bufferViews" = length (default [] (bufferViews g))
  /\ collection_size (this G) "accessors" = length (default [] (accessors g))
  /\ collection_size (this G) "images" = length (default [] (images g))
  /\ collection_size (this G) "samplers" = length (default [] (samplers g))
  /\ collection_size (this G) "textures" = length (default [] (textures g))
  /\ collection_size (this G) "materials" = length (default [] (materials g))
  /\ collection_size (this G) "skins" = length (default [] (skins g))
  /\ collection_size (this G) "cameras" = length (default [] (cameras g))
  /\ collection_size (this G) "meshes" = length (default [] (meshes g))
  /\ collection_size (this G) "nodes" = length (default [] (nodes g))
  /\ collection_size (this G) "scenes" = length (default [] (scenes g))
  /\ collection_size (this G) "animations" = length (default [] (animations g)).
Proof.
  unfold GLTF_new. change (default default_glTF (Some g)) with g.
  intros H. apply bind_Normal_inv in H as (u & _ & H).
  destruct (asset_ g) as [a |]; [| discriminate].
  apply bind_Normal_inv in H as (self' & Hd & H). injection H as <-. cbn [this].
  cbn [dereference] in Hd.
  apply bind_Normal_inv in Hd as (fs' & Hp & Hd). injection Hd as <-.
  assert (Hsize : forall k, In k (map fst (assigned g a)) ->
            collection_size (Rec GLTF_referenceFields fs') k
            = collection_size (Rec GLTF_referenceFields (assigned g a)) k).
  { intros k Hk. unfold collection_size, get. cbn [fields].
    eapply field_pass_size. eapply pass_lookup; [exact Hp | exact Hk]. }
  repeat split; (rewrite Hsize by (cbn; tauto));
    unfold collection_size, get; cbn [fields assigned lookup_field String.eqb Ascii.eqb Bool.eqb];
    cbn; unfold construct_all; rewrite ?length_map; reflexivity.
Qed.

Lemma construction_keeps_collection_sizes_witness :
  collection_size (this (constructed filmed)) "buffers" = 1%nat
  /\ collection_size (this (constructed filmed)) "cameras" = 1%nat
  /\ collection_size (this (constructed filmed)) "meshes" = 0%nat.
Proof.
  destruct (construction_keeps_collection_sizes Number_decimal [] filmed "model.gltf"
              (constructed filmed))
    as (Hb & _ & _ & _ & _ & _ & _ & _ & Hc & Hm & _).
  - vm_compute. reflexivity.
  - split; [exact Hb | split; [exact Hc | exact Hm]].
Defined.

(** ** More on loading *)

Section LoadEdges.
Import Load.
Variable fate : key -> nat -> promise unit.

Lemma primitive_key_inj (self : key) i j :
  self ++ [("primitives", i)] = self ++ [("primitives", j)] -> i = j.
Proof. intros H. apply app_inv_head in H. congruence. Qed.

Lemma self_not_primitive (self : key) j : self ++ [("primitives", j)] <> self.
Proof.
  intros H. apply (f_equal (@length _)) in H. rewrite length_app in H. cbn in H. lia.
Qed.

Lemma count_among_primitives (self : key) now k n : forall start,
  length (filter (fun e : nat * key => e.2 = k)
            (map (fun k' => (now, k'))
               (map (fun i => self ++ [("primitives", i)]) (seq start n))))
  = length (filter (fun i => self ++ [("primitives", i)] = k) (seq start n)).
Proof.
  induction n as [| n IH]; intros start; cbn [seq map]; [reflexivity |].
  rewrite !filter_cons. cbn [snd].
  destruct (decide (self ++ [("primitives", start)] = k)); cbn [length]; rewrite IH;
    reflexivity.
Qed.

Lemma count_seq_zero (self : key) j n : forall start,
  (j < start)%nat ->
  length (filter (fun i => self ++ [("primitives", i)] = self ++ [("primitives", j)])
            (seq start n)) = 0%nat.
Proof.
  induction n as [| n IH]; intros start Hj; [reflexivity |]. cbn [seq].
  rewrite filter_cons. destruct (decide _) as [E | _].
  - apply primitive_key_inj in E. lia.
  - apply IH. lia.
Qed.

Lemma count_seq_one (self : key) j n : forall start,
  (start <= j < start + n)%nat ->
  length (filter (fun i => self ++ [("primitives", i)] = self ++ [("primitives", j)])
            (seq start n)) = 1%nat.
Proof.
  induction n as [| n IH]; intros start Hj; [lia |]. cbn [seq].
  rewrite filter_cons. destruct (decide _) as [E | E].
  - apply primitive_key_inj in E. subst start. cbn [length].
    rewrite count_seq_zero by lia. reflexivity.
  - apply IH. assert (start <> j) by (intros ->; apply E; reflexivity). lia.
Qed.

Lemma count_seq_none (self : key) n : forall start,
  length (filter (fun i => self ++ [("primitives", i)] = self) (seq start n)) = 0%nat.
Proof.
  induction n as [| n IH]; intros start; [reflexivity |]. cbn [seq].
  rewrite filter_cons. destruct (decide _) as [E | _].
  - exfalso. exact (self_not_primitive self start E).
  - apply IH.
Qed.

Lemma times_started_Mesh_load n self s now k :
  times_started k (Mesh_load fate n self s now).1
  = (times_started k s
     + (if decide (self = k) then 1 else 0)
     + length (filter (fun i => self ++ [("primitives", i)] = k) (seq 0 n)))%nat.
Proof.
  rewrite Mesh_load_spec. unfold times_started, primitive_keys. cbn [fst started].
  rewrite !filter_app, !length_app, filter_cons, filter_nil. cbn [snd].
  rewrite count_among_primitives. destruct (decide (self = k)); reflexivity.
Qed.

(** X19. [Mesh.load] calls [load], not [loadOnce], on its primitives and
    memoizes nothing: after two calls of [load] on a mesh, at any two
    instants, the [load] body of each primitive has been entered twice more,
    as has the mesh's own, and the memo is what it was. *)
Theorem Mesh_load_is_not_memoized n self s now now' j :
  (j < n)%nat ->
  let s1 := (Mesh_load fate n self s now).1 in
  let s2 := (Mesh_load fate n self s1 now').1 in
  memo s2 = memo s
  /\ times_started (self ++ [("primitives", j)]) s2
     = (times_started (self ++ [("primitives", j)]) s + 2)%nat
  /\ times_started self s2 = (times_started self s + 2)%nat.
Proof.
  intros Hj s1 s2. split; [| split].
  - unfold s2, s1. rewrite !Mesh_load_spec. reflexivity.
  - unfold s2, s1. rewrite !times_started_Mesh_load.
    rewrite (count_seq_one self j n 0) by lia.
    destruct (decide (self = self ++ [("primitives", j)])) as [E | _]; [| lia].
    exfalso. symmetry in E. exact (self_not_primitive self j E).
  - unfold s2, s1. rewrite !times_started_Mesh_load.
    rewrite (count_seq_none self n 0).
    destruct (decide (self = self)); [lia | contradiction].
Qed.

Lemma all_fulfilled_length {A} now (ps : list (promise A)) t vs :
  all_fulfilled now ps = Some (t, vs) -> length vs = length ps.
Proof.
  revert t vs. induction ps as [| p ps IH]; cbn [all_fulfilled]; intros t vs H.
  - injection H as _ <-. reflexivity.
  - destruct p as [| t0 v0 | t0 e0]; try discriminate.
    destruct (all_fulfilled now ps) as [[t1 vs1] |]; [| discriminate].
    injection H as _ <-. cbn [length]. f_equal. eapply IH. reflexivity.
Qed.

(** X20. [Mesh.load] is fulfilled only when the [load] of every
    primitive is, not before the last of them, and with one value for each
    primitive. *)
Theorem Mesh_load_waits_for_every_primitive n self s now t vs :
  (Mesh_load fate n self s now).2 = Fulfilled t vs ->
  length vs = n
  /\ (now <= t)%nat
  /\ forall j, (j < n)%nat ->
       exists tj, fate (self ++ [("primitives", j)]) now = Fulfilled tj tt
                  /\ (tj <= t)%nat.
Proof.
  rewrite Mesh_load_spec. cbn [snd]. intros H.
  destruct (Promise_all_fulfilled _ _ _ _ H) as [Hnow Hall].
  split; [| split; [exact Hnow |]].
  - unfold Promise_all in H.
    destruct (first_rejection _) as [[t0 e0] |]; [discriminate |].
    destruct (all_fulfilled now _) as [[t1 vs1] |] eqn:E; [| discriminate].
    injection H as _ <-. rewrite (all_fulfilled_length _ _ _ _ E).
    unfold primitive_keys. rewrite !length_map. apply length_seq.
  - intros j Hj.
    destruct (Hall (fate (self ++ [("primitives", j)]) now)) as (tj & [] & Hf & Hle).
    + apply in_map_iff. exists (self ++ [("primitives", j)]). split; [reflexivity |].
      unfold primitive_keys. apply in_map_iff. exists j. split; [reflexivity |].
      apply in_seq. lia.
    + exists tj. split; [exact Hf | exact Hle].
Qed.

(** X21. The [load] hooks of the registered extensions come first: if
    the promise one of them returns is rejected, at whatever instant, the
    root's [load] is rejected and no record is loaded: the memo and the
    journal are what they were. *)
Theorem rejected_extension_hook_stops_load base exts g s now name cfg hook t e :
  In (name, cfg) exts -> Extensions.load cfg = Some hook ->
  hook now = Rejected t e ->
  exists t' e', GLTF_load fate base exts g s now = (s, Rejected t' e').
Proof.
  intros Hin Hload Hhook.
  destruct (Promise_all_rejects now (extension_loads exts now) t e) as (t' & e' & Hall).
  - unfold extension_loads. apply in_map_iff. exists (name, cfg).
    cbn [snd]. rewrite Hload. split; [exact Hhook | exact Hin].
  - exists (Nat.max now t'), e'. unfold GLTF_load, await. rewrite Hall. reflexivity.
Qed.

End LoadEdges.

Lemma Mesh_load_is_not_memoized_witness :
  Load.times_started [("meshes", 0%nat); ("primitives", 1%nat)]
    (Load.Mesh_load Further.prompt 2 [("meshes", 0%nat)]
       (Load.Mesh_load Further.prompt 2 [("meshes", 0%nat)] Load.initial 0%nat).1 5%nat).1
  = 2%nat.
Proof.
  apply (Mesh_load_is_not_memoized Further.prompt 2 [("meshes", 0%nat)]
           Load.initial 0%nat 5%nat 1%nat).
  lia.
Defined.

Lemma Mesh_load_waits_for_every_primitive_witness :
  exists tj, Further.prompt [("meshes", 0%nat); ("primitives", 1%nat)] 3%nat
             = Fulfilled tj tt
             /\ (tj <= 3)%nat.
Proof.
  destruct (Mesh_load_waits_for_every_primitive Further.prompt 2 [("meshes", 0%nat)]
              Load.initial 3%nat 3%nat [tt; tt] eq_refl) as (_ & _ & H).
  apply (H 1%nat). lia.
Defined.

Lemma rejected_extension_hook_stops_load_witness :
  exists t' e',
    Load.GLTF_load Further.prompt (fun t => Fulfilled t tt)
      [("EXT_failing", {| Extensions.load := Some (fun t => Rejected t (Error "offline")) |})]
      (constructed filmed) Load.initial 0%nat
    = (Load.initial, Rejected t' e').
Proof.
  apply (rejected_extension_hook_stops_load Further.prompt (fun t => Fulfilled t tt) _
           (constructed filmed) Load.initial 0%nat "EXT_failing"
           {| Extensions.load := Some (fun t => Rejected t (Error "offline")) |}
           (fun t => Rejected t (Error "offline")) 0%nat (Error "offline")).
  - left. reflexivity.
  - reflexivity.
  - reflexivity.
Defined.

(** ** More on the worker *)

Section WorkerEdges.
Import Worker.
Context {attributes indices geometry : Type}.
Implicit Types (d : DracoModule attributes indices geometry)
               (m : request attributes indices).

(** X22. For a point cloud the worker does not read faces: a successful
    reply carries the [indices] of the request as they came, and the
    attributes filled from the decoded point cloud. *)
Theorem point_cloud_keeps_indices d m bytes a i :
  Container.view (arrayBuffer m) (byteOffset m) (byteLength m) = Normal bytes ->
  GetEncodedGeometryType d bytes = POINT_CLOUD ->
  decode (Some d) m = Normal (a, i) ->
  i = indices_ m
  /\ GetAttributes d (dracoGeometry (DecodeBufferToPointCloud d bytes)) (attributes_ m)
     = Normal a.
Proof.
  intros Hv Ht. unfold decode. rewrite Hv. cbn [bind]. rewrite Ht. cbn [bind].
  destruct (negb (ok _) || _); [discriminate |].
  destruct (GetAttributes d _ _) as [a' |]; [| discriminate]. cbn [bind].
  intros H. injection H as <- <-. split; reflexivity.
Qed.

(** X23. A failed decoding is reported before any attribute is read:
    when the decoding status is not ok, or the geometry pointer is null,
    the one message posted is [{taskId, error}] with the error "Decoding
    failed: <error_msg>", whatever the attribute loop would do. *)
Theorem failed_status_reported_before_attributes d m bytes r :
  type_ m = "decode" ->
  Container.view (arrayBuffer m) (byteOffset m) (byteLength m) = Normal bytes ->
  (GetEncodedGeometryType d bytes = TRIANGULAR_MESH /\ r = DecodeBufferToMesh d bytes)
  \/ (GetEncodedGeometryType d bytes = POINT_CLOUD
      /\ r = DecodeBufferToPointCloud d bytes) ->
  ok r = false \/ ptr r = 0 ->
  onmessage (Some d) m
  = [ {| reply_taskId := taskId m;
         reply_body := failed (Error ("Decoding failed: " ++ error_msg r)) |} ].
Proof.
  intros Hty Hv Hr Hbad. unfold onmessage. rewrite Hty.
  cbn [String.eqb Ascii.eqb Bool.eqb andb].
  assert (Hd : decode (Some d) m = Throw (Error ("Decoding failed: " ++ error_msg r))).
  { unfold decode. rewrite Hv. cbn [bind].
    assert (Hcond : negb (ok r) || (ptr r =? 0)%Z = true).
    { destruct Hbad as [-> | ->]; [reflexivity |]. rewrite Z.eqb_refl. apply orb_true_r. }
    destruct Hr as [[-> ->] | [-> ->]]; cbn [bind]; rewrite Hcond; reflexivity. }
  rewrite Hd. reflexivity.
Qed.

(** X24. The handler answers ['decode'] requests only: a message of any
    other type gets no reply, whatever the state of the decoder; and a
    ['decode'] request handled before the decoder module has loaded is
    answered with [{taskId, error}], the error being the [TypeError] of
    [new draco.Decoder()], not dropped or queued. *)
Theorem handler_outside_decoding m :
  (type_ m <> "decode" ->
   forall dr : option (DracoModule attributes indices geometry), onmessage dr m = [])
  /\ (type_ m = "decode" ->
      onmessage (@None (DracoModule attributes indices geometry)) m
      = [ {| reply_taskId := taskId m; reply_body := failed TypeError |} ]).
Proof.
  split.
  - intros Hne dr. unfold onmessage.
    destruct (String.eqb_spec (type_ m) "decode"); [contradiction | reflexivity].
  - intros Hty. unfold onmessage. rewrite Hty. reflexivity.
Qed.

End WorkerEdges.

Lemma point_cloud_keeps_indices_witness :
  [0; 1; 2] = Worker.indices_ (Further.toy_request "decode" 2)
  /\ Worker.GetAttributes Further.toy_point_cloud
       (Worker.dracoGeometry
          (Worker.DecodeBufferToPointCloud Further.toy_point_cloud [Byte.x01; Byte.x02]))
       (Worker.attributes_ (Further.toy_request "decode" 2))
     = Normal tt.
Proof.
  apply (point_cloud_keeps_indices Further.toy_point_cloud (Further.toy_request "decode" 2)
           [Byte.x01; Byte.x02] tt [0; 1; 2]); reflexivity.
Defined.

Lemma failed_status_reported_before_attributes_witness :
  Worker.onmessage (Some Further.toy_point_cloud) (Further.toy_request "decode" 0)
  = [ {| Worker.reply_taskId := 7;
         Worker.reply_body := Worker.failed (Error "Decoding failed: empty buffer") |} ].
Proof.
  apply (failed_status_reported_before_attributes Further.toy_point_cloud
           (Further.toy_request "decode" 0) []
           (Worker.DecodeBufferToPointCloud Further.toy_point_cloud [])).
  - reflexivity.
  - reflexivity.
  - right. split; reflexivity.
  - left. reflexivity.
Defined.

Lemma handler_outside_decoding_witness :
  Worker.onmessage (Some Further.toy_point_cloud) (Further.toy_request "ping" 2) = []
  /\ Worker.onmessage (@None (Worker.DracoModule unit (list Z) unit))
       (Further.toy_request "decode" 2)
     = [ {| Worker.reply_taskId := 7; Worker.reply_body := Worker.failed TypeError |} ].
Proof.
  split.
  - apply (proj1 (handler_outside_decoding (geometry := unit) (Further.toy_request "ping" 2))).
    discriminate.
  - apply (proj2 (handler_outside_decoding (geometry := unit) (Further.toy_request "decode" 2))).
    reflexivity.
Defined.

(** ** More on construction: the default argument *)

(** X25. The default argument of the constructor always constructs,
    whatever is registered: [new GLTF()] is a root with no record in any
    collection, no default scene and no byte region ([Number("2")] being
    2). *)
Theorem default_document_constructs Number exts uri :
  is_two (Number "2") ->
  exists G, GLTF_new Number exts None uri = Normal G
    /\ uri_ G = uri /\ arrayBuffers G = []
    /\ get (this G) "scene" = undefined
    /\ forall c, collection_size (this G) c = 0%nat.
Proof.
  intros H2. unfold GLTF_new. change (default default_glTF None) with default_glTF.
  assert (Hgate : ensureSupport Number exts default_glTF = Normal tt).
  { unfold ensureSupport.
    change (default _ (asset_ default_glTF))
      with {| version := Some "2.0"; minVersion := None;
              generator := Some "Revelry Runtime Generation" |}.
    assert (Hv : version_gate Number
                   {| version := Some "2.0"; minVersion := None;
                      generator := Some "Revelry Runtime Generation" |} = Normal tt).
    { apply (version_gate_passes_iff Number _ "2.0"); [reflexivity |].
      split; [exact H2 | discriminate]. }
    rewrite Hv. reflexivity. }
  rewrite Hgate. cbn [bind asset_ default_glTF].
  match goal with
  | |- context [dereference ?a ?b] => remember (dereference a b) as d eqn:Ed
  end.
  vm_compute in Ed. subst d. cbn [bind].
  eexists. split; [reflexivity |]. split; [reflexivity |]. split; [reflexivity |].
  split; [reflexivity |].
  intros c. unfold collection_size, get. cbn [this fields lookup_field].
  repeat (destruct (String.eqb _ c); [reflexivity |]). reflexivity.
Qed.

Lemma default_document_constructs_witness :
  exists G, GLTF_new Number_decimal [] None "model.gltf" = Normal G
    /\ uri_ G = "model.gltf" /\ arrayBuffers G = []
    /\ get (this G) "scene" = undefined
    /\ forall c, collection_size (this G) c = 0%nat.
Proof.
  apply default_document_constructs. exists 2%Q. split; reflexivity.
Defined.

(** ** More on [Values.load] *)

Section ValuesEdges.
Import Load.
Variable fate : key -> nat -> promise unit.
Variable base : nat -> promise unit.

Lemma loadOnce_leaf_promise buffer s now :
  (loadOnce (leaf_load fate) buffer s now).2
  = default (fate buffer now) (memo s !! buffer).
Proof.
  unfold loadOnce. destruct (memo s !! buffer) as [p |]; reflexivity.
Qed.

(** X26. [Values.load] is fulfilled only after its buffer and then the
    base [load]: the promise [bufferView.buffer.loadOnce] returned (the
    memoized one, or that of a load entered at the call) is fulfilled, at
    some [tb]; the base [load], called when that is known, is fulfilled;
    and the instant of fulfilment is the later of the two. *)
Theorem Values_load_waits_for_buffer buffer self s now t :
  (Values_load fate base buffer self s now).2 = Fulfilled t tt ->
  exists tb t',
    default (fate buffer now) (memo s !! buffer) = Fulfilled tb tt
    /\ base (Nat.max now tb) = Fulfilled t' tt
    /\ t = Nat.max (Nat.max now tb) t'.
Proof.
  unfold Values_load.
  pose proof (loadOnce_leaf_promise buffer (log now self s) now) as Hp.
  destruct (loadOnce (leaf_load fate) buffer (log now self s) now) as [s1 p].
  cbn [snd log memo] in Hp. subst p. unfold await.
  destruct (default (fate buffer now) (memo s !! buffer)) as [| tb [] | tb e] eqn:Eb;
    cbn [snd]; try discriminate.
  destruct (base (Nat.max now tb)) as [| t' [] | t' e] eqn:Es; cbn [snd];
    try discriminate.
  intros H. injection H as <-. exists tb, t'.
  split; [reflexivity | split; [exact Es | reflexivity]].
Qed.

End ValuesEdges.

Lemma Values_load_waits_for_buffer_witness :
  exists tb t',
    default (Further.prompt [("buffers", 0%nat)] 2%nat)
            (Load.memo Load.initial !! [("buffers", 0%nat)]) = Fulfilled tb tt
    /\ (fun t => Fulfilled (t + 1)%nat tt) (Nat.max 2 tb) = Fulfilled t' tt
    /\ 3%nat = Nat.max (Nat.max 2 tb) t'.
Proof.
  apply (Values_load_waits_for_buffer Further.prompt (fun t => Fulfilled (t + 1)%nat tt)
           [("buffers", 0%nat)] [("accessors", 0%nat); ("sparse", 0%nat)]
           Load.initial 2%nat 3%nat).
  reflexivity.
Defined.
